(** * Belos projected least-squares solver: a shallow embedding

    The development follows
    [packages/belos/src/BelosProjectedLeastSquaresSolver.hpp]:
    the container [ProjectedLeastSquaresProblem], the wrappers of
    [LocalDenseMatrixOps] and the Givens updater and triangular solver of
    [ProjectedLeastSquaresSolver].

    The code is a C++ template over [Scalar].  The embedding is generic in
    the same way: the scalar type, its magnitude type and
    [Teuchos::ScalarTraits] are a type class, the scalar kernels of the BLAS
    and the LAPACK drivers are type classes as well.  A dense matrix is a
    column-major buffer with a stride and an offset, as in
    [Teuchos::SerialDenseMatrix], so that a [View] aliases its parent.

    An [int] is an integer of [Z]: the indices and dimensions that pass the
    bounds tests are below the dimensions of the matrices, and the one
    product of two dimensions that is not an index, in the self-test, wraps
    to 32 bits.  A function that throws gives [Throw]; the state it leaves
    behind is not kept. *)

From Stdlib Require Import ZArith List Bool Lia QArith Qabs.
From stdpp Require Import base tactics option list list_numbers.

Open Scope Z_scope.

(** ** Exceptions and results *)

(** The three standard exceptions the code throws through
    [TEST_FOR_EXCEPTION], and [range_error] for an access outside a matrix, an
    array or its storage: undefined behaviour in an optimised build, a range
    error in a bounds-checking build of Teuchos. *)
Inductive exn : Type :=
  | invalid_argument
  | runtime_error
  | logic_error
  | range_error.

Inductive result (A : Type) : Type :=
  | Ok (a : A)
  | Throw (e : exn).

Arguments Ok {A} a.
Arguments Throw {A} e.

#[global] Instance result_ret : MRet result := fun A a => Ok a.

#[global] Instance result_bind : MBind result := fun A B f r =>
  match r with
  | Ok a => f a
  | Throw e => Throw e
  end.

(** [TEST_FOR_EXCEPTION(cond, exception, msg)] *)
Definition TEST_FOR_EXCEPTION (cond : bool) (e : exn) : result unit :=
  if cond then Throw e else Ok tt.

(** [for (int i = lo; i < hi; ++i) body], threading the loop state. *)
Fixpoint for_steps {S : Type} (n : nat) (i : Z) (body : Z -> S -> result S)
    (s : S) : result S :=
  match n with
  | O => Ok s
  | Datatypes.S n' => s' ← body i s; for_steps n' (i + 1) body s'
  end.

Definition for_range {S : Type} (lo hi : Z) (body : Z -> S -> result S)
    (s : S) : result S :=
  for_steps (Z.to_nat (hi - lo)) lo body s.

(** ** Scalars *)

(** [Teuchos::ScalarTraits<Scalar>] (the fields [STS_]) together with the
    traits of its magnitude type (the fields [STM_]), the arithmetic of
    [Scalar] and the conversions the code relies on. *)
Class ScalarTraits (Scalar magnitudeType : Type) : Type := {
  STS_zero : Scalar;
  STS_one : Scalar;
  STS_magnitude : Scalar -> magnitudeType;
  STS_eps : magnitudeType;
  STS_eqb : Scalar -> Scalar -> bool;
  STS_sub : Scalar -> Scalar -> Scalar;
  STS_mul : Scalar -> Scalar -> Scalar;
  STS_div : Scalar -> Scalar -> Scalar;
  (* the converting constructor [Scalar (beta)] *)
  STS_promote : magnitudeType -> Scalar;
  (* [static_cast<int> (STS::real (x))] *)
  STS_real_to_int : Scalar -> Z;
  STM_zero : magnitudeType;
  STM_one : magnitudeType;
  STM_squareroot : magnitudeType -> magnitudeType;
  STM_isnaninf : magnitudeType -> bool;
  STM_eqb : magnitudeType -> magnitudeType -> bool;
  STM_ltb : magnitudeType -> magnitudeType -> bool;
  STM_leb : magnitudeType -> magnitudeType -> bool;
  STM_mul : magnitudeType -> magnitudeType -> magnitudeType;
  (* the implicit conversion of an [int] to [magnitude_type] *)
  STM_of_int : Z -> magnitudeType
}.

(** Scalar kernels of [Teuchos::BLAS]: the rotation generator [_ROTG], which
    maps [(a, b)] to [(r, z, c, s)], and the plane rotation that [_ROT]
    applies to each pair, [c s x y] to the new [(x, y)]. *)
Class BLAS (Scalar : Type) : Type := {
  ROTG : Scalar -> Scalar -> Scalar * Scalar * Scalar * Scalar;
  rot : Scalar -> Scalar -> Scalar -> Scalar -> Scalar * Scalar
}.

(** ** Storage *)

Section Storage.
Context {A : Type}.

(** Modelled from the spec: [Teuchos::Array] and [Teuchos::ArrayView] are
    not among the sources.  [buf[p]], the read of an entry of the rotation
    arrays of section 3 or of the storage of a matrix. *)
Definition load (buf : list A) (p : Z) : result A :=
  if 0 <=? p then
    match buf !! Z.to_nat p with
    | Some v => Ok v
    | None => Throw range_error
    end
  else Throw range_error.

(** Modelled from the spec: the same arrays; [buf[p] = v], which leaves the
    length as it is. *)
Definition store (buf : list A) (p : Z) (v : A) : result (list A) :=
  if (0 <=? p) && (p <? Z.of_nat (length buf)) then
    Ok (<[Z.to_nat p := v]> buf)
  else Throw range_error.
End Storage.

(** ** Dense matrices *)

(** Modelled from the spec: [Teuchos::SerialDenseMatrix] is not among the
    sources.  It is the small dense matrix of sections 3 and 4.1: column-major
    storage with a leading dimension ([stride]); a [View] shares the storage
    of its parent, so [values ()] of a view is the parent's storage at an
    [offset]. *)
Record SerialDenseMatrix (Scalar : Type) : Type := mkMatrix {
  numRows : Z;
  numCols : Z;
  stride : Z;
  offset : Z;
  buffer : list Scalar
}.

Arguments mkMatrix {Scalar} _ _ _ _ _.
Arguments numRows {Scalar} _.
Arguments numCols {Scalar} _.
Arguments stride {Scalar} _.
Arguments offset {Scalar} _.
Arguments buffer {Scalar} _.

Section DenseMatrix.
Context {Scalar magnitudeType : Type}.
Context {STS : ScalarTraits Scalar magnitudeType}.

Local Abbreviation mat_type := (SerialDenseMatrix Scalar).

Definition with_buffer (A : mat_type) (buf : list Scalar) : mat_type :=
  mkMatrix (numRows A) (numCols A) (stride A) (offset A) buf.

Definition in_dims (A : mat_type) (i j : Z) : bool :=
  (0 <=? i) && (i <? numRows A) && (0 <=? j) && (j <? numCols A).

(** Modelled from the spec: [operator()] of [Teuchos::SerialDenseMatrix],
    the entry of a column-major matrix; [&A(i,j)], as a position in the
    storage. *)
Definition addr (A : mat_type) (i j : Z) : result Z :=
  if in_dims A i j then Ok (offset A + i + j * stride A)
  else Throw range_error.

(** Modelled from the spec: the same operator; [A(i,j)] read. *)
Definition elem (A : mat_type) (i j : Z) : result Scalar :=
  p ← addr A i j; load (buffer A) p.

(** Modelled from the spec: the same operator; [A(i,j) = v]. *)
Definition setElem (A : mat_type) (i j : Z) (v : Scalar) : result mat_type :=
  p ← addr A i j; buf ← store (buffer A) p v; Ok (with_buffer A buf).

(** Modelled from the spec: the constructor [SerialDenseMatrix (numRows,
    numCols)] of the missing class; fresh zeroed storage. *)
Definition newMatrix (nr nc : Z) : mat_type :=
  mkMatrix nr nc nr 0 (replicate (Z.to_nat (nr * nc)) STS_zero).

(** Modelled from the spec: the constructor [SerialDenseMatrix
    (Teuchos::View, A, nr, nc, startRow, startCol)] of the missing class; the
    block of [A] that starts at [(startRow, startCol)], on the storage of
    [A]. *)
Definition View (A : mat_type) (nr nc startRow startCol : Z) : mat_type :=
  mkMatrix nr nc (stride A) (offset A + startRow + startCol * stride A)
           (buffer A).

(** Modelled from the spec: [putScalar] of the missing class, the zeroing of
    section 3; [A.putScalar (v)]: every entry of [A] becomes [v], column by
    column. *)
Definition putScalar (A : mat_type) (v : Scalar) : result mat_type :=
  buf ← for_range 0 (numCols A) (fun j buf =>
           for_range 0 (numRows A) (fun i buf =>
             store buf (offset A + i + j * stride A) v) buf)
         (buffer A);
  Ok (with_buffer A buf).

(** Modelled from the spec: [copyMat] of the missing class; the leading
    [nr] by [nc] block of the source storage is copied into the destination
    storage. *)
Definition copyMat (src : list Scalar) (srcOff srcStride : Z) (nr nc : Z)
    (dst : list Scalar) (dstOff dstStride : Z) : result (list Scalar) :=
  for_range 0 nc (fun j dst =>
    for_range 0 nr (fun i dst =>
      v ← load src (srcOff + i + j * srcStride);
      store dst (dstOff + i + j * dstStride) v) dst) dst.

(** Modelled from the spec: [assign] of the missing class, the copy of a
    column in step 1 of section 4.3; [A.assign (Source)] copies when the
    dimensions agree, and leaves [A] as it is otherwise.  The two matrices
    are different objects on different storage. *)
Definition assign (A Source : mat_type) : result mat_type :=
  if (numRows A =? numRows Source) && (numCols A =? numCols Source) then
    buf ← copyMat (buffer Source) (offset Source) (stride Source)
                  (numRows A) (numCols A)
                  (buffer A) (offset A) (stride A);
    Ok (with_buffer A buf)
  else Ok A.

(** Modelled from the spec: [reshape] of the missing class, the growth of
    section 4.2; [A.reshape (nr, nc)]: fresh zeroed storage of the new shape,
    the common leading block copied over; the status it returns is always
    0. *)
Definition reshape (A : mat_type) (nr nc : Z) : result (mat_type * Z) :=
  let fresh := replicate (Z.to_nat (nr * nc)) STS_zero in
  buf ← copyMat (buffer A) (offset A) (stride A)
                (Z.min (numRows A) nr) (Z.min (numCols A) nc)
                fresh 0 nr;
  Ok (mkMatrix nr nc nr 0 buf, 0).

(** Every entry of the matrix lies in its storage. *)
Definition fits (A : mat_type) : bool :=
  (0 <=? numRows A) && (0 <=? numCols A) && (0 <=? offset A)
  && (numRows A <=? stride A)
  && ((numRows A =? 0) || (numCols A =? 0)
      || (offset A + (numCols A - 1) * stride A + numRows A
          <=? Z.of_nat (length (buffer A)))).

(** Two matrices with the same dimensions, stride and offset, on storage of
    the same length. *)
Definition same_shape (A B : mat_type) : Prop :=
  numRows A = numRows B /\ numCols A = numCols B /\ stride A = stride B
  /\ offset A = offset B /\ length (buffer A) = length (buffer B).
End DenseMatrix.

(** ** BLAS and LAPACK routines *)

(** The LAPACK drivers the solver calls, on the storage they are handed.
    [LARTG f g] gives [(c, s, r)].  [LATRS normin n A aoff lda x xoff cnorm]
    stands for [_LATRS ('U', 'N', 'N', NORMIN, N, A, LDA, X, SCALE, CNORM,
    INFO)] and gives the [n] entries written to [X], [SCALE], the [n] entries
    of [CNORM] on exit and [INFO].  [GELSS n nrhs A aoff lda x xoff ldx rcond]
    stands for [_GELSS (N, N, NRHS, A, LDA, B, LDB, S, RCOND, RANK, WORK,
    LWORK, RWORK, INFO)] and gives the storage of [B] on exit, [RANK], the
    first entry of [WORK] and [INFO]. *)
Class LAPACK (Scalar magnitudeType : Type) : Type := {
  LARTG : Scalar -> Scalar -> Scalar * Scalar * Scalar;
  LATRS : bool -> Z -> list Scalar -> Z -> Z -> list Scalar -> Z ->
          list magnitudeType ->
          list Scalar * magnitudeType * list magnitudeType * Z;
  GELSS : Z -> Z -> list Scalar -> Z -> Z -> list Scalar -> Z -> Z ->
          magnitudeType -> Z -> list Scalar * Z * Scalar * Z
}.

Section Routines.
Context {Scalar magnitudeType : Type}.
Context {STS : ScalarTraits Scalar magnitudeType}.
Context {blas : BLAS Scalar}.

(** Modelled from the spec: [Teuchos::BLAS::ROT] is not among the sources.
    This is the application of a plane rotation of section 4.3:
    [blas.ROT (n, dx, incx, dy, incy, &c, &s)], both vectors lying in the
    storage [buf], at the positions [dx] and [dy]. *)
Definition ROT (n : Z) (buf : list Scalar) (dx incx dy incy : Z)
    (c s : Scalar) : result (list Scalar) :=
  for_range 0 n (fun i buf =>
    xi ← load buf (dx + i * incx);
    yi ← load buf (dy + i * incy);
    let '(xi', yi') := rot c s xi yi in
    buf ← store buf (dy + i * incy) yi';
    store buf (dx + i * incx) xi') buf.

(** [for (int k = hi - 1; k >= lo; --k) body] *)
Definition for_down {S : Type} (lo hi : Z) (body : Z -> S -> result S)
    (s : S) : result S :=
  for_range 0 (hi - lo) (fun d s => body (hi - 1 - d) s) s.

(** [B := 0] on the [m] by [n] block, what [_TRSM] does for [alpha = 0]. *)
Definition zeroBlock (m n : Z) (B : list Scalar) (boff ldb : Z)
    : result (list Scalar) :=
  for_range 0 n (fun j B =>
    for_range 0 m (fun i B => store B (boff + i + j * ldb) STS_zero) B) B.

(** Modelled from the spec: [Teuchos::BLAS::TRSM] is not among the sources.
    This is the triangular solve of section 4.1, B := alpha * B * inv (A),
    as the reference BLAS computes it for [RIGHT_SIDE], [UPPER_TRI],
    [NO_TRANS], [NON_UNIT_DIAG]: [B] has [m] rows and [n] columns and [A]
    is [n] by [n]. *)
Definition TRSM_right_upper (m n : Z) (alpha : Scalar)
    (A : list Scalar) (aoff lda : Z)
    (B : list Scalar) (boff ldb : Z) : result (list Scalar) :=
  if STS_eqb alpha STS_zero then zeroBlock m n B boff ldb else
  for_range 0 n (fun j B =>
    B ← (if STS_eqb alpha STS_one then Ok B
         else for_range 0 m (fun i B =>
                bij ← load B (boff + i + j * ldb);
                store B (boff + i + j * ldb) (STS_mul alpha bij)) B);
    B ← for_range 0 j (fun k B =>
           akj ← load A (aoff + k + j * lda);
           if STS_eqb akj STS_zero then Ok B
           else for_range 0 m (fun i B =>
                  bij ← load B (boff + i + j * ldb);
                  bik ← load B (boff + i + k * ldb);
                  store B (boff + i + j * ldb)
                        (STS_sub bij (STS_mul akj bik))) B) B;
    ajj ← load A (aoff + j + j * lda);
    let temp := STS_div STS_one ajj in
    for_range 0 m (fun i B =>
      bij ← load B (boff + i + j * ldb);
      store B (boff + i + j * ldb) (STS_mul temp bij)) B) B.

(** Modelled from the spec: the same routine for [LEFT_SIDE], [UPPER_TRI],
    [NO_TRANS], [NON_UNIT_DIAG], B := alpha * inv (A) * B by back
    substitution: [B] has [m] rows and [n] columns and [A] is [m] by
    [m]. *)
Definition TRSM_left_upper (m n : Z) (alpha : Scalar)
    (A : list Scalar) (aoff lda : Z)
    (B : list Scalar) (boff ldb : Z) : result (list Scalar) :=
  if STS_eqb alpha STS_zero then zeroBlock m n B boff ldb else
  for_range 0 n (fun j B =>
    B ← (if STS_eqb alpha STS_one then Ok B
         else for_range 0 m (fun i B =>
                bij ← load B (boff + i + j * ldb);
                store B (boff + i + j * ldb) (STS_mul alpha bij)) B);
    for_down 0 m (fun k B =>
      bkj ← load B (boff + k + j * ldb);
      if STS_eqb bkj STS_zero then Ok B
      else
        akk ← load A (aoff + k + k * lda);
        let bkj := STS_div bkj akk in
        B ← store B (boff + k + j * ldb) bkj;
        for_range 0 k (fun i B =>
          bij ← load B (boff + i + j * ldb);
          aik ← load A (aoff + i + k * lda);
          store B (boff + i + j * ldb)
                (STS_sub bij (STS_mul bkj aik))) B) B) B.

(** The [n] values a LAPACK driver writes to the array at [p]: entries the
    driver does not give are left as they were. *)
Definition writeBack {A : Type} (buf : list A) (p n : Z) (vals : list A)
    : result (list A) :=
  for_range 0 n (fun i buf =>
    match vals !! Z.to_nat i with
    | Some v => store buf (p + i) v
    | None => Ok buf
    end) buf.
End Routines.

(** ** Local dense matrix operations *)

Section LocalDenseMatrixOps.
Context {Scalar magnitudeType : Type}.
Context {STS : ScalarTraits Scalar magnitudeType}.

(** [rightUpperTriSolve (B, R)] *)
Definition rightUpperTriSolve (B R : SerialDenseMatrix Scalar)
    : result (SerialDenseMatrix Scalar) :=
  TEST_FOR_EXCEPTION (negb (numCols B =? numRows R)) invalid_argument;;
  buf ← TRSM_right_upper (numCols R) (numCols B) STS_one
          (buffer R) (offset R) (stride R)
          (buffer B) (offset B) (stride B);
  Ok (with_buffer B buf).
End LocalDenseMatrixOps.

(** ** The projected least-squares problem *)

Record ProjectedLeastSquaresProblem (Scalar : Type) : Type := mkProblem {
  H : SerialDenseMatrix Scalar;
  R : SerialDenseMatrix Scalar;
  y : SerialDenseMatrix Scalar;
  z : SerialDenseMatrix Scalar;
  theCosines : list Scalar;
  theSines : list Scalar
}.

Arguments mkProblem {Scalar} _ _ _ _ _ _.
Arguments H {Scalar} _.
Arguments R {Scalar} _.
Arguments y {Scalar} _.
Arguments z {Scalar} _.
Arguments theCosines {Scalar} _.
Arguments theSines {Scalar} _.

Section Problem.
Context {Scalar magnitudeType : Type}.
Context {STS : ScalarTraits Scalar magnitudeType}.

Local Abbreviation mat_type := (SerialDenseMatrix Scalar).
Local Abbreviation problem_type := (ProjectedLeastSquaresProblem Scalar).

(** The constructor [ProjectedLeastSquaresProblem (maxNumIterations)]. *)
Definition newProblem (maxNumIterations : Z) : problem_type :=
  mkProblem
    (newMatrix (maxNumIterations + 1) maxNumIterations)
    (newMatrix (maxNumIterations + 1) maxNumIterations)
    (newMatrix (maxNumIterations + 1) 1)
    (newMatrix (maxNumIterations + 1) 1)
    (replicate (Z.to_nat (maxNumIterations + 1)) STS_zero)
    (replicate (Z.to_nat (maxNumIterations + 1)) STS_zero).

Definition set_z (problem : problem_type) (z' : mat_type) : problem_type :=
  mkProblem (H problem) (R problem) (y problem) z'
            (theCosines problem) (theSines problem).

(** [reset (beta)] *)
Definition reset (problem : problem_type) (beta : magnitudeType)
    : result problem_type :=
  (* Zero out the right-hand side of the least-squares problem. *)
  z1 ← putScalar (z problem) STS_zero;
  (* Promote the initial residual norm to a scalar. *)
  let initialResidualNorm := STS_promote beta in
  z2 ← setElem z1 0 0 initialResidualNorm;
  Ok (set_z problem z2).

(** The block [reallocateAndReset] repeats for each of [H], [R], [y] and
    [z]: reshape when either dimension is too small, and throw when
    [reshape] reports a non-zero status. *)
Definition reshapeIfTooSmall (A : mat_type) (nr nc : Z) : result mat_type :=
  if (numRows A <? nr) || (numCols A <? nc) then
    '(A', errcode) ← reshape A nr nc;
    TEST_FOR_EXCEPTION (negb (errcode =? 0)) runtime_error;;
    Ok A'
  else Ok A.

(** [reallocateAndReset (beta, maxNumIterations)] *)
Definition reallocateAndReset (problem : problem_type)
    (beta : magnitudeType) (maxNumIterations : Z) : result problem_type :=
  TEST_FOR_EXCEPTION (STM_ltb beta STM_zero) invalid_argument;;
  TEST_FOR_EXCEPTION (maxNumIterations <=? 0) invalid_argument;;
  H1 ← reshapeIfTooSmall (H problem) (maxNumIterations + 1) maxNumIterations;
  H2 ← putScalar H1 STS_zero;
  R1 ← reshapeIfTooSmall (R problem) (maxNumIterations + 1) maxNumIterations;
  R2 ← putScalar R1 STS_zero;
  y1 ← reshapeIfTooSmall (y problem) (maxNumIterations + 1) 1;
  y2 ← putScalar y1 STS_zero;
  z1 ← reshapeIfTooSmall (z problem) (maxNumIterations + 1) 1;
  reset (mkProblem H2 R2 y2 z1 (theCosines problem) (theSines problem)) beta.
End Problem.

(** ** The Givens updater *)

Section Solver.
Context {Scalar magnitudeType : Type}.
Context {STS : ScalarTraits Scalar magnitudeType}.
Context {blas : BLAS Scalar}.
Context {lapack : LAPACK Scalar magnitudeType}.

Local Abbreviation mat_type := (SerialDenseMatrix Scalar).
Local Abbreviation problem_type := (ProjectedLeastSquaresProblem Scalar).

(** [computeGivensRotation (x, y, theCosine, theSine, result)], giving
    [(theCosine, theSine, result)]. *)
Definition computeGivensRotation (x y : Scalar) : Scalar * Scalar * Scalar :=
  let useLartg := false in
  if useLartg : bool then
    LARTG x y
  else
    let x_temp := x in
    let y_temp := y in
    let '(x_temp, y_temp, theCosine, theSine) := ROTG x_temp y_temp in
    (theCosine, theSine, x_temp).

(** Steps 1 and 2 of [updateColumnGivens]: column [curCol] of [H] is copied
    into [R], and the rotations [0 .. curCol-1] are applied to it in
    increasing order.  The result is the view [R_col], whose storage is the
    storage of [R]. *)
Definition rotatedColumn (H R : mat_type) (theCosines theSines : list Scalar)
    (curCol : Z) : result mat_type :=
  let numRows := curCol + 2 in
  let LDR := stride R in
  let H_col := View H numRows 1 0 curCol in
  let R_col := View R numRows 1 0 curCol in
  R_col ← assign R_col H_col;
  for_range 0 curCol (fun j R_col =>
    theCosine ← load theCosines j;
    theSine ← load theSines j;
    px ← addr R_col j 0;
    py ← addr R_col (j + 1) 0;
    buf ← ROT 1 (buffer R_col) px LDR py LDR theCosine theSine;
    Ok (with_buffer R_col buf)) R_col.

(** [updateColumnGivens (H, R, y, z, theCosines, theSines, curCol)]: the
    new values of the five arguments passed by reference and the value
    returned. *)
Definition updateColumnGivens (H R y z : mat_type)
    (theCosines theSines : list Scalar) (curCol : Z)
    : result (mat_type * mat_type * mat_type * list Scalar * list Scalar
              * magnitudeType) :=
  let numRows := curCol + 2 in
  R_col ← rotatedColumn H R theCosines theSines curCol;
  (* 3. the new rotation *)
  x0 ← elem R_col curCol 0;
  x1 ← elem R_col (curCol + 1) 0;
  let '(theCosine, theSine, result) := computeGivensRotation x0 x1 in
  theCosines ← store theCosines curCol theCosine;
  theSines ← store theSines curCol theSine;
  (* 4. its effect on the column: [result; 0] *)
  R_col ← setElem R_col curCol 0 result;
  R_col ← setElem R_col (curCol + 1) 0 STS_zero;
  (* 5. the rotation applied to every column of z *)
  let LDZ := stride z in
  px ← addr z curCol 0;
  py ← addr z (curCol + 1) 0;
  zbuf ← ROT (numCols z) (buffer z) px LDZ py LDZ theCosine theSine;
  let z := with_buffer z zbuf in
  last ← elem z (numRows - 1) 0;
  Ok (with_buffer R (buffer R_col), y, z, theCosines, theSines,
      STS_magnitude last).

(** [updateColumnsGivens (H, R, y, z, theCosines, theSines, startCol,
    endCol)] *)
Definition updateColumnsGivens (H R y z : mat_type)
    (theCosines theSines : list Scalar) (startCol endCol : Z)
    : result (mat_type * mat_type * mat_type * list Scalar * list Scalar
              * magnitudeType) :=
  TEST_FOR_EXCEPTION (endCol <? startCol) invalid_argument;;
  let lastResult := STM_zero in
  for_range startCol (endCol + 1)
    (fun curCol '(R, y, z, theCosines, theSines, lastResult) =>
       updateColumnGivens H R y z theCosines theSines curCol)
    (R, y, z, theCosines, theSines, lastResult).

(** The arguments passed by reference, stored back into the problem. *)
Definition updated (problem : problem_type)
    (out : mat_type * mat_type * mat_type * list Scalar * list Scalar
           * magnitudeType) : problem_type * magnitudeType :=
  let '(R', y', z', theCosines', theSines', norm) := out in
  (mkProblem (H problem) R' y' z' theCosines' theSines', norm).

(** [updateColumn (problem, curCol)] *)
Definition updateColumn (problem : problem_type) (curCol : Z)
    : result (problem_type * magnitudeType) :=
  out ← updateColumnGivens (H problem) (R problem) (y problem) (z problem)
          (theCosines problem) (theSines problem) curCol;
  Ok (updated problem out).

(** [updateColumns (problem, startCol, endCol)] *)
Definition updateColumns (problem : problem_type) (startCol endCol : Z)
    : result (problem_type * magnitudeType) :=
  out ← updateColumnsGivens (H problem) (R problem) (y problem) (z problem)
          (theCosines problem) (theSines problem) startCol endCol;
  Ok (updated problem out).

(** The reading of the panel update the specification gives:
    [updateColumn] called once for each of the columns [k], [k+1], ...,
    [k + more], in this order, each on the problem the call before left;
    the value is the one the last call returns. *)
Fixpoint updateColumnEach (problem : problem_type) (k : Z) (more : nat)
    : result (problem_type * magnitudeType) :=
  '(problem', norm) ← updateColumn problem k;
  match more with
  | O => Ok (problem', norm)
  | S more' => updateColumnEach problem' (k + 1) more'
  end.

(** What a call of [updateColumn (problem, curCol)] needs in order to stay
    inside the matrices and arrays: the column and the rows [0 .. curCol+1]
    exist in [H], [R] and [z], and the rotation arrays have an entry
    [curCol]. *)
Definition validColumn (problem : problem_type) (curCol : Z) : bool :=
  (0 <=? curCol)
  && fits (H problem) && fits (R problem) && fits (z problem)
  && (curCol + 2 <=? numRows (H problem))
  && (curCol + 1 <=? numCols (H problem))
  && (curCol + 2 <=? numRows (R problem))
  && (curCol + 1 <=? numCols (R problem))
  && (curCol + 2 <=? numRows (z problem))
  && (1 <=? numCols (z problem))
  && (curCol <? Z.of_nat (length (theCosines problem)))
  && (curCol <? Z.of_nat (length (theSines problem))).
(** ** The triangular solver *)

(** One pass of the loop over the columns of [x] under robustness 1: the
    [_LATRS] call on column [j], the test of [INFO], and the update of
    [NORMIN] and [foundRankDeficiency].  The state is the storage of [x],
    [scaleFactor], [cnorm], [NORMIN] (true for ['Y']) and
    [foundRankDeficiency]. *)
Definition latrsColumn (x R : mat_type) (N : Z) (j : Z)
    (st : list Scalar * magnitudeType * list magnitudeType * bool * bool)
    : result (list Scalar * magnitudeType * list magnitudeType * bool * bool) :=
  let '(xbuf, scaleFactor, cnorm, NORMIN, foundRankDeficiency) := st in
  let LDR := stride R in
  px ← addr (with_buffer x xbuf) 0 j;
  _ ← load cnorm 0;
  let '(xs, scaleFactor, cn, info) :=
    LATRS NORMIN N (buffer R) (offset R) LDR xbuf px cnorm in
  xbuf ← writeBack xbuf px N xs;
  cnorm ← writeBack cnorm 0 N cn;
  TEST_FOR_EXCEPTION (negb (info =? 0)) logic_error;;
  let NORMIN := true in
  let foundRankDeficiency :=
    if STM_eqb scaleFactor STM_zero then true else foundRankDeficiency in
  Ok (xbuf, scaleFactor, cnorm, NORMIN, foundRankDeficiency).

(** The loop that counts the rank down under robustness 1. *)
Definition countRank (R : mat_type) (cnorm : list magnitudeType) (N : Z)
    : result Z :=
  let rank := N in
  for_range 0 N (fun j rank =>
    rjj ← elem R j j;
    if STS_eqb rjj STS_zero then
      if j =? 0 then Ok (rank - 1)
      else
        cj ← load cnorm j;
        if STM_eqb cj STM_zero then Ok (rank - 1) else Ok rank
    else Ok rank) rank.

(** [solveUpperTriangularSystem (x, R, b, robustness)]: the new [x] and the
    pair [(detectedRank, foundRankDeficiency)]. *)
Definition solveUpperTriangularSystem (x R b : mat_type) (robustness : Z)
    : result (mat_type * (Z * bool)) :=
  let M := numRows R in
  let N := numCols R in
  let LDR := stride R in
  let NRHS := numCols x in
  let LDX := stride x in
  TEST_FOR_EXCEPTION (numCols b <? NRHS) invalid_argument;;
  TEST_FOR_EXCEPTION (numRows b <? N) invalid_argument;;
  TEST_FOR_EXCEPTION (numRows x <? N) invalid_argument;;
  TEST_FOR_EXCEPTION (M <? N) invalid_argument;;
  TEST_FOR_EXCEPTION (M <? N) invalid_argument;;
  TEST_FOR_EXCEPTION ((robustness <? 0) || (2 <? robustness))
                     invalid_argument;;
  let detectedRank := N in
  let foundRankDeficiency := false in
  x ← (if numCols x =? numCols b then assign x b
       else
         let b_view := View b (numRows b) NRHS 0 0 in
         assign x b_view);
  if robustness =? 0 then
    buf ← TRSM_left_upper N NRHS STS_one (buffer R) (offset R) LDR
            (buffer x) (offset x) LDX;
    Ok (with_buffer x buf, (detectedRank, foundRankDeficiency))
  else if robustness =? 1 then
    let cnorm := replicate (Z.to_nat N) STM_zero in
    let scaleFactor := STM_one in
    let NORMIN := false in
    '(xbuf, scaleFactor, cnorm, NORMIN, foundRankDeficiency) ←
      for_range 0 (numCols x) (latrsColumn x R N)
        (buffer x, scaleFactor, cnorm, NORMIN, foundRankDeficiency);
    rank ← countRank R cnorm N;
    let foundRankDeficiency :=
      if rank <? N then true else foundRankDeficiency in
    let detectedRank := rank in
    Ok (with_buffer x xbuf, (detectedRank, foundRankDeficiency))
  else if robustness =? 2 then
    (* [mat_type R_copy (Teuchos::Copy, R, N, N)] *)
    R_copy ← assign (newMatrix N N) (View R N N 0 0);
    let rank := N in
    let rankTolerance := STS_eps in
    (* workspace query *)
    let '(xbuf, rank, lworkScalar, info) :=
      GELSS N NRHS (buffer R_copy) (offset R_copy) LDR
            (buffer x) (offset x) LDX rankTolerance (-1) in
    TEST_FOR_EXCEPTION (negb (info =? 0)) logic_error;;
    let lwork := STS_real_to_int lworkScalar in
    TEST_FOR_EXCEPTION (lwork <? 0) logic_error;;
    (* the solve, called with the same arguments as the query *)
    let '(xbuf, rank, lworkScalar, info) :=
      GELSS N NRHS (buffer R_copy) (offset R_copy) LDR
            xbuf (offset x) LDX rankTolerance (-1) in
    TEST_FOR_EXCEPTION (negb (info =? 0)) runtime_error;;
    let foundRankDeficiency :=
      if rank <? N then true else foundRankDeficiency in
    let detectedRank := rank in
    Ok (with_buffer x xbuf, (detectedRank, foundRankDeficiency))
  else
    Throw logic_error.

(** [solveGivens (y, R, z, curCol)]: the new [y]. *)
Definition solveGivens (y R z : mat_type) (curCol : Z) : result mat_type :=
  let numRows := curCol + 2 in
  let R_view := View R (numRows - 1) (numRows - 1) 0 0 in
  let z_view := View z (numRows - 1) (numCols z) 0 0 in
  let y_view := View y (numRows - 1) (numCols y) 0 0 in
  '(y_view, _) ← solveUpperTriangularSystem y_view R_view z_view 0;
  Ok (with_buffer y (buffer y_view)).

(** [solve (problem, curCol)] *)
Definition solve (problem : problem_type) (curCol : Z)
    : result problem_type :=
  y' ← solveGivens (y problem) (R problem) (z problem) curCol;
  Ok (mkProblem (H problem) (R problem) y' (z problem)
                (theCosines problem) (theSines problem)).

(** The scale factors of the successive [_LATRS] calls of robustness 1, in
    the order of the columns [j .. j + n - 1] of [x], and [cnorm] after the
    last call. *)
Fixpoint latrsTrace (x R : mat_type) (N : Z) (n : nat) (j : Z)
    (st : list Scalar * magnitudeType * list magnitudeType * bool * bool)
    : result (list magnitudeType * list magnitudeType) :=
  match n with
  | O => Ok ([], snd (fst (fst st)))
  | S n' =>
      st' ← latrsColumn x R N j st;
      '(scales, cnorm) ← latrsTrace x R N n' (j + 1) st';
      Ok (snd (fst (fst (fst st'))) :: scales, cnorm)
  end.

(** Column [j] is counted as deficient: [R(j,j)] is zero and, unless [j] is
    the first column, the norm [cnorm[j]] is zero. *)
Definition deficientColumn (R : mat_type) (cnorm : list magnitudeType)
    (j : Z) : bool :=
  match elem R j j with
  | Ok rjj =>
      STS_eqb rjj STS_zero
      && ((j =? 0)
          || match load cnorm j with
             | Ok cj => STM_eqb cj STM_zero
             | Throw _ => false
             end)
  | Throw _ => false
  end.

(** ** The verdict of the self-test *)

(** The product of two [int]s, wrapped to 32 bits. *)
Definition int_mul (a b : Z) : Z :=
  (a * b + 2 ^ 31) mod 2 ^ 32 - 2 ^ 31.

(** [solutionErrorBound] of [testUpdateColumn]. *)
Definition solutionErrorBound (numCols : Z)
    (leastSquaresCondNum : magnitudeType) : magnitudeType :=
  let numRows := numCols + 1 in
  let wiggleFactor :=
    STM_mul (STM_of_int 10)
            (STM_squareroot (STM_of_int (int_mul numRows numCols))) in
  let solutionErrorBoundFactor := STM_mul wiggleFactor leastSquaresCondNum in
  STM_mul solutionErrorBoundFactor STS_eps.

(** The end of [testUpdateColumn], from the computation of the bound to the
    value returned, as a function of what the test has measured before:
    the condition number, the solution error of the column-wise update and
    the solution error [blockError] of the panel update, which is computed
    only when [testBlockGivens] is set. *)
Definition testUpdateColumn_verdict (numCols : Z) (testBlockGivens : bool)
    (leastSquaresCondNum givensSolutionError blockError : magnitudeType)
    : bool :=
  let blockGivensSolutionError :=
    if testBlockGivens then blockError else STM_zero in
  let solutionErrorBound := solutionErrorBound numCols leastSquaresCondNum in
  if STM_isnaninf solutionErrorBound then false
  else
    if STM_isnaninf givensSolutionError then false
    else if STM_ltb solutionErrorBound givensSolutionError then false
    else if testBlockGivens then
      if STM_isnaninf blockGivensSolutionError then false
      else if STM_ltb solutionErrorBound blockGivensSolutionError then false
      else true
    else true.
(** Two problems with the same [H] and [y], whose [R] and [z] have the
    same shape and whose rotation arrays have the same lengths. *)
Definition same_layout (problem' problem : problem_type) : Prop :=
  H problem' = H problem /\ y problem' = y problem
  /\ same_shape (R problem') (R problem)
  /\ same_shape (z problem') (z problem)
  /\ length (theCosines problem') = length (theCosines problem)
  /\ length (theSines problem') = length (theSines problem).

(** [before] is the problem on which the update of the last column
    [endCol] of the panel works: the problem itself for a panel of one
    column, and the problem the panel [startCol .. endCol - 1] leaves
    otherwise. *)
Definition beforeLastColumn (problem : problem_type) (startCol endCol : Z)
    (before : problem_type) : Prop :=
  (startCol = endCol /\ before = problem)
  \/ (startCol < endCol
      /\ exists norm,
           updateColumns problem startCol (endCol - 1) = Ok (before, norm)).
(** What [solve (problem, curCol)] needs in order to stay inside the
    matrices: the leading [curCol+1] rows of [y], [R] and [z] and the
    leading [curCol+1] columns of [R] exist, and [z] has a column for each
    column of [y]. *)
Definition validSolve (problem : problem_type) (curCol : Z) : bool :=
  (0 <=? curCol)
  && fits (y problem) && fits (R problem) && fits (z problem)
  && (curCol + 1 <=? numRows (y problem))
  && (curCol + 1 <=? numRows (R problem))
  && (curCol + 1 <=? numCols (R problem))
  && (curCol + 1 <=? numRows (z problem))
  && (numCols (y problem) <=? numCols (z problem)).
End Solver.

(** ** An exact instance *)

(** The rationals as [Scalar] and as its magnitude type, every value kept in
    lowest terms.  No rational is NaN or infinite; the square root is rounded
    down to a multiple of the denominator's inverse. *)
#[global] Instance Q_traits : ScalarTraits Q Q := {|
  STS_zero := 0%Q;
  STS_one := 1%Q;
  STS_magnitude := fun x => Qred (Qabs x);
  STS_eps := (1 # 4503599627370496)%Q;
  STS_eqb := Qeq_bool;
  STS_sub := fun a b => Qred (a - b);
  STS_mul := fun a b => Qred (a * b);
  STS_div := fun a b => Qred (a / b);
  STS_promote := fun m => m;
  STS_real_to_int := fun x => Z.quot (Qnum x) (Z.pos (Qden x));
  STM_zero := 0%Q;
  STM_one := 1%Q;
  STM_squareroot := fun x => Qred (Z.sqrt (Qnum x * Z.pos (Qden x)) # Qden x);
  STM_isnaninf := fun _ => false;
  STM_eqb := Qeq_bool;
  STM_ltb := fun a b => negb (Qle_bool b a);
  STM_leb := Qle_bool;
  STM_mul := fun a b => Qred (a * b);
  STM_of_int := inject_Z
|}.

(** An unnormalised rotation: [(a, b)] is sent to [(a*a + b*b, 0)] by the
    rotation with [c = a] and [s = b]. *)
#[global] Instance Q_blas : BLAS Q := {|
  ROTG := fun a b => (Qred (a * a + b * b), 0%Q, a, b);
  rot := fun c s x y => (Qred (c * x + s * y), Qred (c * y - s * x))
|}.

Definition Q_at (A : list Q) (p : Z) : Q := nth (Z.to_nat p) A 0%Q.

(** The 1-norms of the parts of the columns above the diagonal. *)
Definition Q_cnorm (n : Z) (A : list Q) (aoff lda : Z) : list Q :=
  map (fun j =>
         fold_left (fun acc i => Qred (acc + Qabs (Q_at A (aoff + i + j * lda))))
                   (seqZ 0 j) 0%Q)
      (seqZ 0 n).

(** Back substitution without scaling on the [n] entries at [xoff]. *)
Definition Q_backsolve (n : Z) (A : list Q) (aoff lda : Z) (x : list Q)
    (xoff : Z) : list Q :=
  fold_left
    (fun xs k =>
       let s :=
         fold_left (fun acc i =>
                      Qred (acc - Q_at A (aoff + k + i * lda) * Q_at xs i))
                   (seqZ (k + 1) (n - k - 1)) (Q_at xs k) in
       <[Z.to_nat k := Qred (s / Q_at A (aoff + k + k * lda))]> xs)
    (rev (seqZ 0 n))
    (take (Z.to_nat n) (drop (Z.to_nat xoff) x)).

Definition Q_singular (n : Z) (A : list Q) (aoff lda : Z) : bool :=
  existsb (fun j => Qeq_bool (Q_at A (aoff + j + j * lda)) 0) (seqZ 0 n).

(** Stand-ins for the LAPACK drivers on the rationals.  [LATRS] never needs to
    scale: it reports the scale factor 0 and leaves [x] alone on a zero
    diagonal entry, and solves with scale factor 1 otherwise.  [GELSS] leaves
    the right-hand side alone and reports full rank. *)
#[global] Instance Q_lapack : LAPACK Q Q := {|
  LARTG := fun f g => (f, g, Qred (f * f + g * g));
  LATRS := fun normin n A aoff lda x xoff cnorm =>
    let cn := if normin : bool then cnorm else Q_cnorm n A aoff lda in
    if Q_singular n A aoff lda then ([], 0%Q, cn, 0)
    else (Q_backsolve n A aoff lda x xoff, 1%Q, cn, 0);
  GELSS := fun n nrhs A aoff lda x xoff ldx rcond lwork => (x, n, 1%Q, 0)
|}.

(** The problem of the concrete scenario of the specification: the 3 by 2
    upper Hessenberg matrix with the rows (2 1), (1 3), (0 1) and the
    right-hand side (5 0 0). *)
Definition exampleProblem : ProjectedLeastSquaresProblem Q :=
  mkProblem
    (mkMatrix 3 2 3 0 [2; 1; 0; 1; 3; 1]%Q)
    (newMatrix 3 2)
    (newMatrix 3 1)
    (mkMatrix 3 1 3 0 [5; 0; 0]%Q)
    [0; 0; 0]%Q
    [0; 0; 0]%Q.

(** The example problem after [updateColumns (exampleProblem, 0, 1)]. *)
Definition exampleUpdated : ProjectedLeastSquaresProblem Q :=
  mkProblem
    (mkMatrix 3 2 3 0 [2; 1; 0; 1; 3; 1]%Q)
    (mkMatrix 3 2 3 0 [5; 0; 0; 5; 26; 0]%Q)
    (newMatrix 3 1)
    (mkMatrix 3 1 3 0 [10; -25; 5]%Q)
    [2; 5; 0]%Q
    [1; 1; 0]%Q.

(** [X * R = B] on every row of [B], for [R] with as many rows as columns:
    [X] is the quotient [B / R]. *)
Definition Q_entry (A : SerialDenseMatrix Q) (i j : Z) : Q :=
  Q_at (buffer A) (offset A + i + j * stride A).

Definition Q_isRightQuotient (X R B : SerialDenseMatrix Q) : bool :=
  forallb (fun i =>
    forallb (fun j =>
      Qeq_bool
        (fold_left (fun acc k => (acc + Q_entry X i k * Q_entry R k j)%Q)
                   (seqZ 0 (numCols R)) 0%Q)
        (Q_entry B i j))
      (seqZ 0 (numCols B)))
    (seqZ 0 (numRows B)).

(** A 3 by 2 matrix [B] and a 2 by 2 upper triangular [R], with
    [B = X * R] for [X] with the rows (1 2), (3 4), (5 6); this is the shape
    of the first call in [caGmresUpdateUpperHessenbergImpl], where [B] has
    one row more than [R]. *)
Definition exampleB : SerialDenseMatrix Q :=
  mkMatrix 3 2 3 0 [2; 6; 10; 5; 11; 17]%Q.

Definition exampleR : SerialDenseMatrix Q :=
  mkMatrix 2 2 2 0 [2; 0; 1; 2]%Q.

(** A singular 2 by 2 triangular factor and a right-hand side. *)
Definition singularR : SerialDenseMatrix Q :=
  mkMatrix 2 2 2 0 [0; 0; 0; 0]%Q.

Definition onesRhs : SerialDenseMatrix Q :=
  mkMatrix 2 1 2 0 [1; 1]%Q.

(** A 2 by 2 triangular factor with the rows (1 1), (0 0): the second
    diagonal entry is zero, the part of the second column above it is not. *)
Definition deficientR : SerialDenseMatrix Q :=
  mkMatrix 2 2 2 0 [1; 0; 1; 0]%Q.

(** * The remaining routines *)

(** ** More operations on scalars *)

(** The operations on scalars that the routines below use and the Givens
    updater does not: [a + b] and [- a] on [Scalar], and [- a] on its
    magnitude type. *)
Class ScalarArith (Scalar magnitudeType : Type) : Type := {
  STS_add : Scalar -> Scalar -> Scalar;
  STS_neg : Scalar -> Scalar;
  STM_neg : magnitudeType -> magnitudeType
}.

(** The pseudorandom numbers of [Teuchos::ScalarTraits]: [STS::random ()]
    and [STM::random ()] draw from one generator, whose state is [rng]. *)
Class RandomSource (Scalar magnitudeType rng : Type) : Type := {
  STS_random : rng -> Scalar * rng;
  STM_random : rng -> magnitudeType * rng
}.

(** An input matrix of a BLAS routine: a matrix on storage of its own, or a
    view of the storage the routine writes.  The second is read from that
    storage as the routine goes, whatever its own [buffer] field holds. *)
Inductive operand (Scalar : Type) : Type :=
  | Own (A : SerialDenseMatrix Scalar)
  | Alias (A : SerialDenseMatrix Scalar).

Arguments Own {Scalar} A.
Arguments Alias {Scalar} A.

Definition operand_matrix {Scalar : Type} (X : operand Scalar)
    : SerialDenseMatrix Scalar :=
  match X with
  | Own A => A
  | Alias A => A
  end.

Definition operand_load {Scalar : Type} (X : operand Scalar)
    (C : list Scalar) (p : Z) : result Scalar :=
  match X with
  | Own A => load (buffer A) p
  | Alias _ => load C p
  end.

(** ** The matrix product *)

Section Product.
Context {Scalar magnitudeType : Type}.
Context {STS : ScalarTraits Scalar magnitudeType}.
Context {arith : ScalarArith Scalar magnitudeType}.
Context {blas : BLAS Scalar}.

(** Modelled from the spec: [Teuchos::BLAS::GEMM] is not among the sources.
    This is the product of section 4.1, C := beta * C + alpha * A * B, as the
    reference BLAS computes it for [NO_TRANS], [NO_TRANS]: [C] is [m] by
    [n], [A] is [m] by [k] and [B] is [k] by [n]. *)
Definition GEMM (m n k : Z) (alpha : Scalar)
    (A : operand Scalar) (aoff lda : Z)
    (B : operand Scalar) (boff ldb : Z)
    (beta : Scalar) (C : list Scalar) (coff ldc : Z)
    : result (list Scalar) :=
  if (m =? 0) || (n =? 0)
     || ((STS_eqb alpha STS_zero || (k =? 0)) && STS_eqb beta STS_one)
  then Ok C
  else if STS_eqb alpha STS_zero then
    if STS_eqb beta STS_zero then zeroBlock m n C coff ldc
    else
      for_range 0 n (fun j C =>
        for_range 0 m (fun i C =>
          cij ← load C (coff + i + j * ldc);
          store C (coff + i + j * ldc) (STS_mul cij beta)) C) C
  else
    for_range 0 n (fun j C =>
      C ← (if STS_eqb beta STS_zero then
             for_range 0 m (fun i C =>
               store C (coff + i + j * ldc) STS_zero) C
           else if STS_eqb beta STS_one then Ok C
           else
             for_range 0 m (fun i C =>
               cij ← load C (coff + i + j * ldc);
               store C (coff + i + j * ldc) (STS_mul cij beta)) C);
      for_range 0 k (fun l C =>
        blj ← operand_load B C (boff + l + j * ldb);
        let temp := STS_mul alpha blj in
        for_range 0 m (fun i C =>
          cij ← load C (coff + i + j * ldc);
          ail ← operand_load A C (aoff + i + l * lda);
          store C (coff + i + j * ldc)
                (STS_add cij (STS_mul temp ail))) C) C) C.
End Product.

(** ** Local dense matrix operations, continued *)

Section MoreLocalDenseMatrixOps.
Context {Scalar magnitudeType : Type}.
Context {STS : ScalarTraits Scalar magnitudeType}.
Context {arith : ScalarArith Scalar magnitudeType}.
Context {blas : BLAS Scalar}.

Local Abbreviation mat_type := (SerialDenseMatrix Scalar).

(** [matScale (A, alpha)] *)
Definition matScale (A : mat_type) (alpha : Scalar) : result mat_type :=
  if (numRows A =? 0) || (numCols A =? 0) then Ok A
  else
    buf ← for_range 0 (numCols A) (fun j buf =>
             A_j ← addr A 0 j;
             for_range 0 (numRows A) (fun i buf =>
               aij ← load buf (A_j + i);
               store buf (A_j + i) (STS_mul aij alpha)) buf)
           (buffer A);
    Ok (with_buffer A buf).

(** [matAdd (A, B)]; [B] is a different object on different storage. *)
Definition matAdd (A B : mat_type) : result mat_type :=
  TEST_FOR_EXCEPTION (negb (numRows B =? numRows A)
                      || negb (numCols B =? numCols A))
                     invalid_argument;;
  if (numRows A =? 0) || (numCols A =? 0) then Ok A
  else
    buf ← for_range 0 (numCols A) (fun j buf =>
             A_j ← addr A 0 j;
             B_j ← addr B 0 j;
             for_range 0 (numRows A) (fun i buf =>
               aij ← load buf (A_j + i);
               bij ← load (buffer B) (B_j + i);
               store buf (A_j + i) (STS_add aij bij)) buf)
           (buffer A);
    Ok (with_buffer A buf).

(** [matSub (A, B)]; [B] is a different object on different storage. *)
Definition matSub (A B : mat_type) : result mat_type :=
  TEST_FOR_EXCEPTION (negb (numRows B =? numRows A)
                      || negb (numCols B =? numCols A))
                     invalid_argument;;
  if (numRows A =? 0) || (numCols A =? 0) then Ok A
  else
    buf ← for_range 0 (numCols A) (fun j buf =>
             A_j ← addr A 0 j;
             B_j ← addr B 0 j;
             for_range 0 (numRows A) (fun i buf =>
               aij ← load buf (A_j + i);
               bij ← load (buffer B) (B_j + i);
               store buf (A_j + i) (STS_sub aij bij)) buf)
           (buffer A);
    Ok (with_buffer A buf).

(** [matMatMult (beta, C, alpha, A, B)].  The source takes [A] and [B] by
    reference and makes no effort to check for aliasing; here each of them
    says whether it is a view of the storage of [C]. *)
Definition matMatMult (beta : Scalar) (C : mat_type) (alpha : Scalar)
    (A B : operand Scalar) : result mat_type :=
  let Am := operand_matrix A in
  let Bm := operand_matrix B in
  TEST_FOR_EXCEPTION (negb (numCols Am =? numRows Bm)) invalid_argument;;
  TEST_FOR_EXCEPTION (negb (numRows Am =? numRows C)) invalid_argument;;
  TEST_FOR_EXCEPTION (negb (numCols Bm =? numCols C)) invalid_argument;;
  buf ← GEMM (numRows C) (numCols C) (numCols Am) alpha
          A (offset Am) (stride Am) B (offset Bm) (stride Bm)
          beta (buffer C) (offset C) (stride C);
  Ok (with_buffer C buf).

(** Modelled from the spec: the constructor [SerialDenseMatrix
    (Teuchos::Copy, A, nr, nc, startRow, startCol)] of the missing class;
    the block of [A] that starts at [(startRow, startCol)], on fresh
    storage. *)
Definition Copy (A : mat_type) (nr nc startRow startCol : Z)
    : result mat_type :=
  assign (newMatrix nr nc) (View A nr nc startRow startCol).
End MoreLocalDenseMatrixOps.

(** ** The change-of-basis Hessenberg updater *)

Section ChangeOfBasis.
Context {Scalar magnitudeType : Type}.
Context {STS : ScalarTraits Scalar magnitudeType}.
Context {arith : ScalarArith Scalar magnitudeType}.
Context {blas : BLAS Scalar}.

Local Abbreviation mat_type := (SerialDenseMatrix Scalar).
Local Abbreviation problem_type := (ProjectedLeastSquaresProblem Scalar).

Definition set_H (problem : problem_type) (H' : mat_type) : problem_type :=
  mkProblem H' (R problem) (y problem) (z problem)
            (theCosines problem) (theSines problem).

(** [caGmresUpdateUpperHessenbergImpl (H, R, B, startCol, endCol)]: the
    new [H].  A view of [H] that is written is stored back into [H] before
    [H] is looked at again.  In the first product of the second branch the
    input [H_km1] and the output [H_km1k] are views of the same storage. *)
Definition caGmresUpdateUpperHessenbergImpl (H R B : mat_type)
    (startCol endCol : Z) : result mat_type :=
  TEST_FOR_EXCEPTION (startCol <? 0) invalid_argument;;
  TEST_FOR_EXCEPTION (endCol <? startCol) invalid_argument;;
  if startCol =? 0 then
    let numCols := endCol - startCol + 1 in
    let R_underline := View R (numCols + 1) (numCols + 1) 0 0 in
    let B_view := View B (numCols + 1) numCols 0 0 in
    let R_view := View R numCols numCols 0 0 in
    let H_view := View H (numCols + 1) numCols 0 0 in
    (* H_view := R_underline * B_view *)
    H_view ← matMatMult STS_zero H_view STS_one
               (Own R_underline) (Own B_view);
    (* H_view := H_view / R_view *)
    H_view ← rightUpperTriSolve H_view R_view;
    Ok (with_buffer H (buffer H_view))
  else
    let M := startCol + 1 in
    let S := endCol - startCol + 1 in
    let R_km1k_underline := View R M (S + 1) 0 (startCol - 1) in
    let R_km1k := View R M S 0 (startCol - 1) in
    let R_k_underline := View R (S + 1) (S + 1) M (startCol - 1) in
    let R_k := View R S S M (startCol - 1) in
    let B_k_underline := View B (S + 1) S 0 0 in
    let H_km1 := View H M M 0 0 in
    let H_km1k := View H M S 0 startCol in
    let temp := newMatrix M S in
    temp ← assign temp R_km1k;
    temp ← rightUpperTriSolve temp R_k;
    lastRow ← Copy temp 1 S (M - 1) 0;
    (* H_km1k := -H_km1 * (R_km1k / R_k) *)
    H_km1k ← matMatMult STS_zero H_km1k (STS_neg STS_one)
               (Alias H_km1) (Own temp);
    (* temp := R_km1k_underline * B_k_underline *)
    temp ← matMatMult STS_zero temp STS_one
             (Own R_km1k_underline) (Own B_k_underline);
    temp ← rightUpperTriSolve temp R_k;
    H_km1k ← matAdd H_km1k temp;
    let H := with_buffer H (buffer H_km1k) in
    let H_k_underline := View H (S + 1) S M startCol in
    H_k_underline ← matMatMult STS_zero H_k_underline STS_one
                      (Own R_k_underline) (Own B_k_underline);
    H_k_underline ← rightUpperTriSolve H_k_underline R_k;
    let H := with_buffer H (buffer H_k_underline) in
    h ← elem H (M + 1) M;
    lastRow ← matScale lastRow h;
    let H_k_view := View H_k_underline 1 (S + 1) 0 0 in
    H_k_view ← matSub H_k_view lastRow;
    Ok (with_buffer H (buffer H_k_view)).

(** The second branch of [caGmresUpdateUpperHessenbergImpl] up to its last
    statement: [H] as it stands there, [H_k_underline] and the scaled
    [lastRow], of which the last [matSub] takes a view and the whole. *)
Definition caGmresLaterPanel (H R B : mat_type) (startCol endCol : Z)
    : result (mat_type * mat_type * mat_type) :=
  let M := startCol + 1 in
  let S := endCol - startCol + 1 in
  let R_km1k_underline := View R M (S + 1) 0 (startCol - 1) in
  let R_km1k := View R M S 0 (startCol - 1) in
  let R_k_underline := View R (S + 1) (S + 1) M (startCol - 1) in
  let R_k := View R S S M (startCol - 1) in
  let B_k_underline := View B (S + 1) S 0 0 in
  let H_km1 := View H M M 0 0 in
  let H_km1k := View H M S 0 startCol in
  let temp := newMatrix M S in
  temp ← assign temp R_km1k;
  temp ← rightUpperTriSolve temp R_k;
  lastRow ← Copy temp 1 S (M - 1) 0;
  H_km1k ← matMatMult STS_zero H_km1k (STS_neg STS_one)
             (Alias H_km1) (Own temp);
  temp ← matMatMult STS_zero temp STS_one
           (Own R_km1k_underline) (Own B_k_underline);
  temp ← rightUpperTriSolve temp R_k;
  H_km1k ← matAdd H_km1k temp;
  let H := with_buffer H (buffer H_km1k) in
  let H_k_underline := View H (S + 1) S M startCol in
  H_k_underline ← matMatMult STS_zero H_k_underline STS_one
                    (Own R_k_underline) (Own B_k_underline);
  H_k_underline ← rightUpperTriSolve H_k_underline R_k;
  let H := with_buffer H (buffer H_k_underline) in
  h ← elem H (M + 1) M;
  lastRow ← matScale lastRow h;
  Ok (H, H_k_underline, lastRow).

(** [caGmresUpdateUpperHessenberg (problem, R, B, startCol, endCol)] *)
Definition caGmresUpdateUpperHessenberg (problem : problem_type)
    (R B : mat_type) (startCol endCol : Z) : result problem_type :=
  H' ← caGmresUpdateUpperHessenbergImpl (H problem) R B startCol endCol;
  Ok (set_H problem H').
End ChangeOfBasis.

(** ** The residual norm *)

Section Residual.
Context {Scalar magnitudeType : Type}.
Context {STS : ScalarTraits Scalar magnitudeType}.
Context {blas : BLAS Scalar}.
Context {lapack : LAPACK Scalar magnitudeType}.

Local Abbreviation problem_type := (ProjectedLeastSquaresProblem Scalar).

(** [norm] is the magnitude of [z(curCol+1, 0)] as it stands in [problem']
    after the new rotation has been applied: the rotation that
    [computeGivensRotation] gives for the entries [curCol] and [curCol+1]
    of the rotated column [curCol] of [before], applied to the entries
    [z(curCol, 0)] and [z(curCol+1, 0)] of [before]. *)
Definition rotatedResidual (before problem' : problem_type) (curCol : Z)
    (norm : magnitudeType) : Prop :=
  exists R_col x0 x1 zk zk1,
    rotatedColumn (H before) (R before) (theCosines before)
      (theSines before) curCol = Ok R_col
    /\ elem R_col curCol 0 = Ok x0
    /\ elem R_col (curCol + 1) 0 = Ok x1
    /\ elem (z before) curCol 0 = Ok zk
    /\ elem (z before) (curCol + 1) 0 = Ok zk1
    /\ elem (z problem') (curCol + 1) 0
       = Ok (rot (computeGivensRotation x0 x1).1.1
                 (computeGivensRotation x0 x1).1.2 zk zk1).2
    /\ norm
       = STS_magnitude
           (rot (computeGivensRotation x0 x1).1.1
                (computeGivensRotation x0 x1).1.2 zk zk1).2.
End Residual.

(** ** The fused panel update *)

Section Block.
Context {Scalar magnitudeType : Type}.
Context {STS : ScalarTraits Scalar magnitudeType}.
Context {blas : BLAS Scalar}.
Context {lapack : LAPACK Scalar magnitudeType}.

Local Abbreviation mat_type := (SerialDenseMatrix Scalar).

(** [blas.ROT (n, &R(j, col), LDR, &R(j+1, col), LDR, &theCosines[j],
    &theSines[j])], the rotation [j] applied to the rows [j] and [j+1] of
    [n] columns of [R] from [col] on. *)
Definition rotateRows (R : mat_type) (theCosines theSines : list Scalar)
    (n col j : Z) : result mat_type :=
  let LDR := stride R in
  px ← addr R j col;
  py ← addr R (j + 1) col;
  theCosine ← load theCosines j;
  theSine ← load theSines j;
  buf ← ROT n (buffer R) px LDR py LDR theCosine theSine;
  Ok (with_buffer R buf).

(** One pass of the loop of step 3 of [updateColumnsGivensBlock], on the
    arguments it changes. *)
Definition blockColumn (startCol curCol : Z)
    (st : mat_type * mat_type * list Scalar * list Scalar)
    : result (mat_type * mat_type * list Scalar * list Scalar) :=
  let '(R, z, theCosines, theSines) := st in
  (* a. the rotations of the earlier passes *)
  R ← for_range startCol curCol (fun j R =>
         rotateRows R theCosines theSines 1 curCol j) R;
  (* b. the new rotation *)
  x0 ← elem R curCol curCol;
  x1 ← elem R (curCol + 1) curCol;
  let '(theCosine, theSine, result) := computeGivensRotation x0 x1 in
  theCosines ← store theCosines curCol theCosine;
  theSines ← store theSines curCol theSine;
  (* c. both assignments go to the entry below the diagonal *)
  R ← setElem R (curCol + 1) curCol result;
  R ← setElem R (curCol + 1) curCol STS_zero;
  (* d. the rotation applied to every column of z *)
  let LDZ := stride z in
  px ← addr z curCol 0;
  py ← addr z (curCol + 1) 0;
  zbuf ← ROT (numCols z) (buffer z) px LDZ py LDZ theCosine theSine;
  Ok (R, with_buffer z zbuf, theCosines, theSines).

(** [updateColumnsGivensBlock (H, R, y, z, theCosines, theSines, startCol,
    endCol)]: the new values of the five arguments passed by reference and
    the value returned. *)
Definition updateColumnsGivensBlock (H R y z : mat_type)
    (theCosines theSines : list Scalar) (startCol endCol : Z)
    : result (mat_type * mat_type * mat_type * list Scalar * list Scalar
              * magnitudeType) :=
  let numRows := endCol + 2 in
  let numColsToUpdate := endCol - startCol + 1 in
  (* 1. the columns of the panel are copied from H into R *)
  let H_view := View H numRows numColsToUpdate 0 startCol in
  let R_view := View R numRows numColsToUpdate 0 startCol in
  R_view ← assign R_view H_view;
  let R := with_buffer R (buffer R_view) in
  (* 2. the rotations of the columns before the panel *)
  R ← for_range 0 startCol (fun j R =>
         rotateRows R theCosines theSines numColsToUpdate startCol j) R;
  (* 3. each column in turn, the last one left out *)
  '(R, z, theCosines, theSines) ←
    for_range startCol endCol (blockColumn startCol)
      (R, z, theCosines, theSines);
  last ← elem z (numRows - 1) 0;
  Ok (R, y, z, theCosines, theSines, STS_magnitude last).
End Block.

(** ** Random problems *)

Section Random.
Context {Scalar magnitudeType rng : Type}.
Context {STS : ScalarTraits Scalar magnitudeType}.
Context {arith : ScalarArith Scalar magnitudeType}.
Context {random : RandomSource Scalar magnitudeType rng}.

Local Abbreviation mat_type := (SerialDenseMatrix Scalar).

(** Modelled from the spec: [random] of the missing class
    [Teuchos::SerialDenseMatrix], the random matrix of section 4.8;
    [A.random ()]: every entry of [A] becomes a fresh random number, column
    by column. *)
Definition randomMatrix (A : mat_type) (g : rng) : result (mat_type * rng) :=
  '(buf, g) ← for_range 0 (numCols A) (fun j st =>
                 for_range 0 (numRows A) (fun i '(buf, g) =>
                   let '(v, g) := STS_random g in
                   buf ← store buf (offset A + i + j * stride A) v;
                   Ok (buf, g)) st)
               (buffer A, g);
  Ok (with_buffer A buf, g).

(** [for (int trial = 0; trial < numTrials && z_init == STM::zero ();
    ++trial) z_init = STM::random ();] *)
Fixpoint drawNonzero (numTrials : nat) (z_init : magnitudeType) (g : rng)
    : magnitudeType * rng :=
  match numTrials with
  | O => (z_init, g)
  | S more =>
      if STM_eqb z_init STM_zero then
        let '(z_init, g) := STM_random g in drawNonzero more z_init g
      else (z_init, g)
  end.

(** The draw number [k], from 0, that [STM::random ()] gives from the
    generator [g] on, and the generator after it. *)
Fixpoint nthDraw (k : nat) (g : rng) : magnitudeType * rng :=
  match k with
  | O => STM_random g
  | S k' => nthDraw k' (snd (STM_random g))
  end.

(** [makeRandomProblem (H, z)]: the new [H] and [z], and the generator. *)
Definition makeRandomProblem (H z : mat_type) (g : rng)
    : result (mat_type * mat_type * rng) :=
  '(H, g) ← randomMatrix H g;
  (* Zero out the entries below the subdiagonal of H. *)
  H ← for_range 0 (numCols H) (fun j H =>
         for_range (j + 2) (numRows H) (fun i H =>
           setElem H i j STS_zero) H) H;
  let numTrials := 1000%nat in
  let z_init := STM_zero in
  let '(z_init, g) := drawNonzero numTrials z_init g in
  TEST_FOR_EXCEPTION (STM_eqb z_init STM_zero) runtime_error;;
  let z_first :=
    if STM_ltb z_init (STM_of_int 0) then STM_neg z_init else z_init in
  z ← setElem z 0 0 (STS_promote z_first);
  Ok (H, z, g).
End Random.

(** ** The exact instance, continued *)

#[global] Instance Q_arith : ScalarArith Q Q := {|
  STS_add := fun a b => Qred (a + b);
  STS_neg := fun a => Qred (- a);
  STM_neg := fun a => Qred (- a)
|}.

(** A generator that counts: the draws are 0, 1, 2, ... from its state
    on. *)
#[global] Instance Q_counter : RandomSource Q Q Z := {|
  STS_random := fun g => (inject_Z g, g + 1);
  STM_random := fun g => (inject_Z g, g + 1)
|}.

(** A generator that only ever draws zero. *)
Definition Q_broken : RandomSource Q Q unit := {|
  STS_random := fun g => (0%Q, g);
  STM_random := fun g => (0%Q, g)
|}.

(** The example problem after [updateColumn (exampleProblem, 0)]. *)
Definition exampleFirstColumn : ProjectedLeastSquaresProblem Q :=
  mkProblem
    (mkMatrix 3 2 3 0 [2; 1; 0; 1; 3; 1]%Q)
    (mkMatrix 3 2 3 0 [5; 0; 0; 0; 0; 0]%Q)
    (newMatrix 3 1)
    (mkMatrix 3 1 3 0 [10; -5; 0]%Q)
    [2; 0; 0]%Q
    [1; 0; 0]%Q.

(** The example problem after [reset (7)]. *)
Definition exampleReset : ProjectedLeastSquaresProblem Q :=
  set_z exampleProblem (mkMatrix 3 1 3 0 [7; 0; 0]%Q).

(** A 4 by 3 Hessenberg matrix, a 4 by 2 factor and a 2 by 1 change of
    basis on which the panel that starts at column 1 stays inside its
    matrices. *)
Definition laterPanelH : SerialDenseMatrix Q :=
  mkMatrix 4 3 4 0 [1; 2; 3; 4; 5; 6; 7; 8; 9; 10; 11; 12]%Q.

Definition laterPanelR : SerialDenseMatrix Q :=
  mkMatrix 4 2 4 0 [1; 2; 3; 4; 5; 6; 7; 8]%Q.

Definition laterPanelB : SerialDenseMatrix Q :=
  mkMatrix 2 1 2 0 [1; 1]%Q.

(** A 2 by 2 triangular factor with the rows (0 1), (0 3): the first
    diagonal entry is zero. *)
Definition firstColumnZeroR : SerialDenseMatrix Q :=
  mkMatrix 2 2 2 0 [0; 0; 1; 3]%Q.

(** The counting rule in the words of the specification: a column is
    counted when its diagonal entry is zero and the 1-norm of its part
    above the diagonal is zero, the first column exempted; and the rank
    this rule gives. *)
Definition Q_claimedDeficient (R : SerialDenseMatrix Q) (j : Z) : bool :=
  negb (j =? 0)
  && Qeq_bool (Q_entry R j j) 0
  && Qeq_bool (Q_at (Q_cnorm (numCols R) (buffer R) (offset R) (stride R)) j)
              0.

Definition Q_claimedRank (R : SerialDenseMatrix Q) : Z :=
  numCols R
  - Z.of_nat (length (List.filter (Q_claimedDeficient R)
                        (seqZ 0 (numCols R)))).

(** ** An instance with a NaN *)

(** The rationals with one more value, [None], that stands for NaN: an
    operation with a NaN operand gives NaN, so does a division by zero,
    and every comparison with a NaN is false. *)
Definition nan_lift (f : Q -> Q -> Q) (a b : option Q) : option Q :=
  match a, b with
  | Some x, Some y => Some (Qred (f x y))
  | _, _ => None
  end.

Definition nan_test (f : Q -> Q -> bool) (a b : option Q) : bool :=
  match a, b with
  | Some x, Some y => f x y
  | _, _ => false
  end.

#[global] Instance N_traits : ScalarTraits (option Q) (option Q) := {|
  STS_zero := Some 0%Q;
  STS_one := Some 1%Q;
  STS_magnitude := option_map (fun x => Qred (Qabs x));
  STS_eps := Some (1 # 4503599627370496)%Q;
  STS_eqb := nan_test Qeq_bool;
  STS_sub := nan_lift Qminus;
  STS_mul := nan_lift Qmult;
  STS_div := fun a b =>
    if nan_test Qeq_bool b (Some 0%Q) then None else nan_lift Qdiv a b;
  STS_promote := fun m => m;
  STS_real_to_int := fun a =>
    match a with
    | Some x => Z.quot (Qnum x) (Z.pos (Qden x))
    | None => 0
    end;
  STM_zero := Some 0%Q;
  STM_one := Some 1%Q;
  STM_squareroot :=
    option_map (fun x => Qred (Z.sqrt (Qnum x * Z.pos (Qden x)) # Qden x));
  STM_isnaninf := fun a => match a with Some _ => false | None => true end;
  STM_eqb := nan_test Qeq_bool;
  STM_ltb := nan_test (fun x y => negb (Qle_bool y x));
  STM_leb := nan_test Qle_bool;
  STM_mul := nan_lift Qmult;
  STM_of_int := fun n => Some (inject_Z n)
|}.

(** The rotation of [Q_blas], with the NaN carried along. *)
#[global] Instance N_blas : BLAS (option Q) := {|
  ROTG := fun a b =>
    (nan_lift Qplus (nan_lift Qmult a a) (nan_lift Qmult b b), Some 0%Q, a, b);
  rot := fun c s x y =>
    (nan_lift Qplus (nan_lift Qmult c x) (nan_lift Qmult s y),
     nan_lift Qminus (nan_lift Qmult c y) (nan_lift Qmult s x))
|}.

(** Stand-ins for the LAPACK drivers; the updater calls none of them. *)
#[global] Instance N_lapack : LAPACK (option Q) (option Q) := {|
  LARTG := fun f g =>
    (f, g, nan_lift Qplus (nan_lift Qmult f f) (nan_lift Qmult g g));
  LATRS := fun normin n A aoff lda x xoff cnorm => ([], Some 1%Q, cnorm, 0);
  GELSS := fun n nrhs A aoff lda x xoff ldx rcond lwork =>
    (x, n, Some 1%Q, 0)
|}.

(** The example problem over this instance, and the problem that
    [reset (NaN)] makes of it. *)
Definition N_exampleProblem : ProjectedLeastSquaresProblem (option Q) :=
  mkProblem
    (mkMatrix 3 2 3 0 (map Some [2; 1; 0; 1; 3; 1]%Q))
    (newMatrix 3 2)
    (newMatrix 3 1)
    (mkMatrix 3 1 3 0 (map Some [5; 0; 0]%Q))
    (replicate 3 (Some 0%Q))
    (replicate 3 (Some 0%Q)).

Definition N_nanProblem : ProjectedLeastSquaresProblem (option Q) :=
  set_z N_exampleProblem (mkMatrix 3 1 3 0 [None; Some 0%Q; Some 0%Q]).

(** * Properties *)

(** ** The result monad and the loops *)

Lemma bind_Ok {A B : Type} (m : result A) (f : A -> result B) (b : B) :
  m ≫= f = Ok b -> exists a, m = Ok a /\ f a = Ok b.
Proof. destruct m as [a|e]; simpl; [eauto | discriminate]. Qed.

Lemma bind_Ok_l {A B : Type} (m : result A) (f : A -> result B) (a : A) :
  m = Ok a -> m ≫= f = f a.
Proof. intros ->. reflexivity. Qed.

Lemma bind_Throw {A B : Type} (m : result A) (f : A -> result B) (e : exn) :
  m ≫= f = Throw e -> m = Throw e \/ exists a, m = Ok a /\ f a = Throw e.
Proof. destruct m as [a|e']; simpl; [eauto | intros [= ->]; auto]. Qed.

(** Takes an equation [x ← m; k = Ok r] apart, as far as it goes. *)
Ltac inv_bind Hb :=
  repeat match type of Hb with
  | _ ≫= _ = Ok _ =>
      let a := fresh "a" in
      let Ha := fresh "Ha" in
      apply bind_Ok in Hb as (a & Ha & Hb)
  end.

Lemma for_steps_snoc {S : Type} (n : nat) (i : Z) (body : Z -> S -> result S)
    (s : S) :
  for_steps (Datatypes.S n) i body s
  = for_steps n i body s ≫= body (i + Z.of_nat n).
Proof.
  revert i s. induction n as [|n IH]; intros i s.
  - simpl. rewrite Z.add_0_r. destruct (body i s); reflexivity.
  - change (for_steps (Datatypes.S (Datatypes.S n)) i body s)
      with (body i s ≫= for_steps (Datatypes.S n) (i + 1) body).
    change (for_steps (Datatypes.S n) i body s)
      with (body i s ≫= for_steps n (i + 1) body).
    destruct (body i s) as [s'|e]; [|reflexivity].
    change (for_steps (Datatypes.S n) (i + 1) body s'
            = for_steps n (i + 1) body s'
              ≫= body (i + Z.of_nat (Datatypes.S n))).
    rewrite (IH (i + 1) s').
    replace (i + Z.of_nat (Datatypes.S n)) with (i + 1 + Z.of_nat n) by lia.
    reflexivity.
Qed.

(** The invariant rule of the loops: an invariant that every pass keeps
    holds at the end, and the loop throws nothing. *)
Lemma for_steps_inv {S : Type} (P : Z -> S -> Prop) (n : nat) (i : Z)
    (body : Z -> S -> result S) (s : S) :
  P i s ->
  (forall k st, i <= k < i + Z.of_nat n -> P k st ->
     exists st', body k st = Ok st' /\ P (k + 1) st') ->
  exists s', for_steps n i body s = Ok s' /\ P (i + Z.of_nat n) s'.
Proof.
  revert i s. induction n as [|n IH]; intros i s Hi Hstep.
  - exists s. simpl. rewrite Z.add_0_r. auto.
  - destruct (Hstep i s) as (s1 & Hb & H1); [lia | assumption |].
    destruct (IH (i + 1) s1) as (s2 & Hl & H2); [assumption | |].
    + intros k st Hk. apply Hstep. lia.
    + exists s2. simpl. rewrite Hb. simpl. split; [assumption |].
      replace (i + Z.of_nat (Datatypes.S n)) with (i + 1 + Z.of_nat n) by lia.
      assumption.
Qed.

Lemma for_range_inv {S : Type} (P : Z -> S -> Prop) (lo hi : Z)
    (body : Z -> S -> result S) (s : S) :
  lo <= hi ->
  P lo s ->
  (forall k st, lo <= k < hi -> P k st ->
     exists st', body k st = Ok st' /\ P (k + 1) st') ->
  exists s', for_range lo hi body s = Ok s' /\ P hi s'.
Proof.
  intros Hle Hlo Hstep. unfold for_range.
  destruct (for_steps_inv P (Z.to_nat (hi - lo)) lo body s) as (s' & Hs & HP);
    [assumption | | ].
  - intros k st Hk. apply Hstep. lia.
  - exists s'. split; [assumption |].
    replace (lo + Z.of_nat (Z.to_nat (hi - lo))) with hi in HP by lia.
    assumption.
Qed.

(** The same rule for an invariant that does not mention the index; the
    bounds of the loop may be in any order. *)
Lemma for_range_keeps {S : Type} (P : S -> Prop) (lo hi : Z)
    (body : Z -> S -> result S) (s : S) :
  P s ->
  (forall k st, lo <= k < hi -> P st -> exists st', body k st = Ok st' /\ P st') ->
  exists s', for_range lo hi body s = Ok s' /\ P s'.
Proof.
  intros Hs Hstep. unfold for_range.
  apply (for_steps_inv (fun _ => P)); [assumption|].
  intros k st Hk. apply Hstep. lia.
Qed.

(** What a loop establishes when it returns: a property that every
    successful pass keeps. *)
Lemma for_steps_post {S : Type} (P : S -> Prop) (n : nat) (i : Z)
    (body : Z -> S -> result S) (s s' : S) :
  P s ->
  (forall k st st', body k st = Ok st' -> P st -> P st') ->
  for_steps n i body s = Ok s' -> P s'.
Proof.
  revert i s. induction n as [|n IH]; intros i s Hs Hstep Hrun; simpl in Hrun.
  - congruence.
  - apply bind_Ok in Hrun as (s1 & Hb & Hrun). eauto.
Qed.

Lemma for_range_post {S : Type} (P : S -> Prop) (lo hi : Z)
    (body : Z -> S -> result S) (s s' : S) :
  P s ->
  (forall k st st', body k st = Ok st' -> P st -> P st') ->
  for_range lo hi body s = Ok s' -> P s'.
Proof. unfold for_range. apply for_steps_post. Qed.

(** The same, for passes that keep the property inside the bounds of the
    loop. *)
Lemma for_steps_post_in {S : Type} (P : S -> Prop) (n : nat) (i : Z)
    (body : Z -> S -> result S) (s s' : S) :
  P s ->
  (forall k st st', i <= k < i + Z.of_nat n -> body k st = Ok st' ->
     P st -> P st') ->
  for_steps n i body s = Ok s' -> P s'.
Proof.
  revert i s. induction n as [|n IH]; intros i s Hs Hstep Hrun; simpl in Hrun.
  - congruence.
  - apply bind_Ok in Hrun as (s1 & Hb & Hrun).
    apply (IH (i + 1) s1); [| |assumption].
    + apply (Hstep i s s1); [lia | assumption | assumption].
    + intros k st st' Hk. apply Hstep. lia.
Qed.

Lemma for_range_post_in {S : Type} (P : S -> Prop) (lo hi : Z)
    (body : Z -> S -> result S) (s s' : S) :
  P s ->
  (forall k st st', lo <= k < hi -> body k st = Ok st' -> P st -> P st') ->
  for_range lo hi body s = Ok s' -> P s'.
Proof.
  intros Hs Hstep. unfold for_range. apply for_steps_post_in; [assumption|].
  intros k st st' Hk. apply Hstep. lia.
Qed.

(** A loop throws only what one of its passes throws. *)
Lemma for_steps_Throw {S : Type} (n : nat) (i : Z) (body : Z -> S -> result S)
    (s : S) (e : exn) :
  for_steps n i body s = Throw e -> exists k st, body k st = Throw e.
Proof.
  revert i s. induction n as [|n IH]; intros i s Hrun; simpl in Hrun.
  - discriminate.
  - apply bind_Throw in Hrun as [Hb|(s1 & _ & Hrun)]; eauto.
Qed.

(** ** Storage *)

Lemma store_Ok {A : Type} (buf : list A) (p : Z) (v : A) :
  0 <= p < Z.of_nat (length buf) ->
  store buf p v = Ok (<[Z.to_nat p := v]> buf).
Proof.
  intros Hp. unfold store.
  destruct (Z.leb_spec 0 p); [|lia].
  destruct (Z.ltb_spec p (Z.of_nat (length buf))); [|lia]. reflexivity.
Qed.

Lemma store_inv {A : Type} (buf buf' : list A) (p : Z) (v : A) :
  store buf p v = Ok buf' ->
  0 <= p < Z.of_nat (length buf) /\ buf' = <[Z.to_nat p := v]> buf.
Proof.
  unfold store.
  destruct (Z.leb_spec 0 p); simpl; [|discriminate].
  destruct (Z.ltb_spec p (Z.of_nat (length buf))); [|discriminate].
  intros [= <-]. auto.
Qed.

Lemma store_length {A : Type} (buf buf' : list A) (p : Z) (v : A) :
  store buf p v = Ok buf' -> length buf' = length buf.
Proof. intros Hs. apply store_inv in Hs as [_ ->]. apply length_insert. Qed.

Lemma load_Ok {A : Type} (buf : list A) (p : Z) :
  0 <= p < Z.of_nat (length buf) -> exists v, load buf p = Ok v.
Proof.
  intros Hp. unfold load. destruct (Z.leb_spec 0 p); [|lia].
  destruct (lookup_lt_is_Some_2 buf (Z.to_nat p)) as [v Hv]; [lia|].
  exists v. rewrite Hv. reflexivity.
Qed.

Lemma load_inv {A : Type} (buf : list A) (p : Z) (v : A) :
  load buf p = Ok v ->
  0 <= p < Z.of_nat (length buf) /\ buf !! Z.to_nat p = Some v.
Proof.
  unfold load. destruct (Z.leb_spec 0 p); [|discriminate].
  destruct (buf !! Z.to_nat p) as [w|] eqn:Hw; [|discriminate].
  intros [= <-]. split; [|reflexivity].
  apply lookup_lt_Some in Hw. lia.
Qed.

Lemma load_store_eq {A : Type} (buf buf' : list A) (p : Z) (v : A) :
  store buf p v = Ok buf' -> load buf' p = Ok v.
Proof.
  intros Hs. apply store_inv in Hs as [Hp ->]. unfold load.
  destruct (Z.leb_spec 0 p); [|lia].
  rewrite list_lookup_insert_eq by lia. reflexivity.
Qed.

Lemma load_store_ne {A : Type} (buf buf' : list A) (p q : Z) (v : A) :
  store buf p v = Ok buf' -> 0 <= q -> p <> q -> load buf' q = load buf q.
Proof.
  intros Hs Hq Hne. apply store_inv in Hs as [Hp ->]. unfold load.
  rewrite list_lookup_insert_ne by lia. reflexivity.
Qed.

Lemma load_Throw {A : Type} (buf : list A) (p : Z) (e : exn) :
  load buf p = Throw e -> e = range_error.
Proof.
  unfold load. destruct (0 <=? p); [|congruence].
  destruct (buf !! Z.to_nat p); congruence.
Qed.

Lemma store_Throw {A : Type} (buf : list A) (p : Z) (v : A) (e : exn) :
  store buf p v = Throw e -> e = range_error.
Proof. unfold store. destruct (_ && _); congruence. Qed.

Lemma load_store_same {A : Type} (buf buf' : list A) (p q : Z) (v : A) :
  store buf p v = Ok buf' -> load buf q = Ok v -> load buf' q = Ok v.
Proof.
  intros Hs Hl. destruct (Z.eq_dec p q) as [<-|Hne].
  - eapply load_store_eq; eassumption.
  - apply load_inv in Hl as Hq.
    rewrite (load_store_ne buf buf' p q v Hs); [assumption | lia | assumption].
Qed.

(** ** Dense matrices *)

Section MatrixProperties.
Context {Scalar magnitudeType : Type}.
Context {STS : ScalarTraits Scalar magnitudeType}.
Context {blas : BLAS Scalar}.

Local Abbreviation mat_type := (SerialDenseMatrix Scalar).

Lemma same_shape_refl (A : mat_type) : same_shape A A.
Proof. repeat split. Qed.

Lemma same_shape_trans (A B C : mat_type) :
  same_shape A B -> same_shape B C -> same_shape A C.
Proof.
  unfold same_shape. intros (?&?&?&?&?) (?&?&?&?&?).
  repeat split; congruence.
Qed.

Lemma in_dims_spec (A : mat_type) (i j : Z) :
  in_dims A i j = true <-> 0 <= i < numRows A /\ 0 <= j < numCols A.
Proof. unfold in_dims. rewrite !andb_true_iff. lia. Qed.

Lemma fits_index (A : mat_type) (i j : Z) :
  fits A = true -> 0 <= i < numRows A -> 0 <= j < numCols A ->
  0 <= offset A + i + j * stride A < Z.of_nat (length (buffer A)).
Proof.
  unfold fits. rewrite !andb_true_iff, !orb_true_iff.
  intros ((((Hr & Hc) & Ho) & Hs) & Hlen) Hi Hj.
  apply Z.leb_le in Hr, Hc, Ho, Hs.
  destruct Hlen as [[Hz|Hz]|Hlen]; [apply Z.eqb_eq in Hz; lia ..|].
  apply Z.leb_le in Hlen. nia.
Qed.

Lemma fits_same_shape (A B : mat_type) :
  same_shape A B -> fits B = true -> fits A = true.
Proof.
  unfold same_shape, fits. intros (-> & -> & -> & -> & ->). auto.
Qed.

Lemma addr_Ok (A : mat_type) (i j : Z) :
  0 <= i < numRows A -> 0 <= j < numCols A ->
  addr A i j = Ok (offset A + i + j * stride A).
Proof.
  intros Hi Hj. unfold addr.
  destruct (in_dims A i j) eqn:Hd; [reflexivity|].
  assert (in_dims A i j = true) by (apply in_dims_spec; auto). congruence.
Qed.

Lemma addr_inv (A : mat_type) (i j p : Z) :
  addr A i j = Ok p ->
  (0 <= i < numRows A /\ 0 <= j < numCols A)
  /\ p = offset A + i + j * stride A.
Proof.
  unfold addr. destruct (in_dims A i j) eqn:Hd; [|discriminate].
  intros [= <-]. apply in_dims_spec in Hd. auto.
Qed.

Lemma setElem_shape (A A' : mat_type) (i j : Z) (v : Scalar) :
  setElem A i j v = Ok A' -> same_shape A' A.
Proof.
  unfold setElem. intros Hs. inv_bind Hs. injection Hs as <-.
  apply store_length in Ha0. repeat split; assumption.
Qed.

Lemma elem_setElem_eq (A A' : mat_type) (i j : Z) (v : Scalar) :
  setElem A i j v = Ok A' -> elem A' i j = Ok v.
Proof.
  unfold setElem, elem. intros Hs. inv_bind Hs. injection Hs as <-.
  change (addr (with_buffer A a0) i j) with (addr A i j).
  rewrite Ha. simpl. eapply load_store_eq; eassumption.
Qed.

Lemma elem_setElem_ne (A A' : mat_type) (i j i' j' : Z) (v : Scalar) :
  setElem A i j v = Ok A' ->
  offset A + i + j * stride A <> offset A + i' + j' * stride A ->
  0 <= offset A + i' + j' * stride A ->
  elem A' i' j' = elem A i' j'.
Proof.
  unfold setElem, elem. intros Hs Hne Hpos. inv_bind Hs. injection Hs as <-.
  change (addr (with_buffer A a0) i' j') with (addr A i' j').
  destruct (addr A i' j') as [q|e] eqn:Hq; [|reflexivity]. simpl.
  apply addr_inv in Ha as [_ ->]. apply addr_inv in Hq as [_ ->].
  eapply load_store_ne; eassumption.
Qed.

Lemma copyMat_length (src : list Scalar) (srcOff srcStride nr nc : Z)
    (dst dst' : list Scalar) (dstOff dstStride : Z) :
  copyMat src srcOff srcStride nr nc dst dstOff dstStride = Ok dst' ->
  length dst' = length dst.
Proof.
  unfold copyMat.
  apply (for_range_post (fun d => length d = length dst)); [reflexivity|].
  intros j d d' Hrun Hd. revert Hrun.
  apply (for_range_post (fun d => length d = length dst)); [assumption|].
  intros i e e' Hrun He. inv_bind Hrun.
  apply store_length in Hrun. congruence.
Qed.

Lemma copyMat_Ok (src : list Scalar) (srcOff srcStride nr nc : Z)
    (dst : list Scalar) (dstOff dstStride : Z) :
  (forall i j, 0 <= i < nr -> 0 <= j < nc ->
     0 <= srcOff + i + j * srcStride < Z.of_nat (length src)
     /\ 0 <= dstOff + i + j * dstStride < Z.of_nat (length dst)) ->
  exists dst',
    copyMat src srcOff srcStride nr nc dst dstOff dstStride = Ok dst'.
Proof.
  intros Hin. unfold copyMat.
  destruct (for_range_keeps (fun d => length d = length dst) 0 nc
    (fun j dst0 =>
       for_range 0 nr (fun i dst1 =>
         v ← load src (srcOff + i + j * srcStride);
         store dst1 (dstOff + i + j * dstStride) v) dst0) dst)
    as (dst' & Hrun & _); [reflexivity | | eauto].
  intros j d Hj Hd.
  apply (for_range_keeps (fun d => length d = length dst)); [assumption|].
  intros i e Hi He.
  destruct (Hin i j Hi Hj) as [Hs Ht].
  destruct (load_Ok src _ Hs) as [v Hv]. rewrite Hv. simpl.
  rewrite store_Ok by lia. eexists. split; [reflexivity|].
  rewrite length_insert. assumption.
Qed.

Lemma assign_shape (A Source A' : mat_type) :
  assign A Source = Ok A' -> same_shape A' A.
Proof.
  unfold assign. destruct (_ && _).
  - intros Hs. inv_bind Hs. injection Hs as <-.
    apply copyMat_length in Ha. repeat split; assumption.
  - intros [= <-]. apply same_shape_refl.
Qed.

Lemma assign_Ok (A Source : mat_type) :
  fits A = true -> fits Source = true ->
  exists A', assign A Source = Ok A'.
Proof.
  intros HA HS. unfold assign.
  destruct (_ && _) eqn:Hdims; [|eauto].
  apply andb_true_iff in Hdims as [Hr Hc].
  apply Z.eqb_eq in Hr, Hc.
  destruct (copyMat_Ok (buffer Source) (offset Source) (stride Source)
              (numRows A) (numCols A) (buffer A) (offset A) (stride A))
    as [buf Hbuf].
  - intros i j Hi Hj. split; apply fits_index; auto; lia.
  - rewrite Hbuf. simpl. eauto.
Qed.

Lemma ROT_length (n : Z) (buf buf' : list Scalar) (dx incx dy incy : Z)
    (c s : Scalar) :
  ROT n buf dx incx dy incy c s = Ok buf' -> length buf' = length buf.
Proof.
  unfold ROT.
  apply (for_range_post (fun d => length d = length buf)); [reflexivity|].
  intros i d d' Hrun Hd. inv_bind Hrun.
  destruct (rot c s a a0) as [xi' yi']. inv_bind Hrun.
  apply store_length in Ha1, Hrun. congruence.
Qed.

Lemma ROT_Ok (n : Z) (buf : list Scalar) (dx incx dy incy : Z)
    (c s : Scalar) :
  (forall i, 0 <= i < n ->
     0 <= dx + i * incx < Z.of_nat (length buf)
     /\ 0 <= dy + i * incy < Z.of_nat (length buf)) ->
  exists buf', ROT n buf dx incx dy incy c s = Ok buf'.
Proof.
  intros Hin. unfold ROT.
  destruct (for_range_keeps (fun d => length d = length buf) 0 n
    (fun i buf0 =>
       xi ← load buf0 (dx + i * incx);
       yi ← load buf0 (dy + i * incy);
       let '(xi', yi') := rot c s xi yi in
       buf1 ← store buf0 (dy + i * incy) yi';
       store buf1 (dx + i * incx) xi') buf)
    as (buf' & Hrun & _); [reflexivity | | eauto].
  intros i d Hi Hd. destruct (Hin i Hi) as [Hx Hy].
  destruct (load_Ok d (dx + i * incx)) as [xi Hxi]; [lia|].
  destruct (load_Ok d (dy + i * incy)) as [yi Hyi]; [lia|].
  rewrite Hxi, Hyi. simpl. destruct (rot c s xi yi) as [xi' yi'].
  rewrite store_Ok by lia. simpl.
  rewrite store_Ok by (rewrite length_insert; lia).
  eexists. split; [reflexivity|]. rewrite !length_insert. assumption.
Qed.
Lemma fits_spec (A : mat_type) :
  fits A = true <->
  0 <= numRows A /\ 0 <= numCols A /\ 0 <= offset A
  /\ numRows A <= stride A
  /\ (numRows A = 0 \/ numCols A = 0
      \/ offset A + (numCols A - 1) * stride A + numRows A
         <= Z.of_nat (length (buffer A))).
Proof.
  unfold fits.
  rewrite !andb_true_iff, !orb_true_iff, !Z.leb_le, !Z.eqb_eq. tauto.
Qed.

Lemma fits_View (A : mat_type) (nr nc startRow startCol : Z) :
  fits A = true ->
  0 <= nr -> 0 <= nc -> 0 <= startRow -> 0 <= startCol ->
  startRow + nr <= numRows A -> startCol + nc <= numCols A ->
  fits (View A nr nc startRow startCol) = true.
Proof.
  intros HA Hnr Hnc Hr0 Hc0 Hr Hc.
  pose proof (proj1 (fits_spec A) HA) as (HnA & HcA & HoA & HsA & _).
  apply fits_spec. simpl.
  repeat (split; [try lia; nia|]).
  destruct (Z.eq_dec nr 0) as [->|Hnr0]; [auto|].
  destruct (Z.eq_dec nc 0) as [->|Hnc0]; [auto|].
  pose proof (fits_index A (startRow + nr - 1) (startCol + nc - 1) HA
                ltac:(lia) ltac:(lia)) as Hlast.
  right. right. nia.
Qed.

Lemma elem_Ok (A : mat_type) (i j : Z) :
  fits A = true -> 0 <= i < numRows A -> 0 <= j < numCols A ->
  exists v, elem A i j = Ok v.
Proof.
  intros HA Hi Hj. unfold elem. rewrite addr_Ok by assumption.
  apply load_Ok, fits_index; assumption.
Qed.

Lemma setElem_Ok (A : mat_type) (i j : Z) (v : Scalar) :
  fits A = true -> 0 <= i < numRows A -> 0 <= j < numCols A ->
  exists A', setElem A i j v = Ok A'.
Proof.
  intros HA Hi Hj. unfold setElem.
  rewrite (bind_Ok_l _ _ _ (addr_Ok A i j Hi Hj)).
  rewrite (bind_Ok_l _ _ _
             (store_Ok (buffer A) _ v (fits_index A i j HA Hi Hj))).
  eexists. reflexivity.
Qed.
Lemma putScalar_spec (A : mat_type) (v : Scalar) :
  fits A = true ->
  exists A',
    putScalar A v = Ok A' /\ same_shape A' A
    /\ forall i j, 0 <= i < numRows A -> 0 <= j < numCols A ->
         elem A' i j = Ok v.
Proof.
  intros HA.
  pose proof (proj1 (fits_spec A) HA) as (Hnr & Hnc & _).
  unfold putScalar.
  destruct (for_range_inv
    (fun j buf =>
       length buf = length (buffer A)
       /\ forall i' j', 0 <= i' < numRows A -> 0 <= j' < j ->
            load buf (offset A + i' + j' * stride A) = Ok v)
    0 (numCols A)
    (fun j buf =>
       for_range 0 (numRows A) (fun i buf =>
         store buf (offset A + i + j * stride A) v) buf)
    (buffer A)) as (buf & Hrun & Hlen & Hall).
  - assumption.
  - split; [reflexivity | intros; lia].
  - intros j b Hj (Hl & Hprev).
    destruct (for_range_inv
      (fun i buf =>
         length buf = length (buffer A)
         /\ (forall i' j', 0 <= i' < numRows A -> 0 <= j' < j ->
               load buf (offset A + i' + j' * stride A) = Ok v)
         /\ forall i', 0 <= i' < i ->
              load buf (offset A + i' + j * stride A) = Ok v)
      0 (numRows A)
      (fun i buf => store buf (offset A + i + j * stride A) v) b)
      as (b' & Hrun' & Hl' & Hprev' & Hcol).
    + assumption.
    + split; [assumption|]. split; [assumption | intros; lia].
    + intros i c Hi (Hlc & Hpc & Hcc).
      pose proof (fits_index A i j HA Hi Hj) as Hin.
      assert (Hst : store c (offset A + i + j * stride A) v
                    = Ok (<[Z.to_nat (offset A + i + j * stride A) := v]> c))
        by (apply store_Ok; lia).
      eexists. split; [exact Hst|].
      split; [rewrite length_insert; assumption|]. split.
      * intros i' j' Hi' Hj'. eapply load_store_same; eauto.
      * intros i' Hi'. destruct (Z.eq_dec i' i) as [->|Hne].
        -- eapply load_store_eq; eassumption.
        -- eapply load_store_same; [eassumption|]. apply Hcc. lia.
    + exists b'. split; [assumption|]. split; [assumption|].
      intros i' j' Hi' Hj'. destruct (Z.eq_dec j' j) as [->|Hne].
      * apply Hcol. assumption.
      * apply Hprev'; [assumption | lia].
  - rewrite (bind_Ok_l _ _ _ Hrun). eexists. split; [reflexivity|].
    split; [repeat split; assumption|].
    intros i j Hi Hj. unfold elem.
    rewrite (bind_Ok_l _ _ _ (addr_Ok (with_buffer A buf) i j Hi Hj)).
    apply Hall; assumption.
Qed.

Lemma reshape_spec (A : mat_type) (nr nc : Z) :
  fits A = true -> 0 <= nr -> 0 <= nc ->
  exists A',
    reshape A nr nc = Ok (A', 0) /\ fits A' = true
    /\ numRows A' = nr /\ numCols A' = nc.
Proof.
  intros HA Hnr Hnc. unfold reshape.
  set (fresh := replicate (Z.to_nat (nr * nc)) STS_zero).
  assert (Hfresh : Z.of_nat (length fresh) = nr * nc).
  { unfold fresh. rewrite length_replicate. nia. }
  destruct (copyMat_Ok (buffer A) (offset A) (stride A)
              (Z.min (numRows A) nr) (Z.min (numCols A) nc) fresh 0 nr)
    as [buf Hbuf].
  - intros i j Hi Hj. split.
    + apply fits_index; [assumption | lia | lia].
    + rewrite Hfresh. nia.
  - rewrite (bind_Ok_l _ _ _ Hbuf). apply copyMat_length in Hbuf.
    eexists. split; [reflexivity|]. split; [|auto].
    apply fits_spec. simpl. repeat (split; [lia|]).
    right. right. rewrite Hbuf, Hfresh. nia.
Qed.
Lemma TRSM_left_upper_length (m n : Z) (alpha : Scalar) (A : list Scalar)
    (aoff lda : Z) (B B' : list Scalar) (boff ldb : Z) :
  TRSM_left_upper m n alpha A aoff lda B boff ldb = Ok B' ->
  length B' = length B.
Proof.
  unfold TRSM_left_upper, zeroBlock, for_down.
  destruct (STS_eqb alpha STS_zero).
  { apply (for_range_post (fun d => length d = length B)); [reflexivity|].
    intros j d d' Hrun Hd. revert Hrun.
    apply (for_range_post (fun d => length d = length B)); [assumption|].
    intros i e e' Hpass He. apply store_length in Hpass. congruence. }
  apply (for_range_post (fun d => length d = length B)); [reflexivity|].
  intros j d d' Hrun Hd. inv_bind Hrun.
  assert (Ha' : length a = length B).
  { destruct (STS_eqb alpha STS_one); [congruence|]. revert Ha.
    apply (for_range_post (fun d => length d = length B)); [assumption|].
    intros i e e' Hpass He. inv_bind Hpass.
    apply store_length in Hpass. congruence. }
  revert Hrun.
  apply (for_range_post (fun d => length d = length B)); [assumption|].
  intros k e e' Hpass He. inv_bind Hpass.
  destruct (STS_eqb a0 STS_zero); [congruence|]. inv_bind Hpass.
  apply store_length in Ha2. revert Hpass.
  apply (for_range_post (fun d => length d = length B)); [congruence|].
  intros i f f' Hstep Hf. inv_bind Hstep.
  apply store_length in Hstep. congruence.
Qed.
Lemma TRSM_right_upper_Throw (m n : Z) (alpha : Scalar) (A : list Scalar)
    (aoff lda : Z) (B : list Scalar) (boff ldb : Z) (e : exn) :
  TRSM_right_upper m n alpha A aoff lda B boff ldb = Throw e ->
  e = range_error.
Proof.
  unfold TRSM_right_upper, zeroBlock, for_range.
  destruct (STS_eqb alpha STS_zero); intros Hrun.
  { apply for_steps_Throw in Hrun as (j & d & Hrun).
    apply for_steps_Throw in Hrun as (i & d' & Hrun).
    eapply store_Throw; eassumption. }
  apply for_steps_Throw in Hrun as (j & d & Hrun).
  apply bind_Throw in Hrun as [Hscale|(d1 & _ & Hrun)].
  { destruct (STS_eqb alpha STS_one); [discriminate|].
    apply for_steps_Throw in Hscale as (i & d' & Hscale).
    apply bind_Throw in Hscale as [Hl|(v & _ & Hst)];
      [eapply load_Throw | eapply store_Throw]; eassumption. }
  apply bind_Throw in Hrun as [Hsub|(d2 & _ & Hrun)].
  { apply for_steps_Throw in Hsub as (k & d' & Hsub).
    apply bind_Throw in Hsub as [Hl|(akj & _ & Hsub)];
      [eapply load_Throw; eassumption|].
    destruct (STS_eqb akj STS_zero); [discriminate|].
    apply for_steps_Throw in Hsub as (i & d'' & Hsub).
    apply bind_Throw in Hsub as [Hl|(bij & _ & Hsub)];
      [eapply load_Throw; eassumption|].
    apply bind_Throw in Hsub as [Hl|(bik & _ & Hst)];
      [eapply load_Throw | eapply store_Throw]; eassumption. }
  apply bind_Throw in Hrun as [Hl|(ajj & _ & Hrun)];
    [eapply load_Throw; eassumption|].
  apply for_steps_Throw in Hrun as (i & d' & Hrun).
  apply bind_Throw in Hrun as [Hl|(bij & _ & Hst)];
    [eapply load_Throw | eapply store_Throw]; eassumption.
Qed.

(** The test of the dimensions in [rightUpperTriSolve]: the argument error
    is thrown exactly when [B] has not as many columns as [R] has rows. *)
Lemma rightUpperTriSolve_dimension_test (B Rm : mat_type) :
  rightUpperTriSolve B Rm = Throw invalid_argument
  <-> numCols B <> numRows Rm.
Proof.
  unfold rightUpperTriSolve.
  destruct (Z.eqb_spec (numCols B) (numRows Rm)) as [Heq|Hne]; simpl.
  - split; [|tauto]. intros Hrun.
    apply bind_Throw in Hrun as [Ht|(buf & _ & Hrun)]; [|discriminate].
    apply TRSM_right_upper_Throw in Ht. discriminate.
  - tauto.
Qed.
(** [_TRSM] from the right writes nothing outside the [m] by [n] block it
    is given. *)
Lemma TRSM_right_upper_frame (m n : Z) (alpha : Scalar) (A : list Scalar)
    (aoff lda : Z) (B B' : list Scalar) (boff ldb q : Z) :
  TRSM_right_upper m n alpha A aoff lda B boff ldb = Ok B' ->
  0 <= q ->
  (forall i j, 0 <= i < m -> 0 <= j < n -> q <> boff + i + j * ldb) ->
  load B' q = load B q.
Proof.
  intros Hrun Hq Hout. revert Hrun.
  assert (Hstore : forall i j d d' v, 0 <= i < m -> 0 <= j < n ->
            store d (boff + i + j * ldb) v = Ok d' ->
            load d q = load B q -> load d' q = load B q).
  { intros i j d d' v Hi Hj Hst Hd. rewrite <- Hd.
    eapply load_store_ne; [eassumption | assumption|].
    intros Heq. apply (Hout i j Hi Hj). congruence. }
  unfold TRSM_right_upper, zeroBlock.
  destruct (STS_eqb alpha STS_zero).
  { apply (for_range_post_in (fun d => load d q = load B q));
      [reflexivity|].
    intros j d d' Hj Hrun Hd. revert Hrun.
    apply (for_range_post_in (fun d => load d q = load B q)); [assumption|].
    intros i e e' Hi Hpass He. eapply Hstore; eassumption. }
  apply (for_range_post_in (fun d => load d q = load B q)); [reflexivity|].
  intros j d d' Hj Hrun Hd. inv_bind Hrun.
  assert (Ha' : load a q = load B q).
  { destruct (STS_eqb alpha STS_one); [congruence|]. revert Ha.
    apply (for_range_post_in (fun d => load d q = load B q)); [assumption|].
    intros i e e' Hi Hpass He. inv_bind Hpass. eapply Hstore; eassumption. }
  assert (Ha0' : load a0 q = load B q).
  { revert Ha0.
    apply (for_range_post_in (fun d => load d q = load B q)); [assumption|].
    intros k e e' Hk Hpass He. inv_bind Hpass.
    destruct (STS_eqb a2 STS_zero); [congruence|]. revert Hpass.
    apply (for_range_post_in (fun d => load d q = load B q)); [assumption|].
    intros i f f' Hi Hstep Hf. inv_bind Hstep. eapply Hstore; eassumption. }
  revert Hrun.
  apply (for_range_post_in (fun d => load d q = load B q)); [assumption|].
  intros i e e' Hi Hpass He. inv_bind Hpass. eapply Hstore; eassumption.
Qed.

(** The rows of [B] from [R.numCols ()] on are not touched by
    [rightUpperTriSolve]: it hands [R.numCols ()] to [_TRSM] as the number
    of rows of [B]. *)
Lemma rightUpperTriSolve_rows_left (B Rm B' : mat_type) (i j : Z) :
  fits B = true ->
  rightUpperTriSolve B Rm = Ok B' ->
  0 <= numCols Rm <= i -> i < numRows B -> 0 <= j < numCols B ->
  elem B' i j = elem B i j.
Proof.
  intros Hf Hrun Hi Hi' Hj. unfold rightUpperTriSolve in Hrun.
  inv_bind Hrun. injection Hrun as <-.
  pose proof (proj1 (fits_spec B) Hf) as (? & ? & ? & ? & _).
  unfold elem.
  rewrite (addr_Ok (with_buffer B a0) i j) by (simpl; lia).
  rewrite (addr_Ok B i j) by lia.
  change ((Ok ?p : result Z) ≫= ?f) with (f p). simpl.
  apply (TRSM_right_upper_frame _ _ _ _ _ _ _ _ _ _ _ Ha0); [nia|].
  intros i' j' Hi0 Hj0 Heq.
  assert (i - i' = (j' - j) * stride B) by lia.
  destruct (Z.lt_trichotomy j' j) as [?|[->|?]]; nia.
Qed.
Lemma TRSM_left_upper_Ok (m n : Z) (alpha : Scalar) (A : list Scalar)
    (aoff lda : Z) (B : list Scalar) (boff ldb : Z) :
  (forall i j, 0 <= i < m -> 0 <= j < n ->
     0 <= boff + i + j * ldb < Z.of_nat (length B)) ->
  (forall i k, 0 <= i < m -> 0 <= k < m ->
     0 <= aoff + i + k * lda < Z.of_nat (length A)) ->
  exists B', TRSM_left_upper m n alpha A aoff lda B boff ldb = Ok B'.
Proof.
  intros HB HA. unfold TRSM_left_upper, zeroBlock, for_down.
  assert (Hupd : forall i j d (v : Scalar), 0 <= i < m -> 0 <= j < n ->
            length d = length B ->
            exists d', store d (boff + i + j * ldb) v = Ok d'
                       /\ length d' = length B).
  { intros i j d v Hi Hj Hd.
    rewrite store_Ok by (rewrite Hd; auto).
    eexists. split; [reflexivity|]. rewrite length_insert. assumption. }
  assert (Hget : forall i j (d : list Scalar), 0 <= i < m -> 0 <= j < n ->
            length d = length B ->
            exists v, load d (boff + i + j * ldb) = Ok v).
  { intros i j d Hi Hj Hd. apply load_Ok. rewrite Hd. auto. }
  destruct (STS_eqb alpha STS_zero).
  { destruct (for_range_keeps (fun d => length d = length B) 0 n
      (fun j B0 =>
         for_range 0 m (fun i B1 => store B1 (boff + i + j * ldb) STS_zero)
           B0) B) as (B' & Hrun & _); [reflexivity | | eauto].
    intros j d Hj Hd.
    apply (for_range_keeps (fun d => length d = length B)); [assumption|].
    intros i e Hi He. apply Hupd; assumption. }
  match goal with
  | |- exists B', for_range 0 n ?body B = Ok B' =>
      destruct (for_range_keeps (fun d => length d = length B) 0 n body B)
        as (B' & Hrun & _); [reflexivity | | eauto]
  end.
  intros j d Hj Hd.
  assert (Hscale : exists d1,
            (if STS_eqb alpha STS_one then Ok d
             else for_range 0 m (fun i B0 =>
                    bij ← load B0 (boff + i + j * ldb);
                    store B0 (boff + i + j * ldb) (STS_mul alpha bij)) d)
            = Ok d1 /\ length d1 = length B).
  { destruct (STS_eqb alpha STS_one); [eauto|].
    apply (for_range_keeps (fun d => length d = length B)); [assumption|].
    intros i e Hi He. destruct (Hget i j e Hi Hj He) as [v Hv].
    rewrite (bind_Ok_l _ _ _ Hv). apply Hupd; assumption. }
  destruct Hscale as (d1 & Hd1 & Hl1). rewrite (bind_Ok_l _ _ _ Hd1).
  apply (for_range_keeps (fun d => length d = length B)); [assumption|].
  intros dk e Hdk He.
  destruct (Hget (m - 1 - dk) j e ltac:(lia) Hj He) as [bkj Hbkj].
  rewrite (bind_Ok_l _ _ _ Hbkj).
  destruct (STS_eqb bkj STS_zero); [eauto|].
  destruct (load_Ok A (aoff + (m - 1 - dk) + (m - 1 - dk) * lda))
    as [akk Hakk]; [apply HA; lia|].
  rewrite (bind_Ok_l _ _ _ Hakk).
  destruct (Hupd (m - 1 - dk) j e (STS_div bkj akk) ltac:(lia) Hj He)
    as (e1 & He1 & Hl1').
  rewrite (bind_Ok_l _ _ _ He1).
  apply (for_range_keeps (fun d => length d = length B)); [assumption|].
  intros i f Hi Hf.
  destruct (Hget i j f ltac:(lia) Hj Hf) as [bij Hbij].
  rewrite (bind_Ok_l _ _ _ Hbij).
  destruct (load_Ok A (aoff + i + (m - 1 - dk) * lda)) as [aik Haik];
    [apply HA; lia|].
  rewrite (bind_Ok_l _ _ _ Haik). apply Hupd; [lia | assumption..].
Qed.
End MatrixProperties.

(** ** The problem container *)

Section ProblemProperties.
Context {Scalar magnitudeType : Type}.
Context {STS : ScalarTraits Scalar magnitudeType}.

Local Abbreviation mat_type := (SerialDenseMatrix Scalar).
Local Abbreviation problem_type := (ProjectedLeastSquaresProblem Scalar).

Lemma reshapeIfTooSmall_spec (A : mat_type) (nr nc : Z) :
  fits A = true -> 0 <= nr -> 0 <= nc ->
  exists A',
    reshapeIfTooSmall A nr nc = Ok A' /\ fits A' = true
    /\ nr <= numRows A' /\ nc <= numCols A'
    /\ (nr <= numRows A -> nc <= numCols A -> A' = A)
    /\ (numRows A' = numRows A /\ numCols A' = numCols A
        \/ numRows A' = nr /\ numCols A' = nc
           /\ (numRows A < nr \/ numCols A < nc)).
Proof.
  intros HA Hnr Hnc. unfold reshapeIfTooSmall.
  destruct (Z.ltb_spec (numRows A) nr) as [Hr|Hr];
    [|destruct (Z.ltb_spec (numCols A) nc) as [Hc|Hc]]; simpl.
  1, 2: destruct (reshape_spec A nr nc HA Hnr Hnc)
          as (A' & HA' & Hf & Hr' & Hc');
        rewrite (bind_Ok_l _ _ _ HA'); simpl;
        exists A'; repeat split; auto; lia.
  exists A. repeat split; auto.
Qed.

Lemma reset_spec (problem : problem_type) (beta : magnitudeType) :
  fits (z problem) = true ->
  1 <= numRows (z problem) -> 1 <= numCols (z problem) ->
  exists z',
    reset problem beta = Ok (set_z problem z')
    /\ same_shape z' (z problem)
    /\ forall i j, 0 <= i < numRows (z problem) ->
         0 <= j < numCols (z problem) ->
         elem z' i j
         = Ok (if (i =? 0) && (j =? 0) then STS_promote beta else STS_zero).
Proof.
  intros Hf Hr Hc. unfold reset.
  destruct (putScalar_spec (z problem) STS_zero Hf) as (z1 & Hz1 & Hs1 & Hall).
  rewrite (bind_Ok_l _ _ _ Hz1).
  pose proof (fits_same_shape _ _ Hs1 Hf) as Hf1.
  pose proof Hs1 as (Hnr & Hnc & Hst & Hoff & _).
  destruct (setElem_Ok z1 0 0 (STS_promote beta) Hf1) as [z2 Hz2];
    [lia | lia |].
  rewrite (bind_Ok_l _ _ _ Hz2). exists z2. split; [reflexivity|].
  split.
  { eapply same_shape_trans; [|exact Hs1].
    eapply setElem_shape; eassumption. }
  intros i j Hi Hj.
  destruct (Z.eqb_spec i 0) as [->|Hi0];
    [destruct (Z.eqb_spec j 0) as [->|Hj0]|]; simpl.
  - eapply elem_setElem_eq; eassumption.
  - rewrite (elem_setElem_ne z1 z2 0 0 0 j _ Hz2);
      [apply Hall; assumption | |].
    + pose proof (proj1 (fits_spec z1) Hf1) as (? & ? & ? & ? & _). nia.
    + pose proof (proj1 (fits_spec z1) Hf1) as (? & ? & ? & ? & _). nia.
  - rewrite (elem_setElem_ne z1 z2 0 0 i j _ Hz2);
      [apply Hall; assumption | |].
    + pose proof (proj1 (fits_spec z1) Hf1) as (? & ? & ? & ? & _). nia.
    + pose proof (proj1 (fits_spec z1) Hf1) as (? & ? & ? & ? & _). nia.
Qed.

(** C5.  [reallocateAndReset (beta, maxNumIterations)] throws
    [std::invalid_argument] when [beta < 0] or [maxNumIterations <= 0].
    Otherwise, whatever [H], [R], [y] and [z] hold, it returns, and then
    every entry of [H], [R] and [y] is zero, every entry of [z] is zero
    but [z(0,0)], which is [beta] as a scalar, and [H] and [R] have at
    least [maxNumIterations + 1] rows and [maxNumIterations] columns.  The
    matrices only grow: one that is large enough keeps its shape, and [H]
    and [R], whose rows are one more than their columns, lose neither rows
    nor columns. *)
Theorem reallocateAndReset_spec (problem : problem_type)
    (beta : magnitudeType) (maxNumIterations : Z) :
  (STM_ltb beta STM_zero = true \/ maxNumIterations <= 0 ->
   reallocateAndReset problem beta maxNumIterations = Throw invalid_argument)
  /\ (STM_ltb beta STM_zero = false -> 0 < maxNumIterations ->
      fits (H problem) = true -> fits (R problem) = true ->
      fits (y problem) = true -> fits (z problem) = true ->
      exists problem',
        reallocateAndReset problem beta maxNumIterations = Ok problem'
        /\ (forall i j, 0 <= i < numRows (H problem') ->
              0 <= j < numCols (H problem') ->
              elem (H problem') i j = Ok STS_zero)
        /\ (forall i j, 0 <= i < numRows (R problem') ->
              0 <= j < numCols (R problem') ->
              elem (R problem') i j = Ok STS_zero)
        /\ (forall i j, 0 <= i < numRows (y problem') ->
              0 <= j < numCols (y problem') ->
              elem (y problem') i j = Ok STS_zero)
        /\ (forall i j, 0 <= i < numRows (z problem') ->
              0 <= j < numCols (z problem') ->
              elem (z problem') i j
              = Ok (if (i =? 0) && (j =? 0) then STS_promote beta
                    else STS_zero))
        /\ (1 <= numRows (z problem') /\ 1 <= numCols (z problem'))
        /\ (maxNumIterations + 1 <= numRows (H problem')
            /\ maxNumIterations <= numCols (H problem'))
        /\ (maxNumIterations + 1 <= numRows (R problem')
            /\ maxNumIterations <= numCols (R problem'))
        /\ (maxNumIterations + 1 <= numRows (H problem) ->
            maxNumIterations <= numCols (H problem) ->
            numRows (H problem') = numRows (H problem)
            /\ numCols (H problem') = numCols (H problem))
        /\ (maxNumIterations + 1 <= numRows (R problem) ->
            maxNumIterations <= numCols (R problem) ->
            numRows (R problem') = numRows (R problem)
            /\ numCols (R problem') = numCols (R problem))
        /\ (numRows (H problem) = numCols (H problem) + 1 ->
            numRows (H problem) <= numRows (H problem')
            /\ numCols (H problem) <= numCols (H problem'))
        /\ (numRows (R problem) = numCols (R problem) + 1 ->
            numRows (R problem) <= numRows (R problem')
            /\ numCols (R problem) <= numCols (R problem'))).
Proof.
  split.
  - intros Hbad. unfold reallocateAndReset.
    destruct (STM_ltb beta STM_zero); [reflexivity|].
    destruct Hbad as [Hb|Hm]; [discriminate|].
    destruct (Z.leb_spec maxNumIterations 0); [reflexivity | lia].
  - intros Hbeta Hm HfH HfR Hfy Hfz. unfold reallocateAndReset.
    rewrite Hbeta.
    destruct (Z.leb_spec maxNumIterations 0) as [?|_]; [lia|].
    change (TEST_FOR_EXCEPTION false invalid_argument;; ?k) with k.
    destruct (reshapeIfTooSmall_spec (H problem) (maxNumIterations + 1)
                maxNumIterations HfH) as (H1 & HH1 & HfH1 & HrH & HcH & HkH & HdH);
      [lia | lia |].
    destruct (putScalar_spec H1 STS_zero HfH1) as (H2 & HH2 & HsH & HallH).
    destruct (reshapeIfTooSmall_spec (R problem) (maxNumIterations + 1)
                maxNumIterations HfR) as (R1 & HR1 & HfR1 & HrR & HcR & HkR & HdR);
      [lia | lia |].
    destruct (putScalar_spec R1 STS_zero HfR1) as (R2 & HR2 & HsR & HallR).
    destruct (reshapeIfTooSmall_spec (y problem) (maxNumIterations + 1) 1 Hfy)
      as (y1 & Hy1 & Hfy1 & Hry & Hcy & _); [lia | lia |].
    destruct (putScalar_spec y1 STS_zero Hfy1) as (y2 & Hy2 & Hsy & Hally).
    destruct (reshapeIfTooSmall_spec (z problem) (maxNumIterations + 1) 1 Hfz)
      as (z1 & Hz1 & Hfz1 & Hrz & Hcz & _); [lia | lia |].
    rewrite (bind_Ok_l _ _ _ HH1), (bind_Ok_l _ _ _ HH2),
      (bind_Ok_l _ _ _ HR1), (bind_Ok_l _ _ _ HR2),
      (bind_Ok_l _ _ _ Hy1), (bind_Ok_l _ _ _ Hy2), (bind_Ok_l _ _ _ Hz1).
    destruct (reset_spec
                (mkProblem H2 R2 y2 z1 (theCosines problem)
                   (theSines problem)) beta)
      as (z2 & Hreset & Hsz & Hallz); simpl; [assumption | lia | lia |].
    rewrite Hreset. eexists. split; [reflexivity|]. simpl.
    destruct HsH as (HnH & HmH & _). destruct HsR as (HnR & HmR & _).
    destruct Hsy as (Hny & Hmy & _). destruct Hsz as (Hnz & Hmz & _).
    simpl in Hnz, Hmz, Hallz.
    rewrite HnH, HmH, HnR, HmR, Hny, Hmy, Hnz, Hmz.
    split; [assumption|]. split; [assumption|]. split; [assumption|].
    split; [assumption|].
    split; [lia|]. split; [lia|]. split; [lia|].
    split; [intros ? ?; rewrite HkH by assumption; auto|].
    split; [intros ? ?; rewrite HkR by assumption; auto|].
    split; intros; lia.
Qed.

(** [reset] has no test of its argument: on any problem whose [z] has an
    entry [(0,0)] it returns for every [beta], negative or not, with [z]
    zero but for [z(0,0)], which is [beta] as a scalar. *)
Lemma reset_accepts_any_beta (problem : problem_type)
    (beta : magnitudeType) :
  fits (z problem) = true ->
  1 <= numRows (z problem) -> 1 <= numCols (z problem) ->
  exists problem',
    reset problem beta = Ok problem'
    /\ forall i j, 0 <= i < numRows (z problem) ->
         0 <= j < numCols (z problem) ->
         elem (z problem') i j
         = Ok (if (i =? 0) && (j =? 0) then STS_promote beta else STS_zero).
Proof.
  intros Hf Hr Hc.
  destruct (reset_spec problem beta Hf Hr Hc) as (z' & Hrun & _ & Hall).
  exists (set_z problem z'). auto.
Qed.
End ProblemProperties.

(** ** The Givens updater *)

Section GivensProperties.
Context {Scalar magnitudeType : Type}.
Context {STS : ScalarTraits Scalar magnitudeType}.
Context {blas : BLAS Scalar}.
Context {lapack : LAPACK Scalar magnitudeType}.

Local Abbreviation mat_type := (SerialDenseMatrix Scalar).
Local Abbreviation problem_type := (ProjectedLeastSquaresProblem Scalar).

(** The body of the loop of [updateColumnsGivens]. *)
Local Abbreviation panelBody Hm :=
  (fun (curCol : Z)
       '((R, y, z, theCosines, theSines, lastResult)
         : mat_type * mat_type * mat_type * list Scalar * list Scalar
           * magnitudeType) =>
     updateColumnGivens Hm R y z theCosines theSines curCol).

Lemma panel_steps (n : nat) (problem : problem_type) (k : Z)
    (lastResult : magnitudeType) :
  for_steps (S n) k (panelBody (H problem))
    (R problem, y problem, z problem, theCosines problem, theSines problem,
     lastResult)
  ≫= (fun out => Ok (updated problem out))
  = updateColumnEach problem k n.
Proof.
  revert problem k lastResult.
  induction n as [|n IH]; intros problem k lastResult.
  - simpl. unfold updateColumn.
    destruct (updateColumnGivens _ _ _ _ _ _ _) as [out|e]; simpl;
      [|reflexivity].
    destruct (updated problem out) as [problem' norm]. reflexivity.
  - change (for_steps (S (S n)) k (panelBody (H problem))
              (R problem, y problem, z problem, theCosines problem,
               theSines problem, lastResult))
      with (updateColumnGivens (H problem) (R problem) (y problem)
              (z problem) (theCosines problem) (theSines problem) k
            ≫= for_steps (S n) (k + 1) (panelBody (H problem))).
    change (updateColumnEach problem k (S n))
      with (updateColumn problem k
            ≫= (fun '(problem', norm) =>
                   updateColumnEach problem' (k + 1) n)).
    unfold updateColumn.
    destruct (updateColumnGivens _ _ _ _ _ _ _) as [out|e]; [|reflexivity].
    destruct out as [[[[[R' y'] z'] c'] s'] norm].
    change (for_steps (S n) (k + 1) (panelBody (H problem))
              (R', y', z', c', s', norm)
            ≫= (fun out => Ok (updated problem out))
            = updateColumnEach (mkProblem (H problem) R' y' z' c' s')
                (k + 1) n).
    rewrite <- (IH (mkProblem (H problem) R' y' z' c' s') (k + 1) norm).
    reflexivity.
Qed.

Lemma updateColumns_each (problem : problem_type) (startCol endCol : Z) :
  startCol <= endCol ->
  updateColumns problem startCol endCol
  = updateColumnEach problem startCol (Z.to_nat (endCol - startCol)).
Proof.
  intros Hle. unfold updateColumns, updateColumnsGivens.
  destruct (Z.ltb_spec endCol startCol) as [Hlt|_]; [lia|].
  change (TEST_FOR_EXCEPTION false invalid_argument;; ?k) with k.
  unfold for_range.
  replace (Z.to_nat (endCol + 1 - startCol))
    with (S (Z.to_nat (endCol - startCol))) by lia.
  apply panel_steps.
Qed.

(** *** A single column *)

Lemma validColumn_spec (problem : problem_type) (curCol : Z) :
  validColumn problem curCol = true ->
  0 <= curCol
  /\ fits (H problem) = true /\ fits (R problem) = true
  /\ fits (z problem) = true
  /\ curCol + 2 <= numRows (H problem) /\ curCol + 1 <= numCols (H problem)
  /\ curCol + 2 <= numRows (R problem) /\ curCol + 1 <= numCols (R problem)
  /\ curCol + 2 <= numRows (z problem) /\ 1 <= numCols (z problem)
  /\ curCol < Z.of_nat (length (theCosines problem))
  /\ curCol < Z.of_nat (length (theSines problem)).
Proof.
  unfold validColumn. rewrite !andb_true_iff, !Z.leb_le, !Z.ltb_lt. tauto.
Qed.

Lemma rotatedColumn_shape (Hm Rm R_col : mat_type)
    (cosines sines : list Scalar) (curCol : Z) :
  rotatedColumn Hm Rm cosines sines curCol = Ok R_col ->
  same_shape R_col (View Rm (curCol + 2) 1 0 curCol).
Proof.
  unfold rotatedColumn. intros Hrun. inv_bind Hrun.
  apply assign_shape in Ha. revert Hrun.
  apply (for_range_post
           (fun Rc => same_shape Rc (View Rm (curCol + 2) 1 0 curCol)));
    [assumption|].
  intros j Rc Rc' Hpass HRc. inv_bind Hpass. injection Hpass as <-.
  apply ROT_length in Ha4.
  destruct HRc as (? & ? & ? & ? & ?). repeat split; simpl in *; congruence.
Qed.

Lemma rotatedColumn_Ok (Hm Rm : mat_type) (cosines sines : list Scalar)
    (curCol : Z) :
  0 <= curCol -> fits Hm = true -> fits Rm = true ->
  curCol + 2 <= numRows Hm -> curCol + 1 <= numCols Hm ->
  curCol + 2 <= numRows Rm -> curCol + 1 <= numCols Rm ->
  curCol < Z.of_nat (length cosines) -> curCol < Z.of_nat (length sines) ->
  exists R_col, rotatedColumn Hm Rm cosines sines curCol = Ok R_col.
Proof.
  intros Hk HfH HfR HrH HcH HrR HcR Hcos Hsin.
  assert (HvR : fits (View Rm (curCol + 2) 1 0 curCol) = true)
    by (apply fits_View; auto; lia).
  assert (HvH : fits (View Hm (curCol + 2) 1 0 curCol) = true)
    by (apply fits_View; auto; lia).
  unfold rotatedColumn.
  destruct (assign_Ok _ _ HvR HvH) as [Rc0 HRc0].
  rewrite (bind_Ok_l _ _ _ HRc0).
  apply assign_shape in HRc0.
  destruct (for_range_keeps
              (fun Rc => same_shape Rc (View Rm (curCol + 2) 1 0 curCol))
              0 curCol
              (fun j R_col =>
                 theCosine ← load cosines j;
                 theSine ← load sines j;
                 px ← addr R_col j 0;
                 py ← addr R_col (j + 1) 0;
                 buf ← ROT 1 (buffer R_col) px (stride Rm) py (stride Rm)
                         theCosine theSine;
                 Ok (with_buffer R_col buf)) Rc0)
    as (Rc & Hrun & _); [assumption | | eauto].
  intros j Rc Hj HRc.
  pose proof (fits_same_shape _ _ HRc HvR) as HfRc.
  destruct HRc as (Hnr & Hnc & Hst & Hoff & Hlen). simpl in Hnr, Hnc.
  destruct (load_Ok cosines j) as [c Hc]; [lia|].
  destruct (load_Ok sines j) as [sn Hs]; [lia|].
  rewrite (bind_Ok_l _ _ _ Hc), (bind_Ok_l _ _ _ Hs).
  rewrite (bind_Ok_l _ _ _ (addr_Ok Rc j 0 ltac:(lia) ltac:(lia))).
  rewrite (bind_Ok_l _ _ _ (addr_Ok Rc (j + 1) 0 ltac:(lia) ltac:(lia))).
  destruct (ROT_Ok 1 (buffer Rc) (offset Rc + j + 0 * stride Rc) (stride Rm)
              (offset Rc + (j + 1) + 0 * stride Rc) (stride Rm) c sn)
    as [buf Hbuf].
  - intros i Hi. assert (i = 0) as -> by lia.
    pose proof (fits_index Rc j 0 HfRc ltac:(lia) ltac:(lia)).
    pose proof (fits_index Rc (j + 1) 0 HfRc ltac:(lia) ltac:(lia)).
    lia.
  - rewrite (bind_Ok_l _ _ _ Hbuf). eexists. split; [reflexivity|].
    apply ROT_length in Hbuf. repeat split; simpl in *; congruence.
Qed.

(** What a successful [updateColumnGivens] has done, read off its steps. *)
Lemma updateColumnGivens_inv (Hm Rm ym zm : mat_type)
    (cosines sines : list Scalar) (curCol : Z)
    (R' y' z' : mat_type) (cosines' sines' : list Scalar)
    (norm : magnitudeType) :
  updateColumnGivens Hm Rm ym zm cosines sines curCol
  = Ok (R', y', z', cosines', sines', norm) ->
  exists R_col x0 x1 R1 R2 last,
    rotatedColumn Hm Rm cosines sines curCol = Ok R_col
    /\ elem R_col curCol 0 = Ok x0
    /\ elem R_col (curCol + 1) 0 = Ok x1
    /\ store cosines curCol (computeGivensRotation x0 x1).1.1 = Ok cosines'
    /\ store sines curCol (computeGivensRotation x0 x1).1.2 = Ok sines'
    /\ setElem R_col curCol 0 (computeGivensRotation x0 x1).2 = Ok R1
    /\ setElem R1 (curCol + 1) 0 STS_zero = Ok R2
    /\ R' = with_buffer Rm (buffer R2)
    /\ y' = ym
    /\ same_shape z' zm
    /\ elem z' (curCol + 1) 0 = Ok last
    /\ norm = STS_magnitude last.
Proof.
  unfold updateColumnGivens. intros Hrun. inv_bind Hrun.
  destruct (computeGivensRotation a0 a1) as [[c sn] r] eqn:Hrot.
  inv_bind Hrun. injection Hrun as <- <- <- <- <- <-.
  exists a, a0, a1, a4, a5, a9. rewrite Hrot. simpl.
  replace (curCol + 2 - 1) with (curCol + 1) in Ha9 by lia.
  apply ROT_length in Ha8.
  repeat split; auto.
Qed.

Lemma updateColumnGivens_Ok (problem : problem_type) (curCol : Z) :
  validColumn problem curCol = true ->
  exists out,
    updateColumnGivens (H problem) (R problem) (y problem) (z problem)
      (theCosines problem) (theSines problem) curCol = Ok out.
Proof.
  intros Hv. apply validColumn_spec in Hv
    as (Hk & HfH & HfR & Hfz & HrH & HcH & HrR & HcR & Hrz & Hcz & Hcos & Hsin).
  destruct (rotatedColumn_Ok (H problem) (R problem) (theCosines problem)
              (theSines problem) curCol) as [Rc HRc]; auto.
  unfold updateColumnGivens. rewrite (bind_Ok_l _ _ _ HRc).
  apply rotatedColumn_shape in HRc.
  assert (HvR : fits (View (R problem) (curCol + 2) 1 0 curCol) = true)
    by (apply fits_View; auto; lia).
  pose proof (fits_same_shape _ _ HRc HvR) as HfRc.
  pose proof HRc as (Hnr & Hnc & _). simpl in Hnr, Hnc.
  destruct (elem_Ok Rc curCol 0 HfRc) as [x0 Hx0]; [lia | lia |].
  destruct (elem_Ok Rc (curCol + 1) 0 HfRc) as [x1 Hx1]; [lia | lia |].
  rewrite (bind_Ok_l _ _ _ Hx0), (bind_Ok_l _ _ _ Hx1).
  destruct (computeGivensRotation x0 x1) as [[c sn] r].
  rewrite (bind_Ok_l _ _ _ (store_Ok (theCosines problem) curCol c
                              ltac:(lia))).
  rewrite (bind_Ok_l _ _ _ (store_Ok (theSines problem) curCol sn
                              ltac:(lia))).
  destruct (setElem_Ok Rc curCol 0 r HfRc) as [R1 HR1]; [lia | lia |].
  rewrite (bind_Ok_l _ _ _ HR1). apply setElem_shape in HR1.
  pose proof (fits_same_shape _ _ HR1 HfRc) as HfR1.
  pose proof HR1 as (Hnr1 & Hnc1 & _).
  destruct (setElem_Ok R1 (curCol + 1) 0 STS_zero HfR1) as [R2 HR2];
    [lia | lia |].
  rewrite (bind_Ok_l _ _ _ HR2).
  rewrite (bind_Ok_l _ _ _ (addr_Ok (z problem) curCol 0
                              ltac:(lia) ltac:(lia))).
  rewrite (bind_Ok_l _ _ _ (addr_Ok (z problem) (curCol + 1) 0
                              ltac:(lia) ltac:(lia))).
  destruct (ROT_Ok (numCols (z problem)) (buffer (z problem))
              (offset (z problem) + curCol + 0 * stride (z problem))
              (stride (z problem))
              (offset (z problem) + (curCol + 1) + 0 * stride (z problem))
              (stride (z problem)) c sn) as [zbuf Hzbuf].
  - intros i Hi.
    pose proof (fits_index (z problem) curCol i Hfz ltac:(lia) ltac:(lia)).
    pose proof (fits_index (z problem) (curCol + 1) i Hfz
                  ltac:(lia) ltac:(lia)).
    lia.
  - rewrite (bind_Ok_l _ _ _ Hzbuf). apply ROT_length in Hzbuf.
    assert (Hfz' : fits (with_buffer (z problem) zbuf) = true).
    { apply (fits_same_shape _ (z problem)); [|assumption].
      repeat split; assumption. }
    destruct (elem_Ok (with_buffer (z problem) zbuf) (curCol + 2 - 1) 0 Hfz')
      as [last Hlast]; [simpl; lia | simpl; lia |].
    rewrite (bind_Ok_l _ _ _ Hlast). eexists. reflexivity.
Qed.

Lemma elem_view_column (Rm Rc : mat_type) (curCol i : Z) :
  same_shape Rc (View Rm (curCol + 2) 1 0 curCol) ->
  0 <= i < curCol + 2 -> 0 <= i < numRows Rm -> 0 <= curCol < numCols Rm ->
  elem (with_buffer Rm (buffer Rc)) i curCol = elem Rc i 0.
Proof.
  intros (Hnr & Hnc & Hst & Hoff & _) Hi Hi' Hk. simpl in *.
  unfold elem.
  rewrite (addr_Ok (with_buffer Rm (buffer Rc)) i curCol) by (simpl; lia).
  rewrite (addr_Ok Rc i 0) by lia.
  change ((Ok ?p : result Z) ≫= ?f) with (f p). simpl.
  f_equal. lia.
Qed.

Lemma updateColumn_layout (problem problem' : problem_type) (curCol : Z)
    (norm : magnitudeType) :
  updateColumn problem curCol = Ok (problem', norm) ->
  same_layout problem' problem.
Proof.
  unfold updateColumn. intros Hrun. inv_bind Hrun.
  destruct a as [[[[[R' y'] z'] c'] s'] n']. injection Hrun as <- <-.
  apply updateColumnGivens_inv in Ha
    as (Rc & x0 & x1 & R1 & R2 & last & HRc & _ & _ & Hc & Hs & HR1 & HR2
        & -> & -> & Hz & _).
  apply rotatedColumn_shape in HRc. apply setElem_shape in HR1, HR2.
  apply store_length in Hc, Hs.
  pose proof (same_shape_trans _ _ _ HR2 (same_shape_trans _ _ _ HR1 HRc))
    as (_ & _ & _ & _ & Hlen).
  refine (conj eq_refl (conj eq_refl (conj _ (conj Hz (conj Hc Hs))))).
  repeat split; assumption.
Qed.

Lemma fits_shape_eq (A B : mat_type) : same_shape A B -> fits A = fits B.
Proof. unfold fits. intros (-> & -> & -> & -> & ->). reflexivity. Qed.

Lemma validColumn_layout (problem problem' : problem_type) (k : Z) :
  same_layout problem' problem ->
  validColumn problem' k = validColumn problem k.
Proof.
  intros (HH & _ & HR & Hz & Hc & Hs). unfold validColumn.
  rewrite HH, (fits_shape_eq _ _ HR), (fits_shape_eq _ _ Hz), Hc, Hs.
  destruct HR as (-> & -> & _). destruct Hz as (-> & -> & _). reflexivity.
Qed.

Lemma validColumn_mono (problem : problem_type) (k endCol : Z) :
  validColumn problem endCol = true -> 0 <= k <= endCol ->
  validColumn problem k = true.
Proof.
  unfold validColumn. rewrite !andb_true_iff, !Z.leb_le, !Z.ltb_lt.
  intros Hv Hk. repeat split; try tauto; lia.
Qed.

Lemma updateColumn_Ok (problem : problem_type) (curCol : Z) :
  validColumn problem curCol = true ->
  exists problem' norm, updateColumn problem curCol = Ok (problem', norm).
Proof.
  intros Hv. destruct (updateColumnGivens_Ok problem curCol Hv) as [out Ho].
  unfold updateColumn. rewrite (bind_Ok_l _ _ _ Ho).
  destruct (updated problem out) as [problem' norm]. eauto.
Qed.

Lemma updateColumnEach_snoc (problem : problem_type) (k : Z) (n : nat) :
  updateColumnEach problem k (S n)
  = updateColumnEach problem k n
    ≫= (fun '(before, _) => updateColumn before (k + Z.of_nat (S n))).
Proof.
  revert problem k. induction n as [|n IH]; intros problem k.
  - simpl. destruct (updateColumn problem k) as [[p1 n1]|e]; simpl;
      [|reflexivity].
    change (k + Z.of_nat 1) with (k + 1).
    destruct (updateColumn p1 (k + 1)) as [[p2 n2]|e]; reflexivity.
  - change (updateColumnEach problem k (S (S n)))
      with (updateColumn problem k
            ≫= (fun '(problem', norm) =>
                   updateColumnEach problem' (k + 1) (S n))).
    change (updateColumnEach problem k (S n))
      with (updateColumn problem k
            ≫= (fun '(problem', norm) =>
                   updateColumnEach problem' (k + 1) n)).
    destruct (updateColumn problem k) as [[p1 n1]|e]; [|reflexivity].
    change (updateColumnEach p1 (k + 1) (S n)
            = updateColumnEach p1 (k + 1) n
              ≫= (fun '(before, _) =>
                     updateColumn before (k + Z.of_nat (S (S n))))).
    rewrite (IH p1 (k + 1)).
    replace (k + 1 + Z.of_nat (S n)) with (k + Z.of_nat (S (S n))) by lia.
    reflexivity.
Qed.

Lemma updateColumnEach_Ok (n : nat) (problem : problem_type) (k : Z) :
  0 <= k -> validColumn problem (k + Z.of_nat n) = true ->
  exists problem' norm,
    updateColumnEach problem k n = Ok (problem', norm)
    /\ same_layout problem' problem.
Proof.
  revert problem k. induction n as [|n IH]; intros problem k Hk Hv.
  - change (k + Z.of_nat 0) with (k + 0) in Hv. rewrite Z.add_0_r in Hv.
    destruct (updateColumn_Ok problem k Hv) as (p1 & n1 & H1).
    exists p1, n1. simpl. rewrite H1. simpl. split; [reflexivity|].
    eapply updateColumn_layout; eassumption.
  - destruct (updateColumn_Ok problem k) as (p1 & n1 & H1).
    { apply (validColumn_mono problem k _ Hv). lia. }
    pose proof (updateColumn_layout _ _ _ _ H1) as Hl1.
    destruct (IH p1 (k + 1)) as (p2 & n2 & H2 & Hl2); [lia | |].
    { rewrite (validColumn_layout _ _ _ Hl1).
      replace (k + 1 + Z.of_nat n) with (k + Z.of_nat (S n)) by lia.
      assumption. }
    exists p2, n2. split.
    + change (updateColumnEach problem k (S n))
        with (updateColumn problem k
              ≫= (fun '(problem', norm) =>
                     updateColumnEach problem' (k + 1) n)).
      rewrite H1. exact H2.
    + destruct Hl1 as (? & ? & ? & ? & ? & ?).
      destruct Hl2 as (? & ? & ? & ? & ? & ?).
      unfold same_layout.
      repeat split; try congruence; eapply same_shape_trans; eassumption.
Qed.

Lemma updateColumn_norm (problem problem' : problem_type) (curCol : Z)
    (norm : magnitudeType) :
  updateColumn problem curCol = Ok (problem', norm) ->
  exists last,
    elem (z problem') (curCol + 1) 0 = Ok last
    /\ norm = STS_magnitude last.
Proof.
  unfold updateColumn. intros Hrun. inv_bind Hrun.
  destruct a as [[[[[R' y'] z'] c'] s'] n']. injection Hrun as <- <-.
  apply updateColumnGivens_inv in Ha
    as (_ & _ & _ & _ & _ & last & _ & _ & _ & _ & _ & _ & _ & _ & _ & _
        & Hlast & Hnorm).
  exists last. auto.
Qed.

(** The last column of a panel: the panel update is the update of the
    columns before the last one followed by [updateColumn] on the last. *)
Lemma updateColumns_last (problem : problem_type) (startCol endCol : Z) :
  0 <= startCol <= endCol ->
  validColumn problem endCol = true ->
  exists before problem' norm,
    beforeLastColumn problem startCol endCol before
    /\ same_layout before problem
    /\ updateColumn before endCol = Ok (problem', norm)
    /\ updateColumns problem startCol endCol = Ok (problem', norm).
Proof.
  intros Hse Hv. rewrite updateColumns_each by lia.
  destruct (Z.eq_dec startCol endCol) as [->|Hne].
  - destruct (updateColumn_Ok problem endCol Hv) as (p' & n' & Hrun).
    exists problem, p', n'. split; [left; auto|].
    split; [repeat split|]. split; [assumption|].
    replace (Z.to_nat (endCol - endCol)) with 0%nat by lia.
    simpl. rewrite Hrun. reflexivity.
  - remember (Z.to_nat (endCol - 1 - startCol)) as m eqn:Hm.
    replace (Z.to_nat (endCol - startCol)) with (S m) by lia.
    rewrite updateColumnEach_snoc.
    replace (startCol + Z.of_nat (S m)) with endCol by lia.
    destruct (updateColumnEach_Ok m problem startCol)
      as (before & n0 & Hbefore & Hl); [lia | |].
    { apply (validColumn_mono problem _ endCol Hv). lia. }
    destruct (updateColumn_Ok before endCol) as (p' & n' & Hrun).
    { rewrite (validColumn_layout _ _ _ Hl). assumption. }
    exists before, p', n'. split.
    { right. split; [lia|]. exists n0.
      rewrite updateColumns_each by lia. rewrite <- Hm. assumption. }
    split; [assumption|]. split; [assumption|].
    rewrite Hbefore. exact Hrun.
Qed.

(** C1.  Panel equivalence: for [startCol <= endCol], [updateColumns
    (problem, startCol, endCol)] gives the same outcome, that is the same
    [R], [z], cosines, sines (the whole problem) and the same residual
    norm, as [updateColumn (problem, k)] called for [k = startCol],
    [startCol + 1], ..., [endCol] in increasing order, each call on the
    problem the previous one left. *)
Theorem updateColumns_panel_equivalence (problem : problem_type)
    (startCol endCol : Z) :
  startCol <= endCol ->
  updateColumns problem startCol endCol
  = updateColumnEach problem startCol (Z.to_nat (endCol - startCol)).
Proof.
  intros Hle. unfold updateColumns, updateColumnsGivens.
  (* the test of the range passes *)
  destruct (Z.ltb_spec endCol startCol) as [Hlt|_]; [lia|].
  change (TEST_FOR_EXCEPTION false invalid_argument;; ?k) with k.
  (* the loop makes [endCol - startCol + 1] passes *)
  unfold for_range.
  replace (Z.to_nat (endCol + 1 - startCol))
    with (S (Z.to_nat (endCol - startCol))) by lia.
  (* each pass is one [updateColumn], by induction on their number *)
  apply panel_steps.
Qed.

(** C2.  Zero forcing: for a valid column [curCol], [updateColumn
    (problem, curCol)] returns, and afterwards [R(curCol+1, curCol)] is
    exactly [STS::zero ()] and [R(curCol, curCol)] is the result that the
    rotation generator gives for the two entries [x0], [x1] that the column
    has in the rows [curCol] and [curCol+1] once the earlier rotations are
    applied; this result is the first output of [_ROTG]. *)
Theorem updateColumn_zero_forcing (problem : problem_type) (curCol : Z) :
  validColumn problem curCol = true ->
  exists problem' norm R_col x0 x1,
    updateColumn problem curCol = Ok (problem', norm)
    /\ elem (R problem') (curCol + 1) curCol = Ok STS_zero
    /\ rotatedColumn (H problem) (R problem) (theCosines problem)
         (theSines problem) curCol = Ok R_col
    /\ elem R_col curCol 0 = Ok x0
    /\ elem R_col (curCol + 1) 0 = Ok x1
    /\ elem (R problem') curCol curCol
       = Ok (computeGivensRotation x0 x1).2
    /\ (computeGivensRotation x0 x1).2 = (ROTG x0 x1).1.1.1.
Proof.
  intros Hv. destruct (updateColumnGivens_Ok problem curCol Hv) as [out Ho].
  destruct out as [[[[[R' y'] z'] c'] s'] n'].
  pose proof Ho as Hinv.
  apply updateColumnGivens_inv in Hinv
    as (Rc & x0 & x1 & R1 & R2 & last & HRc & Hx0 & Hx1 & _ & _ & HR1 & HR2
        & -> & _).
  apply validColumn_spec in Hv
    as (Hk & _ & HfR & _ & _ & _ & HrR & HcR & _).
  exists (mkProblem (H problem) (with_buffer (R problem) (buffer R2)) y' z'
            c' s'), n', Rc, x0, x1.
  pose proof (rotatedColumn_shape _ _ _ _ _ _ HRc) as HsRc.
  pose proof (setElem_shape _ _ _ _ _ HR1) as HsR1.
  pose proof (setElem_shape _ _ _ _ _ HR2) as HsR2.
  pose proof (same_shape_trans _ _ _ HsR2 (same_shape_trans _ _ _ HsR1 HsRc))
    as HsR2'.
  split; [unfold updateColumn; rewrite Ho; reflexivity|].
  split.
  { simpl. rewrite (elem_view_column (R problem) R2 curCol (curCol + 1))
      by (auto; lia).
    eapply elem_setElem_eq; eassumption. }
  split; [assumption|]. split; [assumption|]. split; [assumption|].
  split.
  { simpl. rewrite (elem_view_column (R problem) R2 curCol curCol)
      by (auto; lia).
    rewrite (elem_setElem_ne R1 R2 (curCol + 1) 0 curCol 0 _ HR2).
    - eapply elem_setElem_eq; eassumption.
    - lia.
    - destruct HsR1 as (_ & _ & -> & -> & _).
      destruct HsRc as (_ & _ & -> & -> & _). simpl.
      pose proof (proj1 (fits_spec (R problem)) HfR) as (_ & _ & ? & ? & _).
      nia. }
  unfold computeGivensRotation. simpl.
  destruct (ROTG x0 x1) as [[[r zz] c] sn]. reflexivity.
Qed.

(** C4.  The frame of the update: for a valid column, and for a valid
    panel, [updateColumn] and [updateColumns] return and leave the
    Hessenberg matrix [H] and the solution vector [y] of the problem as
    they were; what may differ afterwards is [R], [z] and the two rotation
    arrays. *)
Theorem updateColumn_frame (problem : problem_type) (startCol endCol : Z) :
  0 <= startCol <= endCol ->
  validColumn problem endCol = true ->
  (exists problem' norm,
     updateColumn problem endCol = Ok (problem', norm)
     /\ H problem' = H problem /\ y problem' = y problem)
  /\ (exists problem' norm,
        updateColumns problem startCol endCol = Ok (problem', norm)
        /\ H problem' = H problem /\ y problem' = y problem).
Proof.
  intros Hse Hv. split.
  - destruct (updateColumn_Ok problem endCol Hv) as (p' & n' & Hrun).
    destruct (updateColumn_layout _ _ _ _ Hrun) as (HH & Hy & _).
    exists p', n'. auto.
  - destruct (updateColumns_last problem startCol endCol Hse Hv)
      as (before & p' & n' & _ & (HH0 & Hy0 & _) & Hrun & Hpanel).
    destruct (updateColumn_layout _ _ _ _ Hrun) as (HH & Hy & _).
    exists p', n'. split; [assumption|]. split; congruence.
Qed.
End GivensProperties.

(** ** The triangular solver and the self-test *)

Section SolverProperties.
Context {Scalar magnitudeType : Type}.
Context {STS : ScalarTraits Scalar magnitudeType}.
Context {blas : BLAS Scalar}.
Context {lapack : LAPACK Scalar magnitudeType}.

Local Abbreviation mat_type := (SerialDenseMatrix Scalar).
Local Abbreviation problem_type := (ProjectedLeastSquaresProblem Scalar).

Lemma TEST_FOR_EXCEPTION_Ok (cond : bool) (e : exn) (u : unit) :
  TEST_FOR_EXCEPTION cond e = Ok u -> cond = false.
Proof. destruct cond; [discriminate | reflexivity]. Qed.

(** The copy of the right-hand side into [x] with which
    [solveUpperTriangularSystem] starts. *)
Local Abbreviation copiedRhs x b :=
  (if numCols x =? numCols b then assign x b
   else assign x (View b (numRows b) (numCols x) 0 0)).

Lemma copiedRhs_shape (x b x0 : mat_type) :
  copiedRhs x b = Ok x0 -> same_shape x0 x.
Proof. destruct (numCols x =? numCols b); apply assign_shape. Qed.

(** *** Robustness 1 *)

Lemma countRank_steps (Rm : mat_type) (cnorm : list magnitudeType)
    (n : nat) (i rank0 rank : Z) :
  for_steps n i
    (fun j rank =>
       rjj ← elem Rm j j;
       if STS_eqb rjj STS_zero then
         if j =? 0 then Ok (rank - 1)
         else
           cj ← load cnorm j;
           if STM_eqb cj STM_zero then Ok (rank - 1) else Ok rank
       else Ok rank) rank0 = Ok rank ->
  rank
  = rank0
    - Z.of_nat (length (List.filter (deficientColumn Rm cnorm)
                          (seqZ i (Z.of_nat n)))).
Proof.
  revert i rank0. induction n as [|n IH]; intros i rank0 Hrun.
  - simpl in Hrun. injection Hrun as <-. simpl. lia.
  - change (for_steps (S n) i ?body rank0)
      with (body i rank0 ≫= for_steps n (i + 1) body) in Hrun.
    apply bind_Ok in Hrun as (rank1 & Hpass & Hrun).
    apply IH in Hrun.
    rewrite seqZ_cons by lia.
    replace (Z.succ i) with (i + 1) by lia.
    replace (Z.pred (Z.of_nat (S n))) with (Z.of_nat n) by lia.
    simpl. unfold deficientColumn at 1.
    apply bind_Ok in Hpass as (rjj & Hrjj & Hpass). rewrite Hrjj.
    destruct (STS_eqb rjj STS_zero); simpl.
    + destruct (i =? 0); simpl.
      * injection Hpass as <-. simpl. lia.
      * apply bind_Ok in Hpass as (cj & Hcj & Hpass). rewrite Hcj.
        destruct (STM_eqb cj STM_zero); injection Hpass as <-; simpl; lia.
    + injection Hpass as <-. lia.
Qed.

Lemma countRank_spec (Rm : mat_type) (cnorm : list magnitudeType)
    (N rank : Z) :
  countRank Rm cnorm N = Ok rank ->
  rank
  = N - Z.of_nat (length (List.filter (deficientColumn Rm cnorm)
                            (seqZ 0 N))).
Proof.
  intros Hrun. unfold countRank, for_range in Hrun.
  apply countRank_steps in Hrun.
  replace (seqZ 0 (Z.of_nat (Z.to_nat (N - 0)))) with (seqZ 0 N) in Hrun;
    [assumption|].
  unfold seqZ. rewrite Nat2Z.id, Z.sub_0_r. reflexivity.
Qed.

Lemma latrsColumn_inv (x Rm : mat_type) (N j : Z)
    (xbuf xbuf' : list Scalar) (scale scale' : magnitudeType)
    (cnorm cnorm' : list magnitudeType) (normin normin' found found' : bool) :
  latrsColumn x Rm N j (xbuf, scale, cnorm, normin, found)
  = Ok (xbuf', scale', cnorm', normin', found') ->
  found' = (STM_eqb scale' STM_zero || found).
Proof.
  unfold latrsColumn. intros Hrun. inv_bind Hrun.
  destruct (LATRS _ _ _ _ _ _ _ _) as [[[xs sc] cn] info].
  inv_bind Hrun. injection Hrun as <- <- <- <- <-.
  destruct (STM_eqb sc STM_zero); reflexivity.
Qed.

Lemma latrs_loop_trace (x Rm : mat_type) (N : Z) (n : nat) (j : Z)
    (st st' : list Scalar * magnitudeType * list magnitudeType * bool * bool) :
  for_steps n j (latrsColumn x Rm N) st = Ok st' ->
  exists scales,
    latrsTrace x Rm N n j st = Ok (scales, st'.1.1.2)
    /\ st'.2
       = (existsb (fun s => STM_eqb s STM_zero) scales || st.2).
Proof.
  revert j st. induction n as [|n IH]; intros j st Hrun.
  - simpl in Hrun. injection Hrun as <-. exists []. split; reflexivity.
  - change (for_steps (S n) j (latrsColumn x Rm N) st)
      with (latrsColumn x Rm N j st ≫= for_steps n (j + 1) (latrsColumn x Rm N))
      in Hrun.
    apply bind_Ok in Hrun as (st1 & Hpass & Hrun).
    destruct (IH _ _ Hrun) as (scales & Htrace & Hfound).
    exists (st1.1.1.1.2 :: scales). split.
    + change (latrsTrace x Rm N (S n) j st)
        with (latrsColumn x Rm N j st
              ≫= (fun st' =>
                     latrsTrace x Rm N n (j + 1) st'
                     ≫= (fun '(scales, cnorm) =>
                            Ok (st'.1.1.1.2 :: scales, cnorm)))).
      rewrite Hpass. change (Ok st1 ≫= ?f) with (f st1).
      cbv beta. rewrite Htrace. reflexivity.
    + rewrite Hfound.
      destruct st as [[[[xb sc] cn] nm] fd].
      destruct st1 as [[[[xb1 sc1] cn1] nm1] fd1].
      apply latrsColumn_inv in Hpass. simpl. rewrite Hpass.
      destruct (STM_eqb sc1 STM_zero), (existsb _ scales), fd; reflexivity.
Qed.

Lemma writeBack_Ok {A : Type} (buf : list A) (p n : Z) (vals : list A) :
  0 <= p -> p + n <= Z.of_nat (length buf) ->
  exists buf', writeBack buf p n vals = Ok buf' /\ length buf' = length buf.
Proof.
  intros Hp Hn. unfold writeBack.
  apply (for_range_keeps (fun d => length d = length buf)); [reflexivity|].
  intros i d Hi Hd. destruct (vals !! Z.to_nat i) as [v|]; [|eauto].
  rewrite store_Ok by lia. eexists. split; [reflexivity|].
  rewrite length_insert. assumption.
Qed.

Lemma latrsColumn_Ok (x Rm : mat_type) (N j : Z) (xbuf : list Scalar)
    (scale : magnitudeType) (cnorm : list magnitudeType)
    (normin found : bool) :
  (forall normin n A aoff lda xb xoff cn,
     (LATRS normin n A aoff lda xb xoff cn).2 = 0) ->
  fits x = true -> 1 <= N <= numRows x -> 0 <= j < numCols x ->
  length xbuf = length (buffer x) -> length cnorm = Z.to_nat N ->
  exists xbuf' scale' cnorm' found',
    latrsColumn x Rm N j (xbuf, scale, cnorm, normin, found)
    = Ok (xbuf', scale', cnorm', true, found')
    /\ length xbuf' = length (buffer x) /\ length cnorm' = Z.to_nat N.
Proof.
  intros Hinfo Hf HN Hj Hx Hc. unfold latrsColumn.
  rewrite (bind_Ok_l _ _ _ (addr_Ok (with_buffer x xbuf) 0 j
                              ltac:(simpl; lia) ltac:(simpl; lia))).
  destruct (load_Ok cnorm 0) as [c0 Hc0]; [lia|].
  rewrite (bind_Ok_l _ _ _ Hc0). simpl offset. simpl stride.
  pose proof (Hinfo normin N (buffer Rm) (offset Rm) (stride Rm) xbuf
                (offset x + 0 + j * stride x) cnorm) as Hi.
  destruct (LATRS _ _ _ _ _ _ _ _) as [[[xs sc] cn] info]. simpl in Hi.
  subst info.
  pose proof (fits_index x (N - 1) j Hf ltac:(lia) ltac:(lia)) as Hlast.
  pose proof (fits_index x 0 j Hf ltac:(lia) ltac:(lia)) as Hfirst.
  destruct (writeBack_Ok xbuf (offset x + 0 + j * stride x) N xs)
    as (xbuf' & Hxb & Hxl); [lia | lia |].
  destruct (writeBack_Ok cnorm 0 N cn) as (cnorm' & Hcb & Hcl);
    [lia | lia |].
  rewrite (bind_Ok_l _ _ _ Hxb), (bind_Ok_l _ _ _ Hcb).
  change (0 =? 0) with true. simpl.
  eexists _, _, _, _. split; [reflexivity|]. split; congruence.
Qed.

Lemma countRank_Ok (Rm : mat_type) (cnorm : list magnitudeType) (N : Z) :
  fits Rm = true -> N <= numRows Rm -> N = numCols Rm ->
  length cnorm = Z.to_nat N ->
  exists rank, countRank Rm cnorm N = Ok rank.
Proof.
  intros Hf Hr HN Hc. unfold countRank.
  destruct (for_range_keeps (fun _ : Z => True) 0 N
    (fun j rank =>
       rjj ← elem Rm j j;
       if STS_eqb rjj STS_zero then
         if j =? 0 then Ok (rank - 1)
         else
           cj ← load cnorm j;
           if STM_eqb cj STM_zero then Ok (rank - 1) else Ok rank
       else Ok rank) N) as (rank & Hrun & _); [exact I | | eauto].
  intros j rank Hj _.
  destruct (elem_Ok Rm j j Hf) as [rjj Hrjj]; [lia | lia |].
  rewrite (bind_Ok_l _ _ _ Hrjj).
  destruct (STS_eqb rjj STS_zero); [|eauto].
  destruct (j =? 0); [eauto|].
  destruct (load_Ok cnorm j) as [cj Hcj]; [lia|].
  rewrite (bind_Ok_l _ _ _ Hcj).
  destruct (STM_eqb cj STM_zero); eauto.
Qed.

Lemma copiedRhs_Ok (x b : mat_type) :
  fits x = true -> fits b = true -> numCols x <= numCols b ->
  exists x0, copiedRhs x b = Ok x0.
Proof.
  intros Hx Hb Hc. destruct (numCols x =? numCols b).
  - apply assign_Ok; assumption.
  - apply assign_Ok; [assumption|].
    pose proof (proj1 (fits_spec x) Hx) as (_ & ? & _).
    pose proof (proj1 (fits_spec b) Hb) as (? & _).
    apply fits_View; auto; lia.
Qed.

(** C7.  Robustness 1.  Whenever the solver returns, the rank it reports
    is [N] less the number of the columns [j] of [R] that it counts.  The
    first column is counted whenever [R(0,0)] is zero: it is exempt from the
    test of the norm, not from being counted.  Any other column is counted
    when [R(j,j)] is zero and [cnorm[j]] is zero, where [cnorm] is the array
    as the [_LATRS] calls left it, one call for each column of [x]; when [x]
    has no column there is no call, [cnorm] is still the zero array it was
    created as, and every column with a zero diagonal entry is counted.
    [foundRankDeficiency] is true exactly when this rank is below [N] or
    the scale factor of one of the [_LATRS] solves is zero.  And the solver
    does return when the dimensions agree, the system has a column, and no
    [_LATRS] call reports an error. *)
Theorem rank_aware_solve_spec (x Rm b : mat_type) :
  let N := numCols Rm in
  (forall x' detectedRank foundRankDeficiency,
     solveUpperTriangularSystem x Rm b 1
     = Ok (x', (detectedRank, foundRankDeficiency)) ->
     exists x0 scales cnorm,
       copiedRhs x b = Ok x0
       /\ latrsTrace x0 Rm N (Z.to_nat (numCols x0)) 0
            (buffer x0, STM_one, replicate (Z.to_nat N) STM_zero,
             false, false)
          = Ok (scales, cnorm)
       /\ detectedRank
          = N - Z.of_nat (length (List.filter (deficientColumn Rm cnorm)
                                    (seqZ 0 N)))
       /\ foundRankDeficiency
          = ((detectedRank <? N)
             || existsb (fun s => STM_eqb s STM_zero) scales)
       /\ (forall j, 0 <= j < N ->
             (deficientColumn Rm cnorm j = true
              <-> exists rjj,
                    elem Rm j j = Ok rjj
                    /\ STS_eqb rjj STS_zero = true
                    /\ (j = 0
                        \/ exists cj,
                             load cnorm j = Ok cj
                             /\ STM_eqb cj STM_zero = true)))
       /\ (numCols x <= 0 ->
           scales = [] /\ cnorm = replicate (Z.to_nat N) STM_zero))
  /\ ((forall normin n A aoff lda xb xoff cn,
         (LATRS normin n A aoff lda xb xoff cn).2 = 0) ->
      fits x = true -> fits Rm = true -> fits b = true ->
      numCols x <= numCols b -> N <= numRows b -> N <= numRows x ->
      N <= numRows Rm -> 1 <= N ->
      exists x' detectedRank foundRankDeficiency,
        solveUpperTriangularSystem x Rm b 1
        = Ok (x', (detectedRank, foundRankDeficiency))).
Proof.
  intros N. split.
  - intros x' rank found Hrun.
    unfold solveUpperTriangularSystem in Hrun. fold N in Hrun.
    inv_bind Hrun.
    change (1 =? 0) with false in Hrun. change (1 =? 1) with true in Hrun.
    cbv iota in Hrun.
    apply bind_Ok in Hrun as (st & Hloop & Hrun).
    destruct st as [[[[xbuf sc] cn] nm] fd].
    apply bind_Ok in Hrun as (rank' & Hrank & Hrun).
    injection Hrun as <- <- <-.
    unfold for_range in Hloop. rewrite Z.sub_0_r in Hloop.
    destruct (latrs_loop_trace _ _ _ _ _ _ _ Hloop)
      as (scales & Htrace & Hfound).
    simpl in Htrace, Hfound.
    exists a5, scales, cn. split; [assumption|]. split; [assumption|].
    split; [apply countRank_spec; assumption|].
    split; [rewrite Hfound, orb_false_r; destruct (rank' <? N); reflexivity|].
    split.
    + intros j Hj. unfold deficientColumn.
      destruct (elem Rm j j) as [rjj|e].
      * rewrite andb_true_iff, orb_true_iff, Z.eqb_eq. split.
        -- intros [Hz Hrest]. exists rjj. split; [reflexivity|].
           split; [assumption|]. destruct Hrest as [Hj0|Hc]; [auto|].
           right. destruct (load cn j) as [cj|e]; [eauto | discriminate].
        -- intros (r & Hr & Hz & Hrest). injection Hr as <-.
           split; [assumption|].
           destruct Hrest as [Hj0|(cj & Hcj & Hc)]; [auto|].
           right. rewrite Hcj. assumption.
      * split; [discriminate|]. intros (r & Hr & _). discriminate.
    + intros Hnone.
      pose proof (copiedRhs_shape _ _ _ Ha5) as (_ & Hnc0 & _).
      replace (Z.to_nat (numCols a5)) with 0%nat in Htrace by lia.
      simpl in Htrace. injection Htrace as <- <-. auto.
  - intros Hinfo Hfx HfR Hfb Hcols Hrb Hrx HrR HN.
    unfold solveUpperTriangularSystem. fold N.
    destruct (Z.ltb_spec (numCols b) (numCols x)); [lia|].
    destruct (Z.ltb_spec (numRows b) N); [lia|].
    destruct (Z.ltb_spec (numRows x) N); [lia|].
    destruct (Z.ltb_spec (numRows Rm) N); [lia|].
    change (TEST_FOR_EXCEPTION false invalid_argument;; ?k) with k.
    change (TEST_FOR_EXCEPTION ((1 <? 0) || (2 <? 1)) invalid_argument;; ?k)
      with k.
    destruct (copiedRhs_Ok x b Hfx Hfb Hcols) as [x0 Hx0].
    rewrite (bind_Ok_l _ _ _ Hx0).
    pose proof (copiedRhs_shape _ _ _ Hx0) as Hs0.
    pose proof (fits_same_shape _ _ Hs0 Hfx) as Hfx0.
    pose proof Hs0 as (Hnr0 & Hnc0 & _).
    change (1 =? 0) with false. change (1 =? 1) with true. cbv iota.
    destruct (for_range_keeps
      (fun st : list Scalar * magnitudeType * list magnitudeType * bool * bool =>
         length st.1.1.1.1 = length (buffer x0)
         /\ length st.1.1.2 = Z.to_nat N)
      0 (numCols x0) (latrsColumn x0 Rm N)
      (buffer x0, STM_one, replicate (Z.to_nat N) STM_zero, false, false))
      as (st & Hloop & Hlx & Hlc).
    + simpl. split; [reflexivity | apply length_replicate].
    + intros j st Hj (Hlx & Hlc).
      destruct st as [[[[xbuf sc] cn] nm] fd]. simpl in Hlx, Hlc.
      destruct (latrsColumn_Ok x0 Rm N j xbuf sc cn nm fd Hinfo Hfx0)
        as (xbuf' & sc' & cn' & fd' & Hpass & Hlx' & Hlc');
        [lia | lia | assumption | assumption |].
      eexists. split; [exact Hpass|]. simpl. auto.
    + rewrite (bind_Ok_l _ _ _ Hloop).
      destruct st as [[[[xbuf sc] cn] nm] fd]. simpl in Hlc.
      destruct (countRank_Ok Rm cn N HfR HrR eq_refl Hlc) as [rank Hrank].
      rewrite (bind_Ok_l _ _ _ Hrank). eauto.
Qed.

Lemma solveFast_Ok (x Rm b : mat_type) :
  fits x = true -> fits Rm = true -> fits b = true ->
  numCols x <= numCols b -> numCols Rm <= numRows b ->
  numCols Rm <= numRows x -> numCols Rm <= numRows Rm ->
  exists x',
    solveUpperTriangularSystem x Rm b 0 = Ok (x', (numCols Rm, false)).
Proof.
  intros Hfx HfR Hfb Hcols Hrb Hrx HrR.
  unfold solveUpperTriangularSystem.
  destruct (Z.ltb_spec (numCols b) (numCols x)); [lia|].
  destruct (Z.ltb_spec (numRows b) (numCols Rm)); [lia|].
  destruct (Z.ltb_spec (numRows x) (numCols Rm)); [lia|].
  destruct (Z.ltb_spec (numRows Rm) (numCols Rm)); [lia|].
  change (TEST_FOR_EXCEPTION false invalid_argument;; ?k) with k.
  change (TEST_FOR_EXCEPTION ((0 <? 0) || (2 <? 0)) invalid_argument;; ?k)
    with k.
  destruct (copiedRhs_Ok x b Hfx Hfb Hcols) as [x0 Hx0].
  rewrite (bind_Ok_l _ _ _ Hx0).
  pose proof (copiedRhs_shape _ _ _ Hx0) as Hs0.
  pose proof (fits_same_shape _ _ Hs0 Hfx) as Hfx0.
  destruct Hs0 as (Hnr0 & Hnc0 & Hst0 & _).
  change (0 =? 0) with true. cbv iota.
  destruct (TRSM_left_upper_Ok (numCols Rm) (numCols x) STS_one
              (buffer Rm) (offset Rm) (stride Rm)
              (buffer x0) (offset x0) (stride x)) as [buf Hbuf].
  - intros i j Hi Hj. rewrite <- Hst0.
    apply fits_index; [assumption | lia | lia].
  - intros i k Hi Hk. apply fits_index; [assumption | lia | lia].
  - rewrite (bind_Ok_l _ _ _ Hbuf). eauto.
Qed.

Lemma solve_Ok (problem : problem_type) (curCol : Z) :
  validSolve problem curCol = true ->
  exists problem', solve problem curCol = Ok problem'.
Proof.
  unfold validSolve. rewrite !andb_true_iff, !Z.leb_le.
  intros ((((((((Hk & Hfy) & HfR) & Hfz) & Hry) & HrR) & HcR) & Hrz) & Hc).
  pose proof (proj1 (fits_spec (y problem)) Hfy) as (_ & ? & _).
  pose proof (proj1 (fits_spec (z problem)) Hfz) as (_ & ? & _).
  unfold solve, solveGivens.
  replace (curCol + 2 - 1) with (curCol + 1) by lia.
  destruct (solveFast_Ok
              (View (y problem) (curCol + 1) (numCols (y problem)) 0 0)
              (View (R problem) (curCol + 1) (curCol + 1) 0 0)
              (View (z problem) (curCol + 1) (numCols (z problem)) 0 0))
    as [x' Hx']; try (apply fits_View; auto; lia); simpl; try lia.
  rewrite (bind_Ok_l _ _ _ Hx'). eauto.
Qed.

(** C10.  [solve (problem, curCol)] is the solve of the leading
    [curCol+1] by [curCol+1] block of [R] by [solveUpperTriangularSystem]
    at robustness 0, of which it keeps the solution and drops the pair
    [(detectedRank, foundRankDeficiency)]: the value of [solve] is the
    problem alone.  And at robustness 0 the solver is the plain
    triangular solve [_TRSM] on the copy of the right-hand side; whenever
    it returns, the pair is [(N, false)], whatever [R] holds.  On a
    problem that has the rows and columns the solve needs, [solve]
    returns. *)
Theorem solve_fast_policy (problem : problem_type) (curCol : Z) :
  (validSolve problem curCol = true ->
   exists problem', solve problem curCol = Ok problem')
  /\ solve problem curCol
  = solveUpperTriangularSystem
      (View (y problem) (curCol + 1) (numCols (y problem)) 0 0)
      (View (R problem) (curCol + 1) (curCol + 1) 0 0)
      (View (z problem) (curCol + 1) (numCols (z problem)) 0 0) 0
    ≫= (fun '(y_view, _) =>
           Ok (mkProblem (H problem) (R problem)
                 (with_buffer (y problem) (buffer y_view)) (z problem)
                 (theCosines problem) (theSines problem)))
  /\ forall (x Rm b x' : mat_type) (detectedRank : Z)
       (foundRankDeficiency : bool),
       solveUpperTriangularSystem x Rm b 0
       = Ok (x', (detectedRank, foundRankDeficiency)) ->
       detectedRank = numCols Rm /\ foundRankDeficiency = false
       /\ exists x0,
            copiedRhs x b = Ok x0
            /\ TRSM_left_upper (numCols Rm) (numCols x) STS_one
                 (buffer Rm) (offset Rm) (stride Rm)
                 (buffer x0) (offset x0) (stride x) = Ok (buffer x')
            /\ same_shape x' x.
Proof.
  split; [apply solve_Ok|]. split.
  - unfold solve, solveGivens.
    replace (curCol + 2 - 1) with (curCol + 1) by lia.
    destruct (solveUpperTriangularSystem _ _ _ 0) as [[y_view pair]|e];
      reflexivity.
  - intros x Rm b x' rank found Hrun.
    unfold solveUpperTriangularSystem in Hrun. inv_bind Hrun.
    change (0 =? 0) with true in Hrun. cbv iota in Hrun.
    inv_bind Hrun. injection Hrun as <- <- <-.
    pose proof (copiedRhs_shape _ _ _ Ha5) as Hs.
    apply TRSM_left_upper_length in Ha6 as Hlen.
    split; [reflexivity|]. split; [reflexivity|].
    exists a5. split; [assumption|]. split; [assumption|].
    destruct Hs as (? & ? & ? & ? & ?). repeat split; simpl; congruence.
Qed.

(** C9.  The verdict of the self-test, for a magnitude type in which
    [a <= b] is the negation of [b < a] on the values that are neither NaN
    nor infinite, and in which zero is such a value: [testUpdateColumn]
    returns true exactly when the bound [solutionErrorBound], which is
    [10 * sqrt (numRows * numCols) * leastSquaresCondNum * eps], is neither
    NaN nor infinite, neither of the two solution errors is, the error of
    the column-wise update is at most the bound, and so is the error of
    the panel update when it is tested. *)
Theorem testUpdateColumn_verdict_spec (numCols : Z) (testBlockGivens : bool)
    (leastSquaresCondNum givensSolutionError blockError : magnitudeType) :
  (forall a b, STM_isnaninf a = false -> STM_isnaninf b = false ->
     STM_leb a b = negb (STM_ltb b a)) ->
  STM_isnaninf STM_zero = false ->
  let blockGivensSolutionError :=
    if testBlockGivens then blockError else STM_zero in
  let bound := solutionErrorBound numCols leastSquaresCondNum in
  (testUpdateColumn_verdict numCols testBlockGivens leastSquaresCondNum
     givensSolutionError blockError = true
   <-> STM_isnaninf bound = false
       /\ STM_isnaninf givensSolutionError = false
       /\ STM_isnaninf blockGivensSolutionError = false
       /\ STM_leb givensSolutionError bound = true
       /\ (testBlockGivens = true -> STM_leb blockError bound = true))
  /\ (0 < numCols <= 46340 ->
      bound
      = STM_mul
          (STM_mul
             (STM_mul (STM_of_int 10)
                (STM_squareroot (STM_of_int ((numCols + 1) * numCols))))
             leastSquaresCondNum)
          STS_eps).
Proof.
  intros Hord Hzero blockGivensSolutionError bound. split.
  - unfold testUpdateColumn_verdict. fold bound.
    destruct (STM_isnaninf bound) eqn:Hb; [intuition discriminate|].
    destruct (STM_isnaninf givensSolutionError) eqn:Hg;
      [intuition discriminate|].
    pose proof (Hord givensSolutionError bound Hg Hb) as Hle.
    destruct (STM_ltb bound givensSolutionError) eqn:Hlt; simpl in Hle.
    { rewrite Hle. intuition discriminate. }
    unfold blockGivensSolutionError.
    destruct testBlockGivens.
    + destruct (STM_isnaninf blockError) eqn:Hbe; [intuition discriminate|].
      pose proof (Hord blockError bound Hbe Hb) as Hle'.
      destruct (STM_ltb bound blockError); simpl in Hle'; rewrite Hle';
        intuition discriminate.
    + rewrite Hzero. intuition discriminate.
  - intros Hn. unfold bound, solutionErrorBound, int_mul.
    replace (((numCols + 1) * numCols + 2 ^ 31) mod 2 ^ 32 - 2 ^ 31)
      with ((numCols + 1) * numCols); [reflexivity|].
    rewrite Z.mod_small by nia. lia.
Qed.
End SolverProperties.

(** C6, the code at a negative [beta]: [reset (-1)] on the example problem
    throws nothing, although [-1 < 0]; it returns with [z(0,0) = -1]. *)
Theorem reset_negative_beta_accepted :
  STM_ltb (-1)%Q STM_zero = true
  /\ reset exampleProblem (-1)%Q
     = Ok (set_z exampleProblem (mkMatrix 3 1 3 0 [-1; 0; 0]%Q)).
Proof. split; reflexivity. Qed.

(** C8, the code on a [B] with more rows than [R] has columns: the
    dimensions pass the test, and [rightUpperTriSolve] solves the rows 0 and
    1 of [B] and leaves the row 2 as it was, (10 17).  The result is not
    [B / R], whose rows are (1 2), (3 4), (5 6). *)
Theorem rightUpperTriSolve_skips_rows :
  numCols exampleB = numRows exampleR
  /\ rightUpperTriSolve exampleB exampleR
     = Ok (mkMatrix 3 2 3 0 [1; 3; 10; 2; 4; 17]%Q)
  /\ Q_isRightQuotient (mkMatrix 3 2 3 0 [1; 3; 10; 2; 4; 17]%Q)
       exampleR exampleB = false
  /\ Q_isRightQuotient (mkMatrix 3 2 3 0 [1; 3; 5; 2; 4; 6]%Q)
       exampleR exampleB = true.
Proof. repeat split; vm_compute; reflexivity. Qed.

(** ** The exact instance *)

Lemma Q_magnitude_nonneg (x : Q) : STM_leb STM_zero (STS_magnitude x) = true.
Proof.
  simpl. apply Qle_bool_iff. rewrite Qred_correct. apply Qabs_nonneg.
Qed.

Lemma Q_leb_ltb (a b : Q) :
  STM_isnaninf a = false -> STM_isnaninf b = false ->
  STM_leb a b = negb (STM_ltb b a).
Proof. intros _ _. simpl. rewrite negb_involutive. reflexivity. Qed.

Lemma Q_LATRS_info (normin : bool) (n : Z) (A : list Q) (aoff lda : Z)
    (xb : list Q) (xoff : Z) (cn : list Q) :
  (LATRS normin n A aoff lda xb xoff cn).2 = 0.
Proof. simpl. destruct (Q_singular n A aoff lda); reflexivity. Qed.

(** * Further properties *)

(** ** Loops and storage, continued *)

(** A store leaves every other position alone. *)
Lemma load_store_other {A : Type} (buf buf' : list A) (p q : Z) (v : A) :
  store buf p v = Ok buf' -> p <> q -> load buf' q = load buf q.
Proof.
  intros Hs Hne. destruct (Z.le_gt_cases 0 q) as [Hq|Hq].
  - eapply load_store_ne; eassumption.
  - unfold load. destruct (Z.leb_spec 0 q); [lia | reflexivity].
Qed.

(** What a loop that returns establishes, for an invariant that mentions the
    index of the pass. *)
Lemma for_steps_post_at {S : Type} (P : Z -> S -> Prop) (n : nat) (i : Z)
    (body : Z -> S -> result S) (s s' : S) :
  P i s ->
  (forall k st st', i <= k < i + Z.of_nat n -> body k st = Ok st' ->
     P k st -> P (k + 1) st') ->
  for_steps n i body s = Ok s' -> P (i + Z.of_nat n) s'.
Proof.
  revert i s. induction n as [|n IH]; intros i s Hs Hstep Hrun; simpl in Hrun.
  - injection Hrun as <-. simpl. rewrite Z.add_0_r. assumption.
  - apply bind_Ok in Hrun as (s1 & Hb & Hrun).
    replace (i + Z.of_nat (Datatypes.S n)) with (i + 1 + Z.of_nat n) by lia.
    apply (IH (i + 1) s1); [| |assumption].
    + apply (Hstep i s s1); [lia | assumption | assumption].
    + intros k st st' Hk. apply Hstep. lia.
Qed.

Lemma for_range_post_at {S : Type} (P : Z -> S -> Prop) (lo hi : Z)
    (body : Z -> S -> result S) (s s' : S) :
  lo <= hi ->
  P lo s ->
  (forall k st st', lo <= k < hi -> body k st = Ok st' ->
     P k st -> P (k + 1) st') ->
  for_range lo hi body s = Ok s' -> P hi s'.
Proof.
  intros Hle Hs Hstep Hrun. unfold for_range in Hrun.
  replace hi with (lo + Z.of_nat (Z.to_nat (hi - lo))) by lia.
  revert Hrun. apply for_steps_post_at; [assumption|].
  intros k st st' Hk. apply Hstep. lia.
Qed.

(** A loop over an empty range does nothing. *)
Lemma for_range_empty {S : Type} (lo hi : Z) (body : Z -> S -> result S)
    (s : S) :
  hi <= lo -> for_range lo hi body s = Ok s.
Proof.
  intros Hle. unfold for_range.
  replace (Z.to_nat (hi - lo)) with 0%nat by lia. reflexivity.
Qed.

(** A loop with a first pass. *)
Lemma for_range_first {S : Type} (lo hi : Z) (body : Z -> S -> result S)
    (s : S) :
  lo < hi ->
  for_range lo hi body s = body lo s ≫= for_range (lo + 1) hi body.
Proof.
  intros Hlt. unfold for_range.
  replace (Z.to_nat (hi - lo))
    with (Datatypes.S (Z.to_nat (hi - (lo + 1)))) by lia.
  reflexivity.
Qed.

(** ** What the storage operations throw and what they leave alone *)

Section MoreMatrixProperties.
Context {Scalar magnitudeType : Type}.
Context {STS : ScalarTraits Scalar magnitudeType}.
Context {blas : BLAS Scalar}.

Local Abbreviation mat_type := (SerialDenseMatrix Scalar).

(** An entry of a matrix that fits its storage has a position of its own. *)
Lemma index_inj (A : mat_type) (i j i' j' : Z) :
  fits A = true ->
  0 <= i < numRows A -> 0 <= j < numCols A ->
  0 <= i' < numRows A -> 0 <= j' < numCols A ->
  offset A + i + j * stride A = offset A + i' + j' * stride A ->
  i = i' /\ j = j'.
Proof.
  intros Hf Hi Hj Hi' Hj' Heq.
  pose proof (proj1 (fits_spec A) Hf) as (_ & _ & _ & Hs & _).
  assert (i - i' = (j' - j) * stride A) by lia.
  destruct (Z.lt_trichotomy j' j) as [?|[->|?]]; [nia | lia | nia].
Qed.

Lemma addr_Throw (A : mat_type) (i j : Z) (e : exn) :
  addr A i j = Throw e -> e = range_error.
Proof. unfold addr. destruct (in_dims A i j); congruence. Qed.

Lemma elem_Throw (A : mat_type) (i j : Z) (e : exn) :
  elem A i j = Throw e -> e = range_error.
Proof.
  unfold elem. intros Hrun.
  apply bind_Throw in Hrun as [Ha|(p & _ & Hl)];
    [eapply addr_Throw | eapply load_Throw]; eassumption.
Qed.

Lemma setElem_Throw (A : mat_type) (i j : Z) (v : Scalar) (e : exn) :
  setElem A i j v = Throw e -> e = range_error.
Proof.
  unfold setElem. intros Hrun.
  apply bind_Throw in Hrun as [Ha|(p & _ & Hrun)];
    [eapply addr_Throw; eassumption|].
  apply bind_Throw in Hrun as [Hs|(buf & _ & Hrun)];
    [eapply store_Throw; eassumption | discriminate].
Qed.

Lemma copyMat_Throw (src : list Scalar) (srcOff srcStride nr nc : Z)
    (dst : list Scalar) (dstOff dstStride : Z) (e : exn) :
  copyMat src srcOff srcStride nr nc dst dstOff dstStride = Throw e ->
  e = range_error.
Proof.
  unfold copyMat, for_range. intros Hrun.
  apply for_steps_Throw in Hrun as (j & d & Hrun).
  apply for_steps_Throw in Hrun as (i & d' & Hrun).
  apply bind_Throw in Hrun as [Hl|(v & _ & Hs)];
    [eapply load_Throw | eapply store_Throw]; eassumption.
Qed.

Lemma copyMat_frame (src : list Scalar) (srcOff srcStride nr nc : Z)
    (dst dst' : list Scalar) (dstOff dstStride q : Z) :
  copyMat src srcOff srcStride nr nc dst dstOff dstStride = Ok dst' ->
  (forall i j, 0 <= i < nr -> 0 <= j < nc -> q <> dstOff + i + j * dstStride) ->
  load dst' q = load dst q.
Proof.
  intros Hrun Hout. revert Hrun. unfold copyMat.
  apply (for_range_post_in (fun d => load d q = load dst q)); [reflexivity|].
  intros j d d' Hj Hrun Hd. revert Hrun.
  apply (for_range_post_in (fun d => load d q = load dst q)); [assumption|].
  intros i e e' Hi Hpass He. inv_bind Hpass. rewrite <- He.
  eapply load_store_other; [eassumption|].
  intros Heq. apply (Hout i j Hi Hj). congruence.
Qed.

(** What [copyMat] leaves at a position it writes: the entry of the source. *)
Lemma copyMat_copied (src : list Scalar) (srcOff srcStride nr nc : Z)
    (dst dst' : list Scalar) (dstOff dstStride : Z) (i j : Z) :
  copyMat src srcOff srcStride nr nc dst dstOff dstStride = Ok dst' ->
  0 <= i < nr -> 0 <= j < nc ->
  (forall i' j', 0 <= i' < nr -> 0 <= j' < nc ->
     dstOff + i' + j' * dstStride = dstOff + i + j * dstStride ->
     i' = i /\ j' = j) ->
  load dst' (dstOff + i + j * dstStride)
  = load src (srcOff + i + j * srcStride).
Proof.
  intros Hrun Hi Hj Hinj. unfold copyMat in Hrun.
  pose (copied := fun d : list Scalar =>
          load d (dstOff + i + j * dstStride)
          = load src (srcOff + i + j * srcStride)).
  assert (Hend : j < nc -> copied dst'); [|apply Hend; lia].
  revert Hrun.
  apply (for_range_post_at (fun jj d => j < jj -> copied d)); [lia | lia |].
  intros j0 d d' Hj0 Hpass Hd Hlt.
  assert (Hrow : (j < j0 \/ (j = j0 /\ i < nr)) -> copied d');
    [|apply Hrow; lia].
  revert Hpass.
  apply (for_range_post_at
           (fun ii e => (j < j0 \/ (j = j0 /\ i < ii)) -> copied e));
    [lia | intros [?|[? ?]]; [auto | lia] |].
  intros i0 e e' Hi0 Hst He Hdone. apply bind_Ok in Hst as (v & Hv & Hst).
  destruct (Z.eq_dec (dstOff + i0 + j0 * dstStride)
              (dstOff + i + j * dstStride)) as [Heq|Hne].
  - destruct (Hinj i0 j0 ltac:(lia) ltac:(lia) Heq) as [-> ->].
    unfold copied. rewrite (load_store_eq _ _ _ _ Hst). congruence.
  - unfold copied. rewrite (load_store_other _ _ _ _ _ Hst Hne).
    apply He. destruct Hdone as [?|[-> ?]]; [auto|].
    right. split; [reflexivity|].
    assert (i <> i0) by (intros ->; apply Hne; reflexivity). lia.
Qed.
Lemma assign_Throw (A Source : mat_type) (e : exn) :
  assign A Source = Throw e -> e = range_error.
Proof.
  unfold assign. destruct (_ && _); [|discriminate]. intros Hrun.
  apply bind_Throw in Hrun as [Hc|(buf & _ & Hrun)]; [|discriminate].
  eapply copyMat_Throw; eassumption.
Qed.

Lemma assign_frame (A Source A' : mat_type) (q : Z) :
  assign A Source = Ok A' ->
  (forall i j, 0 <= i < numRows A -> 0 <= j < numCols A ->
     q <> offset A + i + j * stride A) ->
  load (buffer A') q = load (buffer A) q.
Proof.
  unfold assign. destruct (_ && _).
  - intros Hrun Hout. inv_bind Hrun. injection Hrun as <-. simpl.
    eapply copyMat_frame; eassumption.
  - intros [= <-] _. reflexivity.
Qed.

Lemma ROT_Throw (n : Z) (buf : list Scalar) (dx incx dy incy : Z)
    (c s : Scalar) (e : exn) :
  ROT n buf dx incx dy incy c s = Throw e -> e = range_error.
Proof.
  unfold ROT, for_range. intros Hrun.
  apply for_steps_Throw in Hrun as (i & d & Hrun).
  apply bind_Throw in Hrun as [Hl|(xi & _ & Hrun)];
    [eapply load_Throw; eassumption|].
  apply bind_Throw in Hrun as [Hl|(yi & _ & Hrun)];
    [eapply load_Throw; eassumption|].
  destruct (rot c s xi yi) as [xi' yi'].
  apply bind_Throw in Hrun as [Hs|(d1 & _ & Hs)];
    eapply store_Throw; eassumption.
Qed.

Lemma ROT_frame (n : Z) (buf buf' : list Scalar) (dx incx dy incy q : Z)
    (c s : Scalar) :
  ROT n buf dx incx dy incy c s = Ok buf' ->
  (forall i, 0 <= i < n -> q <> dx + i * incx /\ q <> dy + i * incy) ->
  load buf' q = load buf q.
Proof.
  intros Hrun Hout. revert Hrun. unfold ROT.
  apply (for_range_post_in (fun d => load d q = load buf q)); [reflexivity|].
  intros i d d' Hi Hpass Hd. inv_bind Hpass.
  destruct (rot c s a a0) as [xi' yi']. inv_bind Hpass.
  destruct (Hout i Hi) as [Hx Hy].
  rewrite (load_store_other _ _ _ _ _ Hpass) by congruence.
  rewrite (load_store_other _ _ _ _ _ Ha1) by congruence. assumption.
Qed.

(** [_ROT] on two vectors that share no position: the pair at each index is
    the rotation of the pair that was there. *)
Lemma ROT_rotated (n : Z) (buf buf' : list Scalar) (dx incx dy incy : Z)
    (c s : Scalar) (i : Z) :
  ROT n buf dx incx dy incy c s = Ok buf' ->
  0 <= i < n ->
  (forall k, 0 <= k < n ->
     dx + k * incx <> dy + i * incy /\ dy + k * incy <> dx + i * incx
     /\ (k <> i -> dx + k * incx <> dx + i * incx
                   /\ dy + k * incy <> dy + i * incy)) ->
  exists xi yi,
    load buf (dx + i * incx) = Ok xi /\ load buf (dy + i * incy) = Ok yi
    /\ load buf' (dx + i * incx) = Ok (rot c s xi yi).1
    /\ load buf' (dy + i * incy) = Ok (rot c s xi yi).2.
Proof.
  intros Hrun Hi Hsep. unfold ROT in Hrun.
  pose (P := fun (k : Z) (d : list Scalar) =>
          (k <= i -> load d (dx + i * incx) = load buf (dx + i * incx)
                     /\ load d (dy + i * incy) = load buf (dy + i * incy))
          /\ (i < k ->
              exists xi yi,
                load buf (dx + i * incx) = Ok xi
                /\ load buf (dy + i * incy) = Ok yi
                /\ load d (dx + i * incx) = Ok (rot c s xi yi).1
                /\ load d (dy + i * incy) = Ok (rot c s xi yi).2)).
  assert (Hend : P n buf'); [|apply Hend; lia].
  revert Hrun. apply (for_range_post_at P); [lia | split; [auto | lia] |].
  intros k d d' Hk Hpass (Hbefore & Hafter).
  apply bind_Ok in Hpass as (xk & Hxk & Hpass).
  apply bind_Ok in Hpass as (yk & Hyk & Hpass).
  destruct (rot c s xk yk) as [xk' yk'] eqn:Hrot.
  apply bind_Ok in Hpass as (d1 & Hsy & Hsx).
  destruct (Hsep k Hk) as (Hxy & Hyx & Hother).
  destruct (Z.eq_dec k i) as [->|Hne].
  - split; [lia|]. intros _. destruct (Hbefore ltac:(lia)) as [Hx Hy].
    exists xk, yk. rewrite <- Hx, <- Hy, Hrot. simpl.
    split; [assumption|]. split; [assumption|]. split.
    + eapply load_store_eq; eassumption.
    + rewrite (load_store_other _ _ _ _ _ Hsx) by assumption.
      eapply load_store_eq; eassumption.
  - destruct (Hother Hne) as [Hxx Hyy]. split.
    + intros Hle. destruct (Hbefore ltac:(lia)) as [Hx Hy].
      rewrite <- Hx, <- Hy.
      rewrite !(load_store_other _ _ _ _ _ Hsx) by assumption.
      rewrite !(load_store_other _ _ _ _ _ Hsy) by assumption. auto.
    + intros Hlt. destruct (Hafter ltac:(lia)) as (xi & yi & ? & ? & Hx & Hy).
      exists xi, yi. split; [assumption|]. split; [assumption|].
      rewrite !(load_store_other _ _ _ _ _ Hsx) by assumption.
      rewrite !(load_store_other _ _ _ _ _ Hsy) by assumption. auto.
Qed.
End MoreMatrixProperties.

(** ** The Givens updater, continued *)

Section MoreGivensProperties.
Context {Scalar magnitudeType : Type}.
Context {STS : ScalarTraits Scalar magnitudeType}.
Context {blas : BLAS Scalar}.
Context {lapack : LAPACK Scalar magnitudeType}.

Local Abbreviation mat_type := (SerialDenseMatrix Scalar).
Local Abbreviation problem_type := (ProjectedLeastSquaresProblem Scalar).

Lemma rotatedColumn_Throw (Hm Rm : mat_type) (cosines sines : list Scalar)
    (curCol : Z) (e : exn) :
  rotatedColumn Hm Rm cosines sines curCol = Throw e -> e = range_error.
Proof.
  unfold rotatedColumn. intros Hrun.
  apply bind_Throw in Hrun as [Ha|(Rc & _ & Hrun)];
    [eapply assign_Throw; eassumption|].
  unfold for_range in Hrun.
  apply for_steps_Throw in Hrun as (j & d & Hrun).
  apply bind_Throw in Hrun as [Hl|(c & _ & Hrun)];
    [eapply load_Throw; eassumption|].
  apply bind_Throw in Hrun as [Hl|(s & _ & Hrun)];
    [eapply load_Throw; eassumption|].
  apply bind_Throw in Hrun as [Hl|(px & _ & Hrun)];
    [eapply addr_Throw; eassumption|].
  apply bind_Throw in Hrun as [Hl|(py & _ & Hrun)];
    [eapply addr_Throw; eassumption|].
  apply bind_Throw in Hrun as [Hl|(buf & _ & Hrun)];
    [eapply ROT_Throw; eassumption | discriminate].
Qed.

Lemma updateColumnGivens_Throw (Hm Rm ym zm : mat_type)
    (cosines sines : list Scalar) (curCol : Z) (e : exn) :
  updateColumnGivens Hm Rm ym zm cosines sines curCol = Throw e ->
  e = range_error.
Proof.
  unfold updateColumnGivens. intros Hrun.
  apply bind_Throw in Hrun as [Hl|(Rc & _ & Hrun)];
    [eapply rotatedColumn_Throw; eassumption|].
  apply bind_Throw in Hrun as [Hl|(x0 & _ & Hrun)];
    [eapply elem_Throw; eassumption|].
  apply bind_Throw in Hrun as [Hl|(x1 & _ & Hrun)];
    [eapply elem_Throw; eassumption|].
  destruct (computeGivensRotation x0 x1) as [[c s] r].
  apply bind_Throw in Hrun as [Hl|(c' & _ & Hrun)];
    [eapply store_Throw; eassumption|].
  apply bind_Throw in Hrun as [Hl|(s' & _ & Hrun)];
    [eapply store_Throw; eassumption|].
  apply bind_Throw in Hrun as [Hl|(R1 & _ & Hrun)];
    [eapply setElem_Throw; eassumption|].
  apply bind_Throw in Hrun as [Hl|(R2 & _ & Hrun)];
    [eapply setElem_Throw; eassumption|].
  apply bind_Throw in Hrun as [Hl|(px & _ & Hrun)];
    [eapply addr_Throw; eassumption|].
  apply bind_Throw in Hrun as [Hl|(py & _ & Hrun)];
    [eapply addr_Throw; eassumption|].
  apply bind_Throw in Hrun as [Hl|(zbuf & _ & Hrun)];
    [eapply ROT_Throw; eassumption|].
  apply bind_Throw in Hrun as [Hl|(last & _ & Hrun)];
    [eapply elem_Throw; eassumption | discriminate].
Qed.

(** X1.  [updateColumns (problem, startCol, endCol)] throws
    [std::invalid_argument] exactly when [startCol > endCol]: the updates of
    the columns themselves never throw this exception. *)
Theorem updateColumns_invalid_argument (problem : problem_type)
    (startCol endCol : Z) :
  updateColumns problem startCol endCol = Throw invalid_argument
  <-> endCol < startCol.
Proof.
  unfold updateColumns, updateColumnsGivens.
  destruct (Z.ltb_spec endCol startCol) as [Hlt|Hle].
  - split; [auto | reflexivity].
  - split; [|lia]. intros Hrun.
    change (TEST_FOR_EXCEPTION false invalid_argument;; ?k) with k in Hrun.
    apply bind_Throw in Hrun as [Hloop|(out & _ & Hrun)]; [|discriminate].
    unfold for_range in Hloop.
    apply for_steps_Throw in Hloop as (k & st & Hpass).
    destruct st as [[[[[R' y'] z'] c'] s'] n'].
    apply updateColumnGivens_Throw in Hpass. discriminate.
Qed.

(** Where [rotatedColumn] writes: the rows [0 .. curCol+1] of the column
    [curCol] of [R]. *)
Lemma rotatedColumn_frame (Hm Rm R_col : mat_type)
    (cosines sines : list Scalar) (curCol q : Z) :
  rotatedColumn Hm Rm cosines sines curCol = Ok R_col ->
  (forall i, 0 <= i < curCol + 2 ->
     q <> offset Rm + i + curCol * stride Rm) ->
  load (buffer R_col) q = load (buffer Rm) q.
Proof.
  unfold rotatedColumn. intros Hrun Hout. inv_bind Hrun.
  assert (Ha' : load (buffer a) q = load (buffer Rm) q).
  { rewrite (assign_frame _ _ _ q Ha); [reflexivity|]. simpl.
    intros i j Hi Hj. assert (j = 0) as -> by lia.
    specialize (Hout i Hi). lia. }
  pose proof (assign_shape _ _ _ Ha) as Hsa.
  assert (Hgoal : same_shape R_col (View Rm (curCol + 2) 1 0 curCol)
                  /\ load (buffer R_col) q = load (buffer Rm) q);
    [|tauto].
  revert Hrun.
  apply (for_range_post_in
           (fun Rc => same_shape Rc (View Rm (curCol + 2) 1 0 curCol)
                      /\ load (buffer Rc) q = load (buffer Rm) q));
    [auto|].
  intros j Rc Rc' Hj Hpass (HsRc & Hload). inv_bind Hpass.
  injection Hpass as <-.
  apply addr_inv in Ha2 as [_ ->]. apply addr_inv in Ha3 as [_ ->].
  pose proof (ROT_length _ _ _ _ _ _ _ _ _ Ha4) as Hlen.
  destruct HsRc as (Hnr & Hnc & Hst & Hoff & Hl). simpl in *.
  split; [repeat split; simpl; congruence|].
  rewrite (ROT_frame _ _ _ _ _ _ _ q _ _ Ha4); [assumption|].
  intros i Hi. assert (i = 0) as -> by lia. rewrite Hoff.
  pose proof (Hout j ltac:(lia)). pose proof (Hout (j + 1) ltac:(lia)). lia.
Qed.

(** What [updateColumn] does to the storage of [R], of [z] and to the
    rotation arrays, step by step. *)
Lemma updateColumn_steps (problem problem' : problem_type) (curCol : Z)
    (norm : magnitudeType) :
  updateColumn problem curCol = Ok (problem', norm) ->
  exists R_col x0 x1,
    rotatedColumn (H problem) (R problem) (theCosines problem)
      (theSines problem) curCol = Ok R_col
    /\ elem R_col curCol 0 = Ok x0
    /\ elem R_col (curCol + 1) 0 = Ok x1
    /\ store (theCosines problem) curCol (computeGivensRotation x0 x1).1.1
       = Ok (theCosines problem')
    /\ store (theSines problem) curCol (computeGivensRotation x0 x1).1.2
       = Ok (theSines problem')
    /\ (forall q,
          (forall i, 0 <= i < curCol + 2 ->
             q <> offset (R problem) + i + curCol * stride (R problem)) ->
          load (buffer (R problem')) q = load (buffer (R problem)) q)
    /\ same_shape (R problem') (R problem)
    /\ same_shape (z problem') (z problem)
    /\ (0 <= curCol /\ curCol + 1 < numRows (z problem)
        /\ 0 < numCols (z problem))
    /\ ROT (numCols (z problem)) (buffer (z problem))
         (offset (z problem) + curCol + 0 * stride (z problem))
         (stride (z problem))
         (offset (z problem) + (curCol + 1) + 0 * stride (z problem))
         (stride (z problem))
         (computeGivensRotation x0 x1).1.1 (computeGivensRotation x0 x1).1.2
       = Ok (buffer (z problem')).
Proof.
  unfold updateColumn. intros Hrun. inv_bind Hrun.
  destruct a as [[[[[R' y'] z'] c'] s'] n']. injection Hrun as <- <-.
  unfold updateColumnGivens in Ha. inv_bind Ha.
  destruct (computeGivensRotation a0 a1) as [[c sn] r] eqn:Hrot.
  inv_bind Ha. injection Ha as <- <- <- <- <- <-. simpl.
  exists a, a0, a1. rewrite Hrot. simpl.
  pose proof (rotatedColumn_shape _ _ _ _ _ _ Ha0) as Hs0.
  pose proof (setElem_shape _ _ _ _ _ Ha5) as Hs1.
  pose proof (setElem_shape _ _ _ _ _ Ha6) as Hs2.
  apply addr_inv in Ha7 as [[Hk Hc0] ->].
  apply addr_inv in Ha8 as [[Hk1 _] ->].
  pose proof (ROT_length _ _ _ _ _ _ _ _ _ Ha9) as Hzl.
  repeat (split; [assumption|]). split; [|split; [|split; [|split]]].
  - intros q Hout.
    unfold setElem in Ha5, Ha6.
    apply bind_Ok in Ha5 as (p1 & Hp1 & Ha5).
    apply bind_Ok in Ha5 as (b1 & Hb1 & Ha5).
    apply bind_Ok in Ha6 as (p2 & Hp2 & Ha6).
    apply bind_Ok in Ha6 as (b2 & Hb2 & Ha6).
    injection Ha5 as <-. injection Ha6 as <-. simpl.
    apply addr_inv in Hp1 as [[Hi1 _] ->].
    apply addr_inv in Hp2 as [[Hi2 _] ->].
    destruct Hs0 as (Hnr & Hnc & Hst & Hoff & _). simpl in *.
    rewrite (load_store_other _ _ _ _ _ Hb2)
      by (rewrite Hoff; pose proof (Hout (curCol + 1) ltac:(lia)); lia).
    rewrite (load_store_other _ _ _ _ _ Hb1)
      by (rewrite Hoff; pose proof (Hout curCol ltac:(lia)); lia).
    eapply rotatedColumn_frame; eassumption.
  - destruct (same_shape_trans _ _ _ Hs2 (same_shape_trans _ _ _ Hs1 Hs0))
      as (_ & _ & _ & _ & Hlen).
    repeat split; assumption.
  - repeat split; assumption.
  - lia.
  - assumption.
Qed.
Lemma elem_load (A : mat_type) (i j : Z) :
  0 <= i < numRows A -> 0 <= j < numCols A ->
  elem A i j = load (buffer A) (offset A + i + j * stride A).
Proof.
  intros Hi Hj. unfold elem. rewrite (addr_Ok A i j Hi Hj). reflexivity.
Qed.

Lemma updateColumn_rotations (problem problem' : problem_type) (curCol : Z)
    (norm : magnitudeType) (j : Z) :
  updateColumn problem curCol = Ok (problem', norm) ->
  j <> curCol ->
  load (theCosines problem') j = load (theCosines problem) j
  /\ load (theSines problem') j = load (theSines problem) j.
Proof.
  intros Hrun Hne.
  apply updateColumn_steps in Hrun
    as (Rc & x0 & x1 & _ & _ & _ & Hc & Hs & _).
  split; eapply load_store_other; eauto.
Qed.

Lemma updateColumnEach_rotations (n : nat) (problem problem' : problem_type)
    (k : Z) (norm : magnitudeType) (j : Z) :
  updateColumnEach problem k n = Ok (problem', norm) ->
  j < k \/ k + Z.of_nat n < j ->
  load (theCosines problem') j = load (theCosines problem) j
  /\ load (theSines problem') j = load (theSines problem) j.
Proof.
  revert problem k. induction n as [|n IH]; intros problem k Hrun Hj.
  - simpl in Hrun. apply bind_Ok in Hrun as ([p1 n1] & H1 & Hrun).
    injection Hrun as <- <-.
    apply (updateColumn_rotations _ _ _ _ j H1). lia.
  - change (updateColumnEach problem k (S n))
      with (updateColumn problem k
            ≫= (fun '(problem', norm) =>
                   updateColumnEach problem' (k + 1) n)) in Hrun.
    apply bind_Ok in Hrun as ([p1 n1] & H1 & Hrun).
    destruct (IH p1 (k + 1) Hrun ltac:(lia)) as [Hc Hs].
    destruct (updateColumn_rotations _ _ _ _ j H1 ltac:(lia)) as [Hc1 Hs1].
    split; congruence.
Qed.

(** X2.  The rotation arrays are written one entry for each column: a
    panel update [startCol .. endCol] that returns has left every entry of
    [theCosines] and [theSines] outside the panel as it was, and the update
    of one column has stored, as entry [curCol], the cosine and the sine
    that the rotation generator gives for the two entries of the rotated
    column. *)
Theorem updateColumns_rotation_arrays (problem problem' : problem_type)
    (startCol endCol : Z) (norm : magnitudeType) :
  updateColumns problem startCol endCol = Ok (problem', norm) ->
  (forall j, j < startCol \/ endCol < j ->
     load (theCosines problem') j = load (theCosines problem) j
     /\ load (theSines problem') j = load (theSines problem) j)
  /\ (startCol = endCol ->
      exists R_col x0 x1,
        rotatedColumn (H problem) (R problem) (theCosines problem)
          (theSines problem) endCol = Ok R_col
        /\ elem R_col endCol 0 = Ok x0
        /\ elem R_col (endCol + 1) 0 = Ok x1
        /\ load (theCosines problem') endCol
           = Ok (computeGivensRotation x0 x1).1.1
        /\ load (theSines problem') endCol
           = Ok (computeGivensRotation x0 x1).1.2).
Proof.
  intros Hrun.
  assert (Hle : startCol <= endCol).
  { destruct (Z.le_gt_cases startCol endCol) as [?|Hgt]; [assumption|].
    unfold updateColumns, updateColumnsGivens in Hrun.
    destruct (Z.ltb_spec endCol startCol); [discriminate | lia]. }
  rewrite updateColumns_each in Hrun by assumption. split.
  - intros j Hj. apply (updateColumnEach_rotations _ _ _ _ _ j Hrun). lia.
  - intros ->. replace (Z.to_nat (endCol - endCol)) with 0%nat in Hrun by lia.
    simpl in Hrun. apply bind_Ok in Hrun as ([p1 n1] & H1 & Hrun).
    injection Hrun as <- <-.
    apply updateColumn_steps in H1
      as (Rc & x0 & x1 & HRc & Hx0 & Hx1 & Hc & Hs & _).
    exists Rc, x0, x1. repeat (split; [assumption|]).
    split; eapply load_store_eq; eassumption.
Qed.

Lemma updateColumn_R_unchanged (problem problem' : problem_type)
    (curCol : Z) (norm : magnitudeType) (i j : Z) :
  validColumn problem curCol = true ->
  updateColumn problem curCol = Ok (problem', norm) ->
  0 <= i < numRows (R problem) -> 0 <= j < numCols (R problem) ->
  j <> curCol \/ curCol + 2 <= i ->
  elem (R problem') i j = elem (R problem) i j.
Proof.
  intros Hv Hrun Hi Hj Hother.
  apply validColumn_spec in Hv
    as (Hk & _ & HfR & _ & _ & _ & HrR & HcR & _).
  apply updateColumn_steps in Hrun
    as (Rc & x0 & x1 & _ & _ & _ & _ & _ & Hframe & Hs & _).
  destruct Hs as (Hnr & Hnc & Hst & Hoff & _).
  rewrite (elem_load (R problem') i j) by lia.
  rewrite (elem_load (R problem) i j) by lia.
  rewrite Hst, Hoff. apply Hframe. intros i' Hi' Heq.
  destruct (index_inj (R problem) i j i' curCol HfR) as [-> ->];
    [lia | lia | lia | lia | assumption | lia].
Qed.

Lemma updateColumnEach_R_unchanged (n : nat)
    (problem problem' : problem_type) (k : Z) (norm : magnitudeType)
    (i j : Z) :
  0 <= k -> validColumn problem (k + Z.of_nat n) = true ->
  updateColumnEach problem k n = Ok (problem', norm) ->
  0 <= i < numRows (R problem) -> 0 <= j < numCols (R problem) ->
  j < k \/ k + Z.of_nat n < j \/ j + 2 <= i ->
  elem (R problem') i j = elem (R problem) i j.
Proof.
  revert problem k.
  induction n as [|n IH]; intros problem k Hk Hv Hrun Hi Hj Hother.
  - simpl in Hrun. apply bind_Ok in Hrun as ([p1 n1] & H1 & Hrun).
    injection Hrun as <- <-.
    change (k + Z.of_nat 0) with (k + 0) in Hv. rewrite Z.add_0_r in Hv.
    apply (updateColumn_R_unchanged _ _ k n1); auto. lia.
  - change (updateColumnEach problem k (S n))
      with (updateColumn problem k
            ≫= (fun '(problem', norm) =>
                   updateColumnEach problem' (k + 1) n)) in Hrun.
    apply bind_Ok in Hrun as ([p1 n1] & H1 & Hrun).
    pose proof (updateColumn_layout _ _ _ _ H1) as Hl.
    pose proof Hl as (_ & _ & (Hnr & Hnc & _) & _).
    rewrite (IH p1 (k + 1)); [| lia | | assumption | lia | lia | lia].
    + apply (updateColumn_R_unchanged _ _ k n1); auto; [|lia].
      apply (validColumn_mono problem k _ Hv). lia.
    + rewrite (validColumn_layout _ _ _ Hl).
      replace (k + 1 + Z.of_nat n) with (k + Z.of_nat (S n)) by lia.
      assumption.
Qed.

(** X3.  The panel update is left-looking and stays above the subdiagonal:
    a panel update [startCol .. endCol] of a valid panel leaves every column
    of [R] outside the panel as it was, and in every column [j] the rows
    from [j+2] on. *)
Theorem updateColumns_R_frame (problem problem' : problem_type)
    (startCol endCol : Z) (norm : magnitudeType) :
  0 <= startCol <= endCol ->
  validColumn problem endCol = true ->
  updateColumns problem startCol endCol = Ok (problem', norm) ->
  forall i j,
    0 <= i < numRows (R problem) -> 0 <= j < numCols (R problem) ->
    j < startCol \/ endCol < j \/ j + 2 <= i ->
    elem (R problem') i j = elem (R problem) i j.
Proof.
  intros Hse Hv Hrun i j Hi Hj Hother.
  rewrite updateColumns_each in Hrun by lia.
  apply (updateColumnEach_R_unchanged (Z.to_nat (endCol - startCol))
           problem problem' startCol norm i j);
    [lia | | assumption | assumption | assumption | lia].
  replace (startCol + Z.of_nat (Z.to_nat (endCol - startCol)))
    with endCol by lia.
  assumption.
Qed.

(** X4.  What one column update does to the right-hand side: in every
    column of [z] the rows [curCol] and [curCol+1] become the rotation, by
    the cosine and sine just stored as entry [curCol] of the rotation
    arrays, of the pair that was there, and every other row is left as it
    was. *)
Theorem updateColumn_rotates_z (problem problem' : problem_type)
    (curCol : Z) (norm : magnitudeType) :
  fits (z problem) = true ->
  updateColumn problem curCol = Ok (problem', norm) ->
  exists c s,
    load (theCosines problem') curCol = Ok c
    /\ load (theSines problem') curCol = Ok s
    /\ forall j, 0 <= j < numCols (z problem) ->
         (exists zk zk1,
            elem (z problem) curCol j = Ok zk
            /\ elem (z problem) (curCol + 1) j = Ok zk1
            /\ elem (z problem') curCol j = Ok (rot c s zk zk1).1
            /\ elem (z problem') (curCol + 1) j = Ok (rot c s zk zk1).2)
         /\ forall i, 0 <= i < numRows (z problem) ->
              i <> curCol -> i <> curCol + 1 ->
              elem (z problem') i j = elem (z problem) i j.
Proof.
  intros Hf Hrun.
  apply updateColumn_steps in Hrun
    as (Rc & x0 & x1 & _ & _ & _ & Hc & Hs & _ & _ & Hsz & (Hk & Hk1 & Hnc)
        & Hrot).
  destruct Hsz as (Hnr' & Hnc' & Hst' & Hoff' & _).
  exists (computeGivensRotation x0 x1).1.1, (computeGivensRotation x0 x1).1.2.
  split; [eapply load_store_eq; eassumption|].
  split; [eapply load_store_eq; eassumption|].
  intros j Hj.
  assert (Hsep : forall r r' j', 0 <= r < numRows (z problem) ->
            0 <= r' < numRows (z problem) ->
            0 <= j' < numCols (z problem) -> (r <> r' \/ j <> j') ->
            offset (z problem) + r + 0 * stride (z problem)
            + j * stride (z problem)
            <> offset (z problem) + r' + 0 * stride (z problem)
               + j' * stride (z problem)).
  { intros r r' j' Hr Hr' Hj' Hdiff Heq.
    destruct (index_inj (z problem) r j r' j' Hf) as [-> ->];
      [lia | lia | lia | lia | lia | lia]. }
  split.
  - destruct (ROT_rotated _ _ _ _ _ _ _ _ _ j Hrot Hj)
      as (zk & zk1 & Hzk & Hzk1 & Hzk' & Hzk1').
    { intros k' Hk'. split; [|split].
      - intros Heq. symmetry in Heq. revert Heq.
        apply Hsep; [lia | lia | lia | lia].
      - intros Heq. symmetry in Heq. revert Heq.
        apply Hsep; [lia | lia | lia | lia].
      - intros Hne. split; intros Heq; symmetry in Heq; revert Heq;
          apply Hsep; lia. }
    exists zk, zk1.
    rewrite !(elem_load (z problem)) by lia.
    rewrite !(elem_load (z problem')) by lia.
    rewrite Hst', Hoff'.
    replace (offset (z problem) + curCol + j * stride (z problem))
      with (offset (z problem) + curCol + 0 * stride (z problem)
            + j * stride (z problem)) by lia.
    replace (offset (z problem) + (curCol + 1) + j * stride (z problem))
      with (offset (z problem) + (curCol + 1) + 0 * stride (z problem)
            + j * stride (z problem)) by lia.
    auto.
  - intros i Hi Hne Hne1.
    rewrite (elem_load (z problem')) by lia.
    rewrite (elem_load (z problem)) by lia.
    rewrite Hst', Hoff'.
    apply (ROT_frame _ _ _ _ _ _ _ _ _ _ Hrot).
    intros k' Hk'.
    replace (offset (z problem) + i + j * stride (z problem))
      with (offset (z problem) + i + 0 * stride (z problem)
            + j * stride (z problem)) by lia.
    split; apply Hsep; lia.
Qed.

(** The value [updateColumn] returns is the magnitude of the second
    component of the new rotation applied to [z(curCol, 0)] and
    [z(curCol+1, 0)]. *)
Lemma updateColumn_residual (problem problem' : problem_type) (curCol : Z)
    (norm : magnitudeType) :
  fits (z problem) = true ->
  updateColumn problem curCol = Ok (problem', norm) ->
  rotatedResidual problem problem' curCol norm.
Proof.
  intros Hf Hrun.
  destruct (updateColumn_norm _ _ _ _ Hrun) as (last & Hlast & Hnorm).
  apply updateColumn_steps in Hrun
    as (Rc & x0 & x1 & HRc & Hx0 & Hx1 & _ & _ & _ & _ & Hsz
        & (Hk & Hk1 & Hnc) & Hrot).
  destruct Hsz as (Hnr' & Hnc' & Hst' & Hoff' & _).
  destruct (ROT_rotated _ _ _ _ _ _ _ _ _ 0 Hrot ltac:(lia))
    as (zk & zk1 & Hzk & Hzk1 & _ & Hzk1').
  { intros k' Hk'.
    assert (Hsep : forall r r', 0 <= r < numRows (z problem) ->
              0 <= r' < numRows (z problem) -> (r <> r' \/ k' <> 0) ->
              offset (z problem) + r + 0 * stride (z problem)
              + k' * stride (z problem)
              <> offset (z problem) + r' + 0 * stride (z problem)
                 + 0 * stride (z problem)).
    { intros r r' Hr Hr' Hdiff Heq.
      destruct (index_inj (z problem) r k' r' 0 Hf) as [-> ->];
        [lia | lia | lia | lia | lia | lia]. }
    split; [apply Hsep; lia|]. split; [apply Hsep; lia|].
    intros Hne. split; apply Hsep; lia. }
  assert (Hpos : forall r,
            offset (z problem) + r + 0 * stride (z problem)
            + 0 * stride (z problem)
            = offset (z problem) + r + 0 * stride (z problem)) by (intros; lia).
  rewrite !Hpos in Hzk, Hzk1, Hzk1'.
  exists Rc, x0, x1, zk, zk1.
  rewrite !(elem_load (z problem)) by lia.
  rewrite (elem_load (z problem')) in Hlast |- * by lia.
  rewrite Hst', Hoff' in Hlast |- *.
  repeat (split; [assumption|]).
  rewrite Hzk1' in Hlast. injection Hlast as <-. assumption.
Qed.

(** C3.  The residual norm.  For a valid column, [updateColumn (problem, endCol)]
    returns the magnitude of [z(endCol+1, 0)] as it stands after the new
    rotation has been applied to the rows [endCol] and [endCol+1] of [z];
    and for a valid panel [updateColumns (problem, startCol, endCol)]
    returns what [updateColumn] returns for the last column [endCol],
    called on the problem that the columns before it have left.  The value
    is a magnitude: it is not negative whenever it is not a NaN, for a
    magnitude function that is not negative on whatever is not a NaN. *)
Theorem updateColumns_residual_norm (problem : problem_type)
    (startCol endCol : Z) :
  0 <= startCol <= endCol ->
  validColumn problem endCol = true ->
  (exists problem' norm,
     updateColumn problem endCol = Ok (problem', norm)
     /\ rotatedResidual problem problem' endCol norm
     /\ ((forall x : Scalar,
            STM_isnaninf (STS_magnitude x) = false ->
            STM_leb STM_zero (STS_magnitude x) = true) ->
         STM_isnaninf norm = false -> STM_leb STM_zero norm = true))
  /\ (exists before problem' norm,
        beforeLastColumn problem startCol endCol before
        /\ updateColumn before endCol = Ok (problem', norm)
        /\ updateColumns problem startCol endCol = Ok (problem', norm)
        /\ rotatedResidual before problem' endCol norm
        /\ ((forall x : Scalar,
               STM_isnaninf (STS_magnitude x) = false ->
               STM_leb STM_zero (STS_magnitude x) = true) ->
            STM_isnaninf norm = false -> STM_leb STM_zero norm = true)).
Proof.
  intros Hse Hv.
  assert (Hsign : forall before problem' norm,
            rotatedResidual before problem' endCol norm ->
            (forall x : Scalar,
               STM_isnaninf (STS_magnitude x) = false ->
               STM_leb STM_zero (STS_magnitude x) = true) ->
            STM_isnaninf norm = false -> STM_leb STM_zero norm = true).
  { intros before p' n' (Rc & x0 & x1 & zk & zk1 & Hres) Hmag Hnan.
    destruct Hres as (_ & _ & _ & _ & _ & _ & ->). apply Hmag. exact Hnan. }
  split.
  - destruct (updateColumn_Ok problem endCol Hv) as (p' & n' & Hrun).
    pose proof (validColumn_spec _ _ Hv) as (_ & _ & _ & Hfz & _).
    pose proof (updateColumn_residual _ _ _ _ Hfz Hrun) as Hres.
    exists p', n'. split; [assumption|]. split; [assumption|].
    apply (Hsign problem p' n' Hres).
  - destruct (updateColumns_last problem startCol endCol Hse Hv)
      as (before & p' & n' & Hb & Hl & Hrun & Hpanel).
    assert (Hvb : validColumn before endCol = true)
      by (rewrite (validColumn_layout _ _ _ Hl); assumption).
    pose proof (validColumn_spec _ _ Hvb) as (_ & _ & _ & Hfz & _).
    pose proof (updateColumn_residual _ _ _ _ Hfz Hrun) as Hres.
    exists before, p', n'. repeat (split; [assumption|]).
    apply (Hsign before p' n' Hres).
Qed.
End MoreGivensProperties.

(** ** The problem container, continued *)

Section MoreProblemProperties.
Context {Scalar magnitudeType : Type}.
Context {STS : ScalarTraits Scalar magnitudeType}.
Context {blas : BLAS Scalar}.
Context {lapack : LAPACK Scalar magnitudeType}.

Local Abbreviation mat_type := (SerialDenseMatrix Scalar).
Local Abbreviation problem_type := (ProjectedLeastSquaresProblem Scalar).

Lemma store_same {A : Type} (buf : list A) (p : Z) (v : A) :
  load buf p = Ok v -> store buf p v = Ok buf.
Proof.
  intros Hl. apply load_inv in Hl as [Hp Hv].
  rewrite store_Ok by assumption. rewrite list_insert_id by assumption.
  reflexivity.
Qed.

(** After [putScalar (v)] every entry reads [v], whatever the stride. *)
Lemma putScalar_entries (A A' : mat_type) (v : Scalar) (i j : Z) :
  putScalar A v = Ok A' ->
  0 <= i < numRows A -> 0 <= j < numCols A ->
  load (buffer A') (offset A + i + j * stride A) = Ok v.
Proof.
  unfold putScalar. intros Hrun Hi Hj. inv_bind Hrun. injection Hrun as <-.
  simpl. revert Ha.
  pose (written := fun d : list Scalar =>
          load d (offset A + i + j * stride A) = Ok v).
  intros Hrun.
  assert (Hend : j < numCols A -> written a); [|apply Hend; lia].
  revert Hrun.
  apply (for_range_post_at (fun jj d => j < jj -> written d)); [lia | lia |].
  intros j0 d d' Hj0 Hpass Hd Hlt.
  assert (Hrow : (j < j0 \/ (j = j0 /\ i < numRows A)) -> written d');
    [|apply Hrow; lia].
  revert Hpass.
  apply (for_range_post_at
           (fun ii e => (j < j0 \/ (j = j0 /\ i < ii)) -> written e));
    [lia | intros [?|[? ?]]; [auto | lia] |].
  intros i0 e e' Hi0 Hst He Hdone.
  destruct (Z.eq_dec i0 i) as [->|Hne];
    [destruct (Z.eq_dec j0 j) as [->|Hne]|].
  - eapply load_store_eq; eassumption.
  - eapply load_store_same; [eassumption|]. apply He. lia.
  - eapply load_store_same; [eassumption|]. apply He. lia.
Qed.

(** [putScalar (v)] on a matrix that holds [v] everywhere changes nothing. *)
Lemma putScalar_fixed (A : mat_type) (v : Scalar) :
  (forall i j, 0 <= i < numRows A -> 0 <= j < numCols A ->
     load (buffer A) (offset A + i + j * stride A) = Ok v) ->
  putScalar A v = Ok A.
Proof.
  intros Hall. unfold putScalar.
  destruct (for_range_keeps (fun d => d = buffer A) 0 (numCols A)
    (fun j buf =>
       for_range 0 (numRows A) (fun i buf =>
         store buf (offset A + i + j * stride A) v) buf) (buffer A))
    as (buf & Hrun & ->); [reflexivity | |].
  - intros j d Hj ->.
    apply (for_range_keeps (fun d => d = buffer A)); [reflexivity|].
    intros i d Hi ->. exists (buffer A). split; [|reflexivity].
    apply store_same, Hall; assumption.
  - rewrite Hrun. destruct A. reflexivity.
Qed.

(** A write to the entry [(0,0)] is undone by the next [putScalar]. *)
Lemma putScalar_absorbs (A1 A2 : mat_type) (v w : Scalar) :
  (forall i j, 0 <= i < numRows A1 -> 0 <= j < numCols A1 ->
     load (buffer A1) (offset A1 + i + j * stride A1) = Ok v) ->
  setElem A1 0 0 w = Ok A2 ->
  putScalar A2 v = Ok A1.
Proof.
  intros Hall Hset. rewrite <- (putScalar_fixed A1 v Hall).
  unfold setElem in Hset.
  apply bind_Ok in Hset as (p & Hp & Hset).
  apply bind_Ok in Hset as (b2 & Hb2 & Hset). injection Hset as <-.
  apply addr_inv in Hp as [[Hr Hc] ->].
  unfold putScalar. simpl.
  rewrite !(for_range_first 0 (numCols A1)) by lia.
  rewrite !(for_range_first 0 (numRows A1)) by lia.
  pose proof (Hall 0 0 Hr Hc) as H00.
  rewrite (store_same _ _ _ H00).
  apply store_inv in Hb2 as [Hin ->].
  rewrite store_Ok by (rewrite length_insert; assumption).
  rewrite list_insert_insert_eq.
  apply load_inv in H00 as [_ H00]. rewrite (list_insert_id _ _ _ H00).
  reflexivity.
Qed.

(** X5.  [reset] is idempotent: a second [reset (beta)] on the problem that
    a first [reset (beta)] has returned gives back the same problem, the
    storage of [z] included. *)
Theorem reset_idempotent (problem problem' : problem_type)
    (beta : magnitudeType) :
  reset problem beta = Ok problem' -> reset problem' beta = Ok problem'.
Proof.
  unfold reset. intros Hrun.
  apply bind_Ok in Hrun as (z1 & Hz1 & Hrun).
  apply bind_Ok in Hrun as (z2 & Hz2 & Hrun). injection Hrun as <-.
  simpl.
  assert (Hput : putScalar z2 STS_zero = Ok z1).
  { apply (putScalar_absorbs z1 z2 STS_zero (STS_promote beta)); [|assumption].
    intros i j Hi Hj.
    assert (Hsh : numRows z1 = numRows (z problem)
                  /\ numCols z1 = numCols (z problem)
                  /\ stride z1 = stride (z problem)
                  /\ offset z1 = offset (z problem)).
    { unfold putScalar in Hz1. inv_bind Hz1. injection Hz1 as <-. auto. }
    destruct Hsh as (Hnr & Hnc & -> & ->).
    apply (putScalar_entries _ _ _ _ _ Hz1); lia. }
  rewrite Hput. simpl. rewrite Hz2. reflexivity.
Qed.

Lemma fits_newMatrix (nr nc : Z) :
  0 <= nr -> 0 <= nc -> fits (newMatrix nr nc : mat_type) = true.
Proof.
  intros Hnr Hnc. apply fits_spec. simpl.
  rewrite length_replicate. repeat (split; [lia|]). right. right. nia.
Qed.

Lemma validColumn_newProblem (m k : Z) :
  0 <= k < m -> validColumn (newProblem m : problem_type) k = true.
Proof.
  intros Hk. unfold validColumn, newProblem. simpl.
  rewrite !fits_newMatrix by lia. rewrite !length_replicate.
  rewrite !andb_true_iff, !Z.leb_le, !Z.ltb_lt. repeat split; lia.
Qed.

Lemma validSolve_layout (problem problem' : problem_type) (k : Z) :
  same_layout problem' problem ->
  validSolve problem' k = validSolve problem k.
Proof.
  intros (_ & Hy & HR & Hz & _). unfold validSolve.
  rewrite Hy, (fits_shape_eq _ _ HR), (fits_shape_eq _ _ Hz).
  destruct HR as (-> & -> & _). destruct Hz as (-> & -> & _). reflexivity.
Qed.

(** A copy that returns has read the first entry of its source. *)
Lemma copyMat_first (src : list Scalar) (srcOff srcStride nr nc : Z)
    (dst dst' : list Scalar) (dstOff dstStride : Z) :
  copyMat src srcOff srcStride nr nc dst dstOff dstStride = Ok dst' ->
  0 < nr -> 0 < nc ->
  exists v, load src (srcOff + 0 + 0 * srcStride) = Ok v.
Proof.
  unfold copyMat. intros Hrun Hnr Hnc.
  rewrite (for_range_first 0 nc) in Hrun by lia.
  apply bind_Ok in Hrun as (d1 & Hrow & _).
  rewrite (for_range_first 0 nr) in Hrow by lia.
  apply bind_Ok in Hrow as (d2 & Hpass & _).
  apply bind_Ok in Hpass as (v & Hv & _). eauto.
Qed.

(** X6.  A problem constructed for [maxNumIterations] iterations has the
    columns [0 .. maxNumIterations - 1] and no other: every panel of these
    columns can be updated, after which [solve] returns; and an
    [updateColumn] that returns was called with a column in this range. *)
Theorem newProblem_columns (maxNumIterations : Z) :
  (forall startCol endCol,
     0 <= startCol <= endCol -> endCol < maxNumIterations ->
     exists problem' norm problem'',
       updateColumns (newProblem maxNumIterations) startCol endCol
       = Ok (problem', norm)
       /\ solve problem' endCol = Ok problem'')
  /\ (forall curCol (problem' : problem_type) norm,
        updateColumn (newProblem maxNumIterations) curCol
        = Ok (problem', norm) ->
        0 <= curCol < maxNumIterations).
Proof.
  split.
  - intros s e Hse He.
    pose proof (validColumn_newProblem maxNumIterations e ltac:(lia)) as Hv.
    destruct (updateColumns_last _ s e Hse Hv)
      as (before & p' & n' & _ & Hl0 & Hrun & Hpanel).
    pose proof (updateColumn_layout _ _ _ _ Hrun) as Hl1.
    destruct (solve_Ok p' e) as [p'' Hsolve].
    { rewrite (validSolve_layout _ _ _ Hl1), (validSolve_layout _ _ _ Hl0).
      unfold validSolve, newProblem. simpl.
      rewrite !fits_newMatrix by lia.
      rewrite !andb_true_iff, !Z.leb_le. repeat split; lia. }
    exists p', n', p''. auto.
  - intros k p' n' Hrun.
    apply updateColumn_steps in Hrun
      as (Rc & x0 & x1 & HRc & _ & _ & Hc & _ & _ & _ & _ & (Hk & _) & _).
    apply store_inv in Hc as [Hc _]. simpl in Hc.
    rewrite length_replicate in Hc.
    split; [assumption|].
    destruct (Z.eq_dec k maxNumIterations) as [->|?]; [|lia].
    exfalso. unfold rotatedColumn in HRc.
    apply bind_Ok in HRc as (Rc0 & Hassign & _).
    unfold assign in Hassign. simpl in Hassign.
    rewrite !Z.eqb_refl in Hassign. simpl in Hassign.
    apply bind_Ok in Hassign as (buf & Hcopy & _).
    apply copyMat_first in Hcopy as [v Hv]; [|lia|lia].
    apply load_inv in Hv as [Hv _]. rewrite length_replicate in Hv. nia.
Qed.

(** X7.  [reallocateAndReset] does not touch the rotation arrays, whatever
    the growth of the matrices; so on the problem it returns no column at
    or beyond the length of [theCosines] can be updated. *)
Theorem reallocateAndReset_rotation_arrays (problem problem' : problem_type)
    (beta : magnitudeType) (maxNumIterations : Z) :
  reallocateAndReset problem beta maxNumIterations = Ok problem' ->
  theCosines problem' = theCosines problem
  /\ theSines problem' = theSines problem
  /\ forall curCol out,
       Z.of_nat (length (theCosines problem)) <= curCol ->
       updateColumn problem' curCol <> Ok out.
Proof.
  unfold reallocateAndReset. intros Hrun. inv_bind Hrun.
  unfold reset in Hrun. inv_bind Hrun. injection Hrun as <-. simpl.
  split; [reflexivity|]. split; [reflexivity|].
  intros k [p'' n''] Hk Hupd.
  apply updateColumn_steps in Hupd
    as (Rc & x0 & x1 & _ & _ & _ & Hc & _).
  apply store_inv in Hc as [Hc _]. simpl in Hc. lia.
Qed.
End MoreProblemProperties.

(** ** The triangular solver, continued *)

Section MoreSolverProperties.
Context {Scalar magnitudeType : Type}.
Context {STS : ScalarTraits Scalar magnitudeType}.
Context {blas : BLAS Scalar}.
Context {lapack : LAPACK Scalar magnitudeType}.

Local Abbreviation mat_type := (SerialDenseMatrix Scalar).
Local Abbreviation problem_type := (ProjectedLeastSquaresProblem Scalar).

Lemma TRSM_left_upper_Throw (m n : Z) (alpha : Scalar) (A : list Scalar)
    (aoff lda : Z) (B : list Scalar) (boff ldb : Z) (e : exn) :
  TRSM_left_upper m n alpha A aoff lda B boff ldb = Throw e ->
  e = range_error.
Proof.
  unfold TRSM_left_upper, zeroBlock, for_down, for_range.
  destruct (STS_eqb alpha STS_zero); intros Hrun.
  { apply for_steps_Throw in Hrun as (j & d & Hrun).
    apply for_steps_Throw in Hrun as (i & d' & Hrun).
    eapply store_Throw; eassumption. }
  apply for_steps_Throw in Hrun as (j & d & Hrun).
  apply bind_Throw in Hrun as [Hscale|(d1 & _ & Hrun)].
  { destruct (STS_eqb alpha STS_one); [discriminate|].
    apply for_steps_Throw in Hscale as (i & d' & Hscale).
    apply bind_Throw in Hscale as [Hl|(v & _ & Hst)];
      [eapply load_Throw | eapply store_Throw]; eassumption. }
  apply for_steps_Throw in Hrun as (k & d' & Hrun).
  apply bind_Throw in Hrun as [Hl|(bkj & _ & Hrun)];
    [eapply load_Throw; eassumption|].
  destruct (STS_eqb bkj STS_zero); [discriminate|].
  apply bind_Throw in Hrun as [Hl|(akk & _ & Hrun)];
    [eapply load_Throw; eassumption|].
  apply bind_Throw in Hrun as [Hl|(d2 & _ & Hrun)];
    [eapply store_Throw; eassumption|].
  apply for_steps_Throw in Hrun as (i & d'' & Hrun).
  apply bind_Throw in Hrun as [Hl|(bij & _ & Hrun)];
    [eapply load_Throw; eassumption|].
  apply bind_Throw in Hrun as [Hl|(aik & _ & Hst)];
    [eapply load_Throw | eapply store_Throw]; eassumption.
Qed.

Lemma TRSM_left_upper_frame (m n : Z) (alpha : Scalar) (A : list Scalar)
    (aoff lda : Z) (B B' : list Scalar) (boff ldb q : Z) :
  TRSM_left_upper m n alpha A aoff lda B boff ldb = Ok B' ->
  (forall i j, 0 <= i < m -> 0 <= j < n -> q <> boff + i + j * ldb) ->
  load B' q = load B q.
Proof.
  intros Hrun Hout. revert Hrun.
  assert (Hstore : forall i j d d' v, 0 <= i < m -> 0 <= j < n ->
            store d (boff + i + j * ldb) v = Ok d' ->
            load d q = load B q -> load d' q = load B q).
  { intros i j d d' v Hi Hj Hst Hd. rewrite <- Hd.
    eapply load_store_other; [eassumption|].
    intros Heq. apply (Hout i j Hi Hj). congruence. }
  unfold TRSM_left_upper, zeroBlock, for_down.
  destruct (STS_eqb alpha STS_zero).
  { apply (for_range_post_in (fun d => load d q = load B q)); [reflexivity|].
    intros j d d' Hj Hrun Hd. revert Hrun.
    apply (for_range_post_in (fun d => load d q = load B q)); [assumption|].
    intros i e e' Hi Hpass He. eapply Hstore; eassumption. }
  apply (for_range_post_in (fun d => load d q = load B q)); [reflexivity|].
  intros j d d' Hj Hrun Hd.
  apply bind_Ok in Hrun as (d1 & Hscale & Hrun).
  assert (Hd1 : load d1 q = load B q).
  { destruct (STS_eqb alpha STS_one); [congruence|]. revert Hscale.
    apply (for_range_post_in (fun d => load d q = load B q)); [assumption|].
    intros i e e' Hi Hpass He. inv_bind Hpass. eapply Hstore; eassumption. }
  revert Hrun.
  apply (for_range_post_in (fun d => load d q = load B q)); [assumption|].
  intros dk e e' Hdk Hpass He.
  apply bind_Ok in Hpass as (bkj & _ & Hpass).
  destruct (STS_eqb bkj STS_zero); [congruence|].
  apply bind_Ok in Hpass as (akk & _ & Hpass).
  apply bind_Ok in Hpass as (e1 & Hst & Hpass).
  assert (He1 : load e1 q = load B q)
    by (eapply (Hstore (m - 1 - dk) j); [lia | lia | eassumption | assumption]).
  revert Hpass.
  apply (for_range_post_in (fun d => load d q = load B q)); [assumption|].
  intros i f f' Hi Hstep Hf. inv_bind Hstep.
  eapply (Hstore i j); [lia | lia | eassumption | assumption].
Qed.

Lemma writeBack_Throw {A : Type} (buf : list A) (p n : Z) (vals : list A)
    (e : exn) :
  writeBack buf p n vals = Throw e -> e = range_error.
Proof.
  unfold writeBack, for_range. intros Hrun.
  apply for_steps_Throw in Hrun as (i & d & Hrun).
  destruct (vals !! Z.to_nat i); [|discriminate].
  eapply store_Throw; eassumption.
Qed.

Lemma TEST_FOR_EXCEPTION_Throw (cond : bool) (e e' : exn) :
  TEST_FOR_EXCEPTION cond e = Throw e' -> cond = true /\ e' = e.
Proof. destruct cond; simpl; [intros [= ->]; auto | discriminate]. Qed.

Lemma TEST_FOR_EXCEPTION_Throw' (cond : bool) (e e' : exn) :
  TEST_FOR_EXCEPTION cond e = Throw e' -> e' = e.
Proof. intros Ht. apply TEST_FOR_EXCEPTION_Throw in Ht as [_ ->]. auto. Qed.

Lemma latrsColumn_Throw (x Rm : mat_type) (N j : Z)
    (st : list Scalar * magnitudeType * list magnitudeType * bool * bool)
    (e : exn) :
  latrsColumn x Rm N j st = Throw e -> e = range_error \/ e = logic_error.
Proof.
  unfold latrsColumn. destruct st as [[[[xbuf sc] cn] nm] fd]. intros Hrun.
  apply bind_Throw in Hrun as [Hl|(px & _ & Hrun)];
    [left; eapply addr_Throw; eassumption|].
  apply bind_Throw in Hrun as [Hl|(c0 & _ & Hrun)];
    [left; eapply load_Throw; eassumption|].
  destruct (LATRS _ _ _ _ _ _ _ _) as [[[xs sc'] cn'] info].
  apply bind_Throw in Hrun as [Hl|(xb & _ & Hrun)];
    [left; eapply writeBack_Throw; eassumption|].
  apply bind_Throw in Hrun as [Hl|(cb & _ & Hrun)];
    [left; eapply writeBack_Throw; eassumption|].
  apply bind_Throw in Hrun as [Hl|(u & _ & Hrun)]; [|discriminate].
  apply TEST_FOR_EXCEPTION_Throw in Hl as [_ ->]. auto.
Qed.

Lemma countRank_Throw (Rm : mat_type) (cnorm : list magnitudeType) (N : Z)
    (e : exn) :
  countRank Rm cnorm N = Throw e -> e = range_error.
Proof.
  unfold countRank, for_range. intros Hrun.
  apply for_steps_Throw in Hrun as (j & rank & Hrun).
  apply bind_Throw in Hrun as [Hl|(rjj & _ & Hrun)];
    [eapply elem_Throw; eassumption|].
  destruct (STS_eqb rjj STS_zero); [|discriminate].
  destruct (j =? 0); [discriminate|].
  apply bind_Throw in Hrun as [Hl|(cj & _ & Hrun)];
    [eapply load_Throw; eassumption|].
  destruct (STM_eqb cj STM_zero); discriminate.
Qed.

(** X8.  The argument errors of [solveUpperTriangularSystem]: it throws
    [std::invalid_argument] exactly when [x] has more columns than [b], or
    [b], [x] or [R] has fewer rows than [R] has columns, or the robustness
    is not 0, 1 or 2.  Nothing after the tests of the arguments throws this
    exception. *)
Theorem solveUpperTriangularSystem_invalid_argument (x Rm b : mat_type)
    (robustness : Z) :
  solveUpperTriangularSystem x Rm b robustness = Throw invalid_argument
  <-> (numCols b < numCols x \/ numRows b < numCols Rm
       \/ numRows x < numCols Rm \/ numRows Rm < numCols Rm
       \/ robustness < 0 \/ 2 < robustness).
Proof.
  unfold solveUpperTriangularSystem.
  destruct (Z.ltb_spec (numCols b) (numCols x)); [intuition lia|].
  destruct (Z.ltb_spec (numRows b) (numCols Rm)); [intuition lia|].
  destruct (Z.ltb_spec (numRows x) (numCols Rm)); [intuition lia|].
  destruct (Z.ltb_spec (numRows Rm) (numCols Rm)); [intuition lia|].
  destruct (Z.ltb_spec robustness 0); [intuition lia|].
  destruct (Z.ltb_spec 2 robustness); [intuition lia|].
  split; [|intros Hd; lia]. intros Hrun. exfalso.
  do 6 (apply bind_Throw in Hrun as [Ht|(? & _ & Hrun)]; [discriminate Ht|]).
  apply bind_Throw in Hrun as [Hc|(xc & _ & Hrun)].
  { destruct (numCols x =? numCols b); apply assign_Throw in Hc;
      discriminate. }
  destruct (robustness =? 0).
  { apply bind_Throw in Hrun as [Ht|(buf & _ & Hrun)]; [|discriminate].
    apply TRSM_left_upper_Throw in Ht. discriminate. }
  destruct (robustness =? 1).
  { apply bind_Throw in Hrun as [Hloop|(st & _ & Hrun)].
    - unfold for_range in Hloop.
      apply for_steps_Throw in Hloop as (j & st & Hpass).
      apply latrsColumn_Throw in Hpass as [?|?]; discriminate.
    - destruct st as [[[[xbuf sc] cn] nm] fd].
      apply bind_Throw in Hrun as [Hr|(rank & _ & Hrun)]; [|discriminate].
      apply countRank_Throw in Hr. discriminate. }
  destruct (robustness =? 2); [|discriminate].
  apply bind_Throw in Hrun as [Ha|(Rc & _ & Hrun)].
  { apply assign_Throw in Ha. discriminate. }
  destruct (GELSS _ _ _ _ _ _ _ _ _ _) as [[[xb rk] lw] info].
  apply bind_Throw in Hrun as [Ht|(u & _ & Hrun)].
  { apply TEST_FOR_EXCEPTION_Throw in Ht as [_ ?]. discriminate. }
  apply bind_Throw in Hrun as [Ht|(u' & _ & Hrun)].
  { apply TEST_FOR_EXCEPTION_Throw in Ht as [_ ?]. discriminate. }
  destruct (GELSS _ _ _ _ _ _ _ _ _ _) as [[[xb' rk'] lw'] info'].
  apply bind_Throw in Hrun as [Ht|(u'' & _ & Hrun)]; [|discriminate].
  apply TEST_FOR_EXCEPTION_Throw in Ht as [_ ?]. discriminate.
Qed.

(** X9.  [solve (problem, curCol)] writes the rows [0 .. curCol] of [y] and
    nothing else: when it returns, [H], [R], [z] and the rotation arrays
    are as they were, and so is every row of [y] from [curCol+1] on. *)
Theorem solve_frame (problem problem' : problem_type) (curCol : Z) :
  validSolve problem curCol = true ->
  solve problem curCol = Ok problem' ->
  H problem' = H problem /\ R problem' = R problem
  /\ z problem' = z problem
  /\ theCosines problem' = theCosines problem
  /\ theSines problem' = theSines problem
  /\ same_shape (y problem') (y problem)
  /\ forall i j, curCol + 1 <= i < numRows (y problem) ->
       0 <= j < numCols (y problem) ->
       elem (y problem') i j = elem (y problem) i j.
Proof.
  unfold validSolve. rewrite !andb_true_iff, !Z.leb_le.
  intros ((((((((Hk & Hfy) & HfR) & Hfz) & Hry) & HrR) & HcR) & Hrz) & Hc).
  intros Hrun. unfold solve, solveGivens in Hrun.
  apply bind_Ok in Hrun as (y' & Hrun & Hp). injection Hp as <-. simpl.
  apply bind_Ok in Hrun as ([yv pair] & Hsolve & Hy). injection Hy as <-.
  replace (curCol + 2 - 1) with (curCol + 1) in Hsolve by lia.
  unfold solveUpperTriangularSystem in Hsolve. inv_bind Hsolve.
  change (0 =? 0) with true in Hsolve. cbv iota in Hsolve.
  apply bind_Ok in Hsolve as (buf & Htrsm & Hres).
  injection Hres as <- <-. simpl in *.
  repeat (split; [reflexivity|]).
  set (yview := View (y problem) (curCol + 1) (numCols (y problem)) 0 0)
    in *.
  assert (Hshape : same_shape a5 yview).
  { destruct (numCols (y problem) =? numCols (z problem));
      eapply assign_shape; eassumption. }
  pose proof (TRSM_left_upper_length _ _ _ _ _ _ _ _ _ _ Htrsm) as Hlen.
  destruct Hshape as (Hnr & Hnc & Hst & Hoff & Hl). simpl in *.
  split; [repeat split; simpl; congruence|].
  intros i j Hi Hj.
  rewrite (elem_load (with_buffer (y problem) buf) i j) by (simpl; lia).
  rewrite (elem_load (y problem) i j) by lia. simpl.
  assert (Hout : forall i' j', 0 <= i' < curCol + 1 ->
            0 <= j' < numCols (y problem) ->
            offset (y problem) + i + j * stride (y problem)
            <> offset (y problem) + i' + j' * stride (y problem)).
  { intros i' j' Hi' Hj' Heq.
    destruct (index_inj (y problem) i j i' j' Hfy) as [-> ->];
      [lia | lia | lia | lia | lia | lia]. }
  rewrite (TRSM_left_upper_frame _ _ _ _ _ _ _ _ _ _ _ Htrsm).
  - revert Ha5.
    destruct (numCols (y problem) =? numCols (z problem)); intros Ha5;
      (change (buffer (y problem)) with (buffer yview);
       eapply assign_frame; [exact Ha5|]);
      intros i' j' Hi' Hj'; simpl in *;
      specialize (Hout i' j' ltac:(lia) ltac:(lia)); lia.
  - intros i' j' Hi' Hj'. rewrite Hoff.
    specialize (Hout i' j' ltac:(lia) ltac:(lia)). lia.
Qed.
End MoreSolverProperties.

(** ** Local dense matrix operations, continued *)

Section MoreOpsProperties.
Context {Scalar magnitudeType : Type}.
Context {STS : ScalarTraits Scalar magnitudeType}.
Context {arith : ScalarArith Scalar magnitudeType}.
Context {blas : BLAS Scalar}.

Local Abbreviation mat_type := (SerialDenseMatrix Scalar).

(** The loop that [matScale], [matAdd] and [matSub] share: column by
    column, every entry of [A] is combined by [g] with what [rd] reads for
    it.  When it returns, the storage is as long as before, every entry of
    [A] holds the combination of its old value, and every position outside
    [A] is as it was. *)
Lemma columns_in_place {C D : Type} (A : mat_type) (pre : Z -> result C)
    (rd : C -> Z -> result D) (g : Scalar -> D -> Scalar)
    (buf' : list Scalar) :
  fits A = true ->
  for_range 0 (numCols A) (fun j buf =>
    A_j ← addr A 0 j;
    c ← pre j;
    for_range 0 (numRows A) (fun i buf =>
      aij ← load buf (A_j + i);
      w ← rd c i;
      store buf (A_j + i) (g aij w)) buf) (buffer A) = Ok buf' ->
  length buf' = length (buffer A)
  /\ (forall i j, 0 <= i < numRows A -> 0 <= j < numCols A ->
        exists c a w,
          pre j = Ok c /\ elem A i j = Ok a /\ rd c i = Ok w
          /\ load buf' (offset A + i + j * stride A) = Ok (g a w))
  /\ (forall q,
        (forall i j, 0 <= i < numRows A -> 0 <= j < numCols A ->
           q <> offset A + i + j * stride A) ->
        load buf' q = load (buffer A) q).
Proof.
  intros Hfit Hrun.
  pose proof (proj1 (fits_spec A) Hfit) as (Hnr & Hnc & _).
  split; [|split].
  - revert Hrun.
    apply (for_range_post (fun d => length d = length (buffer A)));
      [reflexivity|].
    intros j d d' Hpass Hd.
    apply bind_Ok in Hpass as (A_j & _ & Hpass).
    apply bind_Ok in Hpass as (c & _ & Hpass). revert Hpass.
    apply (for_range_post (fun d => length d = length (buffer A)));
      [assumption|].
    intros i e e' Hst He.
    apply bind_Ok in Hst as (a & _ & Hst).
    apply bind_Ok in Hst as (w & _ & Hst).
    apply store_length in Hst. congruence.
  - intros i j Hi Hj. rewrite (elem_load A i j Hi Hj).
    set (pos := offset A + i + j * stride A).
    pose (done := fun d : list Scalar =>
            exists c a w,
              pre j = Ok c /\ load (buffer A) pos = Ok a /\ rd c i = Ok w
              /\ load d pos = Ok (g a w)).
    pose (pending := fun d : list Scalar => load d pos = load (buffer A) pos).
    assert (Hend : (j < numCols A -> done buf')
                   /\ (numCols A <= j -> pending buf'));
      [|apply Hend; lia].
    revert Hrun.
    apply (for_range_post_at
             (fun jj d => (j < jj -> done d) /\ (jj <= j -> pending d)));
      [lia | split; [lia | reflexivity] |].
    intros j0 d d' Hj0 Hpass [Hdone Hpend].
    apply bind_Ok in Hpass as (A_j & HA_j & Hpass).
    apply addr_inv in HA_j as [_ ->].
    apply bind_Ok in Hpass as (c & Hc & Hpass).
    assert (Hrow : ((j < j0 \/ (j = j0 /\ i < numRows A)) -> done d')
                   /\ ((j0 < j \/ (j = j0 /\ numRows A <= i)) -> pending d')).
    { revert Hpass.
      apply (for_range_post_at
               (fun ii e =>
                  ((j < j0 \/ (j = j0 /\ i < ii)) -> done e)
                  /\ ((j0 < j \/ (j = j0 /\ ii <= i)) -> pending e)));
        [lia | | ].
      { split; [intros [?|[? ?]]; [auto | lia] | intros ?; apply Hpend; lia]. }
      intros i0 e e' Hi0 Hst [He_done He_pend].
      apply bind_Ok in Hst as (a & Ha & Hst).
      apply bind_Ok in Hst as (w & Hw & Hst).
      destruct (Z.eq_dec (offset A + 0 + j0 * stride A + i0) pos)
        as [Heq|Hne].
      - destruct (index_inj A i0 j0 i j Hfit) as [-> ->];
          [lia | lia | lia | lia | unfold pos in Heq; lia |].
        split; [|lia]. intros _. exists c, a, w.
        rewrite <- (He_pend ltac:(lia)), <- Heq.
        rewrite (load_store_eq _ _ _ _ Hst). auto.
      - pose proof (load_store_other _ _ _ pos _ Hst Hne) as Hsame.
        assert (Hneq : ~ (j = j0 /\ i = i0)).
        { intros [-> ->]. apply Hne. unfold pos. lia. }
        split.
        + intros Hc'. destruct He_done as (c' & a' & w' & ? & ? & ? & ?);
            [lia|]. exists c', a', w'. rewrite Hsame. auto.
        + intros Hc'. unfold pending. rewrite Hsame. apply He_pend. lia. }
    destruct Hrow as [Hrow_done Hrow_pend].
    split; [intros ?; apply Hrow_done; lia | intros ?; apply Hrow_pend; lia].
  - intros q Hout. revert Hrun.
    apply (for_range_post_in (fun d => load d q = load (buffer A) q));
      [reflexivity|].
    intros j d d' Hj Hpass Hd.
    apply bind_Ok in Hpass as (A_j & HA_j & Hpass).
    apply addr_inv in HA_j as [_ ->].
    apply bind_Ok in Hpass as (c & _ & Hpass). revert Hpass.
    apply (for_range_post_in (fun d => load d q = load (buffer A) q));
      [assumption|].
    intros i e e' Hi Hst He.
    apply bind_Ok in Hst as (a & _ & Hst).
    apply bind_Ok in Hst as (w & _ & Hst).
    rewrite <- He. eapply load_store_other; [eassumption|].
    specialize (Hout i j Hi Hj). lia.
Qed.

(** The same loop throws only what [pre] and [rd] throw, or leaves the
    storage. *)
Lemma columns_in_place_Throw {C D : Type} (A : mat_type)
    (pre : Z -> result C) (rd : C -> Z -> result D)
    (g : Scalar -> D -> Scalar) (buf : list Scalar) (e : exn) :
  (forall j e', pre j = Throw e' -> e' = range_error) ->
  (forall c i e', rd c i = Throw e' -> e' = range_error) ->
  for_range 0 (numCols A) (fun j buf =>
    A_j ← addr A 0 j;
    c ← pre j;
    for_range 0 (numRows A) (fun i buf =>
      aij ← load buf (A_j + i);
      w ← rd c i;
      store buf (A_j + i) (g aij w)) buf) buf = Throw e ->
  e = range_error.
Proof.
  intros Hpre Hrd Hrun. unfold for_range in Hrun.
  apply for_steps_Throw in Hrun as (j & d & Hrun).
  apply bind_Throw in Hrun as [Ha|(A_j & _ & Hrun)];
    [eapply addr_Throw; eassumption|].
  apply bind_Throw in Hrun as [Hp|(c & _ & Hrun)];
    [eapply Hpre; eassumption|].
  apply for_steps_Throw in Hrun as (i & d' & Hrun).
  apply bind_Throw in Hrun as [Hl|(a & _ & Hrun)];
    [eapply load_Throw; eassumption|].
  apply bind_Throw in Hrun as [Hr|(w & _ & Hrun)];
    [eapply Hrd; eassumption|].
  eapply store_Throw; eassumption.
Qed.

(** The same loop returns when the matrix lies in its storage and [pre]
    and [rd] give a value at every column and entry. *)
Lemma columns_in_place_Ok {C D : Type} (A : mat_type) (pre : Z -> result C)
    (rd : C -> Z -> result D) (g : Scalar -> D -> Scalar) :
  fits A = true ->
  0 < numRows A ->
  (forall j, 0 <= j < numCols A ->
     exists c, pre j = Ok c
       /\ forall i, 0 <= i < numRows A -> exists w, rd c i = Ok w) ->
  exists buf',
    for_range 0 (numCols A) (fun j buf =>
      A_j ← addr A 0 j;
      c ← pre j;
      for_range 0 (numRows A) (fun i buf =>
        aij ← load buf (A_j + i);
        w ← rd c i;
        store buf (A_j + i) (g aij w)) buf) (buffer A) = Ok buf'.
Proof.
  intros Hfit Hnr Hread.
  destruct (for_range_keeps
              (fun d : list Scalar => length d = length (buffer A))
              0 (numCols A)
              (fun j buf =>
                 A_j ← addr A 0 j;
                 c ← pre j;
                 for_range 0 (numRows A) (fun i buf =>
                   aij ← load buf (A_j + i);
                   w ← rd c i;
                   store buf (A_j + i) (g aij w)) buf)
              (buffer A)) as (buf' & Hloop & _); [reflexivity | | eauto].
  intros j d Hj Hd.
  rewrite (bind_Ok_l _ _ _ (addr_Ok A 0 j ltac:(lia) Hj)).
  destruct (Hread j Hj) as (c & Hc & Hrd).
  rewrite (bind_Ok_l _ _ _ Hc).
  apply (for_range_keeps
           (fun d : list Scalar => length d = length (buffer A)));
    [assumption|].
  intros i e Hi He.
  assert (Hpos : 0 <= offset A + 0 + j * stride A + i
                 < Z.of_nat (length e)).
  { rewrite He. pose proof (fits_index A i j Hfit Hi Hj). lia. }
  destruct (load_Ok e _ Hpos) as [a Ha].
  rewrite (bind_Ok_l _ _ _ Ha).
  destruct (Hrd i Hi) as [w Hw].
  rewrite (bind_Ok_l _ _ _ Hw).
  rewrite store_Ok by assumption.
  eexists. split; [reflexivity|]. rewrite length_insert. assumption.
Qed.

Lemma matScale_dims (A A' : mat_type) (alpha : Scalar) :
  matScale A alpha = Ok A' ->
  numRows A' = numRows A /\ numCols A' = numCols A
  /\ stride A' = stride A /\ offset A' = offset A.
Proof.
  unfold matScale. destruct (_ || _).
  - intros [= <-]. auto.
  - intros Hrun. apply bind_Ok in Hrun as (buf & _ & Hrun).
    injection Hrun as <-. auto.
Qed.

Lemma matScale_Throw (A : mat_type) (alpha : Scalar) (e : exn) :
  matScale A alpha = Throw e -> e = range_error.
Proof.
  unfold matScale. destruct (_ || _); [discriminate|]. intros Hrun.
  apply bind_Throw in Hrun as [Hl|(buf & _ & Hrun)]; [|discriminate].
  revert Hl.
  apply (columns_in_place_Throw A (fun _ => Ok tt) (fun _ _ => Ok tt)
           (fun a _ => STS_mul a alpha)); discriminate.
Qed.

(** X10.  [matScale (A, alpha)] multiplies every entry of [A] by [alpha]
    from the right, in place.  On a matrix that lies in its storage the
    call returns; [A] has the shape it had, each entry is the old one times
    [alpha], and the storage outside [A] (the padding of a matrix with a
    larger stride, the rest of a viewed matrix) is untouched. *)
Theorem matScale_entries (A : mat_type) (alpha : Scalar) :
  fits A = true ->
  exists A',
    matScale A alpha = Ok A'
    /\ same_shape A' A
    /\ (forall i j, 0 <= i < numRows A -> 0 <= j < numCols A ->
          exists a, elem A i j = Ok a /\ elem A' i j = Ok (STS_mul a alpha))
    /\ (forall q,
          (forall i j, 0 <= i < numRows A -> 0 <= j < numCols A ->
             q <> offset A + i + j * stride A) ->
          load (buffer A') q = load (buffer A) q).
Proof.
  intros Hfit. unfold matScale.
  pose proof (proj1 (fits_spec A) Hfit) as (Hnr & Hnc & _).
  destruct (Z.eqb_spec (numRows A) 0) as [Hr0|Hr0];
    [|destruct (Z.eqb_spec (numCols A) 0) as [Hc0|Hc0]]; simpl.
  - exists A. split; [reflexivity|].
    split; [apply same_shape_refl|]. split; [lia|auto].
  - exists A. split; [reflexivity|].
    split; [apply same_shape_refl|]. split; [lia|auto].
  - destruct (columns_in_place_Ok A (fun _ => Ok tt) (fun _ _ => Ok tt)
                (fun a _ => STS_mul a alpha) Hfit ltac:(lia))
      as [buf Hloop]; [eauto|].
    rewrite (bind_Ok_l _ _ _ Hloop). eexists. split; [reflexivity|].
    destruct (columns_in_place A (fun _ => Ok tt) (fun _ _ => Ok tt)
                (fun a _ => STS_mul a alpha) buf Hfit Hloop)
      as (Hlen & Hentries & Hframe).
    split; [repeat split; assumption|]. split; [|exact Hframe].
    intros i j Hi Hj.
    destruct (Hentries i j Hi Hj) as (c & a & w & _ & Ha & _ & Hv).
    exists a. split; [assumption|].
    rewrite (elem_load (with_buffer A buf) i j Hi Hj). exact Hv.
Qed.

Lemma dims_differ (A B : mat_type) :
  negb (numRows B =? numRows A) || negb (numCols B =? numCols A) = true
  <-> (numRows B <> numRows A \/ numCols B <> numCols A).
Proof.
  rewrite orb_true_iff, !negb_true_iff, !Z.eqb_neq. tauto.
Qed.

Lemma dims_agree (A B : mat_type) :
  negb (numRows B =? numRows A) || negb (numCols B =? numCols A) = false ->
  numRows B = numRows A /\ numCols B = numCols A.
Proof.
  rewrite orb_false_iff, !negb_false_iff, !Z.eqb_eq. tauto.
Qed.

(** X11.  [matAdd (A, B)] adds [B] to [A] entry by entry, in place.  A call that
    returns was given two matrices of the same dimensions; [A] has the
    shape it had, each entry of [A] is the old one plus the entry of [B],
    and the storage outside [A] is untouched.  And the call does return
    when the two matrices have the same dimensions and lie in their
    storage. *)
Theorem matAdd_entries (A B : mat_type) :
  fits A = true ->
  (forall A',
     matAdd A B = Ok A' ->
     (numRows B = numRows A /\ numCols B = numCols A)
     /\ same_shape A' A
     /\ (forall i j, 0 <= i < numRows A -> 0 <= j < numCols A ->
           exists a b,
             elem A i j = Ok a /\ elem B i j = Ok b
             /\ elem A' i j = Ok (STS_add a b))
     /\ (forall q,
           (forall i j, 0 <= i < numRows A -> 0 <= j < numCols A ->
              q <> offset A + i + j * stride A) ->
           load (buffer A') q = load (buffer A) q))
  /\ (fits B = true -> numRows B = numRows A -> numCols B = numCols A ->
      exists A', matAdd A B = Ok A').
Proof.
  intros Hfit. split.
  - intros A'. unfold matAdd.
    destruct (negb (numRows B =? numRows A) || negb (numCols B =? numCols A))
      eqn:Hdims; [discriminate|].
    pose proof (dims_agree A B Hdims) as Hsame.
    intros Hrun. apply bind_Ok in Hrun as (u & _ & Hrun).
    split; [exact Hsame|]. destruct Hsame as [HBr HBc].
    revert Hrun.
    destruct (Z.eqb_spec (numRows A) 0) as [Hr0|Hr0];
      [|destruct (Z.eqb_spec (numCols A) 0) as [Hc0|Hc0]]; simpl.
    + intros [= <-]. split; [apply same_shape_refl|]. split; [lia|auto].
    + intros [= <-]. split; [apply same_shape_refl|]. split; [lia|auto].
    + intros Hrun. apply bind_Ok in Hrun as (buf & Hloop & Hrun).
      injection Hrun as <-.
      destruct (columns_in_place A (fun j => addr B 0 j)
                  (fun B_j i => load (buffer B) (B_j + i)) STS_add
                  buf Hfit Hloop)
        as (Hlen & Hentries & Hframe).
      split; [repeat split; assumption|]. split; [|exact Hframe].
      intros i j Hi Hj.
      destruct (Hentries i j Hi Hj) as (B_j & a & b & HB_j & Ha & Hb & Hv).
      apply addr_inv in HB_j as [_ ->].
      exists a, b. split; [assumption|]. split.
      * rewrite (elem_load B i j) by lia. rewrite <- Hb. f_equal. lia.
      * rewrite (elem_load (with_buffer A buf) i j Hi Hj). exact Hv.
  - intros HfB HBr HBc. unfold matAdd.
    rewrite HBr, HBc, !Z.eqb_refl. simpl.
    pose proof (proj1 (fits_spec A) Hfit) as (Hnr & Hnc & _).
    destruct (Z.eqb_spec (numRows A) 0) as [Hr0|Hr0];
      [|destruct (Z.eqb_spec (numCols A) 0) as [Hc0|Hc0]]; simpl;
      [eauto | eauto |].
    destruct (columns_in_place_Ok A (fun j => addr B 0 j)
                (fun B_j i => load (buffer B) (B_j + i)) STS_add
                Hfit ltac:(lia)) as [buf Hloop].
    + intros j Hj. exists (offset B + 0 + j * stride B).
      split; [apply addr_Ok; lia|].
      intros i Hi. apply load_Ok.
      pose proof (fits_index B i j HfB ltac:(lia) ltac:(lia)). lia.
    + rewrite (bind_Ok_l _ _ _ Hloop). eauto.
Qed.

(** X12.  [matSub (A, B)] subtracts [B] from [A] entry by entry, in place.  A call that
    returns was given two matrices of the same dimensions; [A] has the
    shape it had, each entry of [A] is the old one minus the entry of [B],
    and the storage outside [A] is untouched.  And the call does return
    when the two matrices have the same dimensions and lie in their
    storage. *)
Theorem matSub_entries (A B : mat_type) :
  fits A = true ->
  (forall A',
     matSub A B = Ok A' ->
     (numRows B = numRows A /\ numCols B = numCols A)
     /\ same_shape A' A
     /\ (forall i j, 0 <= i < numRows A -> 0 <= j < numCols A ->
           exists a b,
             elem A i j = Ok a /\ elem B i j = Ok b
             /\ elem A' i j = Ok (STS_sub a b))
     /\ (forall q,
           (forall i j, 0 <= i < numRows A -> 0 <= j < numCols A ->
              q <> offset A + i + j * stride A) ->
           load (buffer A') q = load (buffer A) q))
  /\ (fits B = true -> numRows B = numRows A -> numCols B = numCols A ->
      exists A', matSub A B = Ok A').
Proof.
  intros Hfit. split.
  - intros A'. unfold matSub.
    destruct (negb (numRows B =? numRows A) || negb (numCols B =? numCols A))
      eqn:Hdims; [discriminate|].
    pose proof (dims_agree A B Hdims) as Hsame.
    intros Hrun. apply bind_Ok in Hrun as (u & _ & Hrun).
    split; [exact Hsame|]. destruct Hsame as [HBr HBc].
    revert Hrun.
    destruct (Z.eqb_spec (numRows A) 0) as [Hr0|Hr0];
      [|destruct (Z.eqb_spec (numCols A) 0) as [Hc0|Hc0]]; simpl.
    + intros [= <-]. split; [apply same_shape_refl|]. split; [lia|auto].
    + intros [= <-]. split; [apply same_shape_refl|]. split; [lia|auto].
    + intros Hrun. apply bind_Ok in Hrun as (buf & Hloop & Hrun).
      injection Hrun as <-.
      destruct (columns_in_place A (fun j => addr B 0 j)
                  (fun B_j i => load (buffer B) (B_j + i)) STS_sub
                  buf Hfit Hloop)
        as (Hlen & Hentries & Hframe).
      split; [repeat split; assumption|]. split; [|exact Hframe].
      intros i j Hi Hj.
      destruct (Hentries i j Hi Hj) as (B_j & a & b & HB_j & Ha & Hb & Hv).
      apply addr_inv in HB_j as [_ ->].
      exists a, b. split; [assumption|]. split.
      * rewrite (elem_load B i j) by lia. rewrite <- Hb. f_equal. lia.
      * rewrite (elem_load (with_buffer A buf) i j Hi Hj). exact Hv.
  - intros HfB HBr HBc. unfold matSub.
    rewrite HBr, HBc, !Z.eqb_refl. simpl.
    pose proof (proj1 (fits_spec A) Hfit) as (Hnr & Hnc & _).
    destruct (Z.eqb_spec (numRows A) 0) as [Hr0|Hr0];
      [|destruct (Z.eqb_spec (numCols A) 0) as [Hc0|Hc0]]; simpl;
      [eauto | eauto |].
    destruct (columns_in_place_Ok A (fun j => addr B 0 j)
                (fun B_j i => load (buffer B) (B_j + i)) STS_sub
                Hfit ltac:(lia)) as [buf Hloop].
    + intros j Hj. exists (offset B + 0 + j * stride B).
      split; [apply addr_Ok; lia|].
      intros i Hi. apply load_Ok.
      pose proof (fits_index B i j HfB ltac:(lia) ltac:(lia)). lia.
    + rewrite (bind_Ok_l _ _ _ Hloop). eauto.
Qed.

Lemma matAdd_Throw (A B : mat_type) (e : exn) :
  matAdd A B = Throw e ->
  (e = invalid_argument
   /\ (numRows B <> numRows A \/ numCols B <> numCols A))
  \/ (e = range_error /\ numRows B = numRows A /\ numCols B = numCols A).
Proof.
  unfold matAdd.
  destruct (negb (numRows B =? numRows A) || negb (numCols B =? numCols A))
    eqn:Hdims.
  - intros [= <-]. left. split; [reflexivity|]. apply dims_differ, Hdims.
  - change (TEST_FOR_EXCEPTION false invalid_argument;; ?k) with k.
    intros Hrun. right.
    split.
    + revert Hrun.
      destruct ((numRows A =? 0) || (numCols A =? 0)); [discriminate|].
      intros Hrun.
      apply bind_Throw in Hrun as [Hl|(buf & _ & Hrun)]; [|discriminate].
      revert Hl.
      apply (columns_in_place_Throw A (fun j => addr B 0 j)
               (fun B_j i => load (buffer B) (B_j + i)) STS_add).
      * intros j e'. apply addr_Throw.
      * intros c i e'. apply load_Throw.
    + apply dims_agree, Hdims.
Qed.

Lemma matSub_Throw (A B : mat_type) (e : exn) :
  matSub A B = Throw e ->
  (e = invalid_argument
   /\ (numRows B <> numRows A \/ numCols B <> numCols A))
  \/ (e = range_error /\ numRows B = numRows A /\ numCols B = numCols A).
Proof.
  unfold matSub.
  destruct (negb (numRows B =? numRows A) || negb (numCols B =? numCols A))
    eqn:Hdims.
  - intros [= <-]. left. split; [reflexivity|]. apply dims_differ, Hdims.
  - change (TEST_FOR_EXCEPTION false invalid_argument;; ?k) with k.
    intros Hrun. right.
    split.
    + revert Hrun.
      destruct ((numRows A =? 0) || (numCols A =? 0)); [discriminate|].
      intros Hrun.
      apply bind_Throw in Hrun as [Hl|(buf & _ & Hrun)]; [|discriminate].
      revert Hl.
      apply (columns_in_place_Throw A (fun j => addr B 0 j)
               (fun B_j i => load (buffer B) (B_j + i)) STS_sub).
      * intros j e'. apply addr_Throw.
      * intros c i e'. apply load_Throw.
    + apply dims_agree, Hdims.
Qed.

Lemma matSub_dims_differ (A B : mat_type) :
  numRows B <> numRows A \/ numCols B <> numCols A ->
  matSub A B = Throw invalid_argument.
Proof.
  intros Hd. unfold matSub. rewrite (proj2 (dims_differ A B) Hd).
  reflexivity.
Qed.

Lemma matAdd_dims_differ (A B : mat_type) :
  numRows B <> numRows A \/ numCols B <> numCols A ->
  matAdd A B = Throw invalid_argument.
Proof.
  intros Hd. unfold matAdd. rewrite (proj2 (dims_differ A B) Hd).
  reflexivity.
Qed.

(** X13.  The dimension error of [matAdd] and [matSub]: each throws
    [std::invalid_argument] exactly when the two matrices differ in the
    number of rows or of columns, whatever the matrices hold; the loop that
    follows the test never does. *)
Theorem matAdd_matSub_dimension_test (A B : mat_type) :
  (matAdd A B = Throw invalid_argument
   <-> (numRows B <> numRows A \/ numCols B <> numCols A))
  /\ (matSub A B = Throw invalid_argument
      <-> (numRows B <> numRows A \/ numCols B <> numCols A)).
Proof.
  split; split.
  - intros Hrun. apply matAdd_Throw in Hrun as [[_ Hd]|[He _]];
      [assumption | discriminate].
  - apply matAdd_dims_differ.
  - intros Hrun. apply matSub_Throw in Hrun as [[_ Hd]|[He _]];
      [assumption | discriminate].
  - apply matSub_dims_differ.
Qed.
End MoreOpsProperties.

(** ** The matrix product and the change-of-basis updater *)

Section ChangeOfBasisProperties.
Context {Scalar magnitudeType : Type}.
Context {STS : ScalarTraits Scalar magnitudeType}.
Context {arith : ScalarArith Scalar magnitudeType}.
Context {blas : BLAS Scalar}.

Local Abbreviation mat_type := (SerialDenseMatrix Scalar).
Local Abbreviation problem_type := (ProjectedLeastSquaresProblem Scalar).

Lemma operand_load_Throw (X : operand Scalar) (C : list Scalar) (p : Z)
    (e : exn) :
  operand_load X C p = Throw e -> e = range_error.
Proof. destruct X; apply load_Throw. Qed.

Lemma GEMM_Throw (m n k : Z) (alpha : Scalar) (A : operand Scalar)
    (aoff lda : Z) (B : operand Scalar) (boff ldb : Z) (beta : Scalar)
    (C : list Scalar) (coff ldc : Z) (e : exn) :
  GEMM m n k alpha A aoff lda B boff ldb beta C coff ldc = Throw e ->
  e = range_error.
Proof.
  unfold GEMM, zeroBlock, for_range.
  destruct (_ || _); [discriminate|].
  destruct (STS_eqb alpha STS_zero).
  { destruct (STS_eqb beta STS_zero); intros Hrun;
      apply for_steps_Throw in Hrun as (j & d & Hrun);
      apply for_steps_Throw in Hrun as (i & d' & Hrun).
    - eapply store_Throw; eassumption.
    - apply bind_Throw in Hrun as [Hl|(c & _ & Hst)];
        [eapply load_Throw | eapply store_Throw]; eassumption. }
  intros Hrun. apply for_steps_Throw in Hrun as (j & d & Hrun).
  apply bind_Throw in Hrun as [Hscale|(d1 & _ & Hrun)].
  { destruct (STS_eqb beta STS_zero).
    - apply for_steps_Throw in Hscale as (i & d' & Hst).
      eapply store_Throw; eassumption.
    - destruct (STS_eqb beta STS_one); [discriminate|].
      apply for_steps_Throw in Hscale as (i & d' & Hscale).
      apply bind_Throw in Hscale as [Hl|(c & _ & Hst)];
        [eapply load_Throw | eapply store_Throw]; eassumption. }
  apply for_steps_Throw in Hrun as (l & d' & Hrun).
  apply bind_Throw in Hrun as [Hl|(blj & _ & Hrun)];
    [eapply operand_load_Throw; eassumption|].
  apply for_steps_Throw in Hrun as (i & d'' & Hrun).
  apply bind_Throw in Hrun as [Hl|(cij & _ & Hrun)];
    [eapply load_Throw; eassumption|].
  apply bind_Throw in Hrun as [Hl|(ail & _ & Hst)];
    [eapply operand_load_Throw | eapply store_Throw]; eassumption.
Qed.

(** X14.  The dimension error of [matMatMult]: it throws
    [std::invalid_argument] exactly when [A] has not as many columns as [B]
    has rows, or not as many rows as [C], or [B] has not as many columns as
    [C]; the product itself never does, whatever the three matrices hold
    and whether or not the inputs are views of the storage of [C]. *)
Theorem matMatMult_dimension_test (beta alpha : Scalar) (C : mat_type)
    (A B : operand Scalar) :
  matMatMult beta C alpha A B = Throw invalid_argument
  <-> (numCols (operand_matrix A) <> numRows (operand_matrix B)
       \/ numRows (operand_matrix A) <> numRows C
       \/ numCols (operand_matrix B) <> numCols C).
Proof.
  unfold matMatMult.
  destruct (Z.eqb_spec (numCols (operand_matrix A))
              (numRows (operand_matrix B))) as [H1|H1];
    [|simpl; tauto].
  destruct (Z.eqb_spec (numRows (operand_matrix A)) (numRows C)) as [H2|H2];
    [|simpl; tauto].
  destruct (Z.eqb_spec (numCols (operand_matrix B)) (numCols C)) as [H3|H3];
    [|simpl; tauto].
  simpl. split; [|tauto]. intros Hrun.
  apply bind_Throw in Hrun as [Hg|(buf & _ & Hrun)]; [|discriminate].
  apply GEMM_Throw in Hg. discriminate.
Qed.

Lemma matMatMult_Throw (beta alpha : Scalar) (C : mat_type)
    (A B : operand Scalar) (e : exn) :
  matMatMult beta C alpha A B = Throw e ->
  (e = invalid_argument
   /\ (numCols (operand_matrix A) <> numRows (operand_matrix B)
       \/ numRows (operand_matrix A) <> numRows C
       \/ numCols (operand_matrix B) <> numCols C))
  \/ e = range_error.
Proof.
  unfold matMatMult.
  destruct (Z.eqb_spec (numCols (operand_matrix A))
              (numRows (operand_matrix B))) as [H1|H1];
    [|simpl; intros [= <-]; auto].
  destruct (Z.eqb_spec (numRows (operand_matrix A)) (numRows C)) as [H2|H2];
    [|simpl; intros [= <-]; auto].
  destruct (Z.eqb_spec (numCols (operand_matrix B)) (numCols C)) as [H3|H3];
    [|simpl; intros [= <-]; auto].
  simpl. intros Hrun.
  apply bind_Throw in Hrun as [Hg|(buf & _ & Hrun)]; [|discriminate].
  apply GEMM_Throw in Hg. auto.
Qed.

Lemma matMatMult_dims (beta alpha : Scalar) (C C' : mat_type)
    (A B : operand Scalar) :
  matMatMult beta C alpha A B = Ok C' ->
  numRows C' = numRows C /\ numCols C' = numCols C.
Proof.
  unfold matMatMult. intros Hrun.
  do 3 (apply bind_Ok in Hrun as (? & _ & Hrun)).
  apply bind_Ok in Hrun as (buf & _ & Hrun). injection Hrun as <-. auto.
Qed.

Lemma rightUpperTriSolve_Throw (B Rm : mat_type) (e : exn) :
  rightUpperTriSolve B Rm = Throw e ->
  (e = invalid_argument /\ numCols B <> numRows Rm) \/ e = range_error.
Proof.
  unfold rightUpperTriSolve.
  destruct (Z.eqb_spec (numCols B) (numRows Rm)) as [Heq|Hne];
    [|simpl; intros [= <-]; auto].
  simpl. intros Hrun.
  apply bind_Throw in Hrun as [Hg|(buf & _ & Hrun)]; [|discriminate].
  apply TRSM_right_upper_Throw in Hg. auto.
Qed.

Lemma rightUpperTriSolve_dims (B B' Rm : mat_type) :
  rightUpperTriSolve B Rm = Ok B' ->
  numRows B' = numRows B /\ numCols B' = numCols B.
Proof.
  unfold rightUpperTriSolve. intros Hrun.
  apply bind_Ok in Hrun as (? & _ & Hrun).
  apply bind_Ok in Hrun as (buf & _ & Hrun). injection Hrun as <-. auto.
Qed.

Lemma matAdd_dims (A A' B : mat_type) :
  matAdd A B = Ok A' ->
  numRows A' = numRows A /\ numCols A' = numCols A.
Proof.
  unfold matAdd. intros Hrun. apply bind_Ok in Hrun as (? & _ & Hrun).
  revert Hrun. destruct ((numRows A =? 0) || (numCols A =? 0)).
  - intros [= <-]. auto.
  - intros Hrun. apply bind_Ok in Hrun as (buf & _ & Hrun).
    injection Hrun as <-. auto.
Qed.

Lemma bind_throws {A B : Type} (P : exn -> Prop) (m : result A)
    (k : A -> result B) :
  (forall e, m = Throw e -> P e) ->
  (forall a, m = Ok a -> exists e, k a = Throw e /\ P e) ->
  exists e, m ≫= k = Throw e /\ P e.
Proof.
  intros Hm Hk. destruct m as [a|e]; simpl; [apply Hk | exists e]; auto.
Qed.

Lemma bind_assoc {A B C : Type} (m : result A) (f : A -> result B)
    (k : B -> result C) :
  (m ≫= f) ≫= k = m ≫= (fun a => f a ≫= k).
Proof. destruct m; reflexivity. Qed.

Lemma bind_ext {A B : Type} (m : result A) (f g : A -> result B) :
  (forall a, f a = g a) -> m ≫= f = m ≫= g.
Proof. intros Hfg. destruct m; simpl; auto. Qed.

(** The second branch of [caGmresUpdateUpperHessenbergImpl] is the steps
    of [caGmresLaterPanel] followed by the last [matSub]. *)
Lemma caGmresUpdateUpperHessenbergImpl_later (Hm Rm B : mat_type)
    (startCol endCol : Z) :
  0 < startCol <= endCol ->
  caGmresUpdateUpperHessenbergImpl Hm Rm B startCol endCol
  = caGmresLaterPanel Hm Rm B startCol endCol
    ≫= (fun '(H1, H_k_underline, lastRow) =>
           H_k_view ← matSub (View H_k_underline 1
                                (endCol - startCol + 1 + 1) 0 0) lastRow;
           Ok (with_buffer H1 (buffer H_k_view))).
Proof.
  intros Hse. unfold caGmresUpdateUpperHessenbergImpl, caGmresLaterPanel.
  destruct (Z.ltb_spec startCol 0); [lia|].
  destruct (Z.ltb_spec endCol startCol); [lia|].
  destruct (Z.eqb_spec startCol 0); [lia|].
  cbv zeta.
  change (TEST_FOR_EXCEPTION false invalid_argument) with (Ok tt : result unit).
  rewrite !(bind_Ok_l _ _ tt eq_refl).
  repeat (rewrite bind_assoc; apply bind_ext; intros ?).
  reflexivity.
Qed.

(** With [0 < startCol <= endCol] the dimensions of every product, solve
    and sum before the last [matSub] agree: those steps throw nothing but
    the exception that stands for an access outside a matrix. *)
Lemma caGmresLaterPanel_Throw (Hm Rm B : mat_type) (startCol endCol : Z)
    (e : exn) :
  0 < startCol <= endCol ->
  caGmresLaterPanel Hm Rm B startCol endCol = Throw e -> e = range_error.
Proof.
  intros Hse Hrun. unfold caGmresLaterPanel in Hrun. cbv zeta in Hrun.
  apply bind_Throw in Hrun as [He|(temp & Htemp & Hrun)];
    [eapply assign_Throw; eassumption|].
  apply assign_shape in Htemp as (Htr & Htc & _). simpl in Htr, Htc.
  apply bind_Throw in Hrun as [He|(temp1 & Htemp1 & Hrun)].
  { apply rightUpperTriSolve_Throw in He as [[_ Hd]|He]; [|assumption].
    simpl in Hd. congruence. }
  apply rightUpperTriSolve_dims in Htemp1 as [Ht1r Ht1c].
  apply bind_Throw in Hrun as [He|(lastRow & _ & Hrun)];
    [eapply assign_Throw; eassumption|].
  apply bind_Throw in Hrun as [He|(H_km1k & HH_km1k & Hrun)].
  { apply matMatMult_Throw in He as [[_ Hd]|He]; [|assumption].
    simpl in Hd. lia. }
  apply matMatMult_dims in HH_km1k as [Hkr Hkc]. simpl in Hkr, Hkc.
  apply bind_Throw in Hrun as [He|(temp2 & Htemp2 & Hrun)].
  { apply matMatMult_Throw in He as [[_ Hd]|He]; [|assumption].
    simpl in Hd. lia. }
  apply matMatMult_dims in Htemp2 as [Ht2r Ht2c].
  apply bind_Throw in Hrun as [He|(temp3 & Htemp3 & Hrun)].
  { apply rightUpperTriSolve_Throw in He as [[_ Hd]|He]; [|assumption].
    simpl in Hd. lia. }
  apply rightUpperTriSolve_dims in Htemp3 as [Ht3r Ht3c].
  apply bind_Throw in Hrun as [He|(H_km1k' & _ & Hrun)].
  { apply matAdd_Throw in He as [[_ Hd]|[He _]]; [|assumption]. lia. }
  apply bind_Throw in Hrun as [He|(H_k_underline & HHku & Hrun)].
  { apply matMatMult_Throw in He as [[_ Hd]|He]; [|assumption].
    simpl in Hd. lia. }
  apply matMatMult_dims in HHku as [Hur Huc]. simpl in Hur, Huc.
  apply bind_Throw in Hrun as [He|(H_k_underline' & _ & Hrun)].
  { apply rightUpperTriSolve_Throw in He as [[_ Hd]|He]; [|assumption].
    simpl in Hd. lia. }
  apply bind_Throw in Hrun as [He|(h & _ & Hrun)];
    [eapply elem_Throw; eassumption|].
  apply bind_Throw in Hrun as [He|(lastRow' & _ & Hrun)];
    [eapply matScale_Throw; eassumption | discriminate].
Qed.

Lemma caGmresLaterPanel_lastRow (Hm Rm B : mat_type) (startCol endCol : Z)
    (H1 H_k_underline lastRow : mat_type) :
  caGmresLaterPanel Hm Rm B startCol endCol
  = Ok (H1, H_k_underline, lastRow) ->
  numRows lastRow = 1 /\ numCols lastRow = endCol - startCol + 1.
Proof.
  intros Hrun. unfold caGmresLaterPanel in Hrun. cbv zeta in Hrun.
  apply bind_Ok in Hrun as (temp & _ & Hrun).
  apply bind_Ok in Hrun as (temp1 & _ & Hrun).
  apply bind_Ok in Hrun as (lastRow0 & HlastRow & Hrun).
  apply assign_shape in HlastRow as (Hlr & Hlc & _). simpl in Hlr, Hlc.
  do 6 (apply bind_Ok in Hrun as (? & _ & Hrun)).
  apply bind_Ok in Hrun as (h & _ & Hrun).
  apply bind_Ok in Hrun as (lastRow' & Hscaled & Hrun).
  injection Hrun as _ _ <-.
  apply matScale_dims in Hscaled as (Hsr & Hsc & _). lia.
Qed.

(** X15.  [caGmresUpdateUpperHessenberg] returns for the first panel
    only: with [startCol] other than 0 every call throws, and so does the
    private [caGmresUpdateUpperHessenbergImpl] it hands [problem.H] to.
    For a panel [0 < startCol <= endCol], of [S = endCol - startCol + 1]
    columns, the steps before the last [matSub] have matching dimensions
    and throw nothing but the exception that stands for an access outside
    a matrix; and when they all return, the last [matSub] is handed the 1
    by S matrix [lastRow] and a 1 by S+1 view of [H_k_underline], and the
    call ends in its dimension error, [std::invalid_argument]. *)
Theorem caGmresUpdateUpperHessenberg_later_panels (problem : problem_type)
    (Rm B : mat_type) (startCol endCol : Z) :
  startCol <> 0 ->
  (exists e,
     caGmresUpdateUpperHessenbergImpl (H problem) Rm B startCol endCol
     = Throw e
     /\ caGmresUpdateUpperHessenberg problem Rm B startCol endCol = Throw e
     /\ (e = invalid_argument \/ e = range_error))
  /\ (0 < startCol <= endCol ->
      (forall e,
         caGmresLaterPanel (H problem) Rm B startCol endCol = Throw e ->
         e = range_error
         /\ caGmresUpdateUpperHessenberg problem Rm B startCol endCol
            = Throw range_error)
      /\ (forall H1 H_k_underline lastRow,
            caGmresLaterPanel (H problem) Rm B startCol endCol
            = Ok (H1, H_k_underline, lastRow) ->
            let S := endCol - startCol + 1 in
            let H_k_view := View H_k_underline 1 (S + 1) 0 0 in
            numRows lastRow = 1 /\ numCols lastRow = S
            /\ numRows H_k_view = 1 /\ numCols H_k_view = S + 1
            /\ matSub H_k_view lastRow = Throw invalid_argument
            /\ caGmresUpdateUpperHessenbergImpl (H problem) Rm B startCol
                 endCol = Throw invalid_argument
            /\ caGmresUpdateUpperHessenberg problem Rm B startCol endCol
               = Throw invalid_argument)).
Proof.
  intros Hne.
  assert (Hlater : 0 < startCol <= endCol ->
            (forall e,
               caGmresLaterPanel (H problem) Rm B startCol endCol = Throw e ->
               e = range_error
               /\ caGmresUpdateUpperHessenbergImpl (H problem) Rm B startCol
                    endCol = Throw range_error)
            /\ (forall H1 H_k_underline lastRow,
                  caGmresLaterPanel (H problem) Rm B startCol endCol
                  = Ok (H1, H_k_underline, lastRow) ->
                  (numRows lastRow = 1
                   /\ numCols lastRow = endCol - startCol + 1)
                  /\ matSub (View H_k_underline 1
                               (endCol - startCol + 1 + 1) 0 0) lastRow
                     = Throw invalid_argument
                  /\ caGmresUpdateUpperHessenbergImpl (H problem) Rm B
                       startCol endCol = Throw invalid_argument)).
  { intros Hse. split.
    - intros e Hprefix.
      pose proof (caGmresLaterPanel_Throw _ _ _ _ _ _ Hse Hprefix) as ->.
      split; [reflexivity|].
      rewrite (caGmresUpdateUpperHessenbergImpl_later _ _ _ _ _ Hse).
      rewrite Hprefix. reflexivity.
    - intros H1 Hku lastRow Hprefix.
      pose proof (caGmresLaterPanel_lastRow _ _ _ _ _ _ _ _ Hprefix)
        as [Hlr Hlc].
      assert (Hsub : matSub (View Hku 1 (endCol - startCol + 1 + 1) 0 0)
                       lastRow = Throw invalid_argument).
      { apply matSub_dims_differ. right. simpl. lia. }
      split; [auto|]. split; [assumption|].
      rewrite (caGmresUpdateUpperHessenbergImpl_later _ _ _ _ _ Hse).
      rewrite Hprefix. simpl. rewrite Hsub. reflexivity. }
  assert (Himpl : exists e,
            caGmresUpdateUpperHessenbergImpl (H problem) Rm B startCol endCol
            = Throw e
            /\ (e = invalid_argument \/ e = range_error)).
  { destruct (Z.ltb_spec startCol 0) as [Hneg|Hpos].
    { exists invalid_argument. split; [|auto].
      unfold caGmresUpdateUpperHessenbergImpl.
      destruct (Z.ltb_spec startCol 0); [reflexivity | lia]. }
    destruct (Z.ltb_spec endCol startCol) as [Hlt|Hle].
    { exists invalid_argument. split; [|auto].
      unfold caGmresUpdateUpperHessenbergImpl.
      destruct (Z.ltb_spec startCol 0); [lia|].
      destruct (Z.ltb_spec endCol startCol); [reflexivity | lia]. }
    destruct (Hlater ltac:(lia)) as [Hthrow Hreach].
    destruct (caGmresLaterPanel (H problem) Rm B startCol endCol)
      as [[[H1 Hku] lastRow]|e] eqn:Hprefix.
    - destruct (Hreach H1 Hku lastRow eq_refl) as (_ & _ & Himpl). eauto.
    - destruct (Hthrow e eq_refl) as [-> Himpl]. eauto. }
  assert (Hwrap : forall e,
            caGmresUpdateUpperHessenbergImpl (H problem) Rm B startCol endCol
            = Throw e ->
            caGmresUpdateUpperHessenberg problem Rm B startCol endCol
            = Throw e).
  { intros e He. unfold caGmresUpdateUpperHessenberg. rewrite He.
    reflexivity. }
  split.
  - destruct Himpl as (e & Himpl & He). exists e. auto.
  - intros Hse. destruct (Hlater Hse) as [Hthrow Hreach]. split.
    + intros e Hprefix. destruct (Hthrow e Hprefix) as [-> Himpl']. auto.
    + intros H1 Hku lastRow Hprefix S0 H_k_view.
      destruct (Hreach H1 Hku lastRow Hprefix) as ([Hlr Hlc] & Hsub & Himpl').
      subst S0 H_k_view. simpl. auto 10.
Qed.
End ChangeOfBasisProperties.

(** ** The fused panel update *)

Section BlockProperties.
Context {Scalar magnitudeType : Type}.
Context {STS : ScalarTraits Scalar magnitudeType}.
Context {blas : BLAS Scalar}.
Context {lapack : LAPACK Scalar magnitudeType}.

Local Abbreviation mat_type := (SerialDenseMatrix Scalar).

(** What a pass of step 3 leaves alone: the layout of [z], every row of [z]
    other than [curCol] and [curCol+1], and every entry of the rotation
    arrays other than [curCol]. *)
Lemma blockColumn_frame (startCol curCol : Z) (zm : mat_type)
    (Rm R' z z' : mat_type) (c s c' s' : list Scalar) :
  fits zm = true ->
  (numRows z = numRows zm /\ numCols z = numCols zm
   /\ stride z = stride zm /\ offset z = offset zm) ->
  blockColumn startCol curCol (Rm, z, c, s) = Ok (R', z', c', s') ->
  (numRows z' = numRows zm /\ numCols z' = numCols zm
   /\ stride z' = stride zm /\ offset z' = offset zm)
  /\ (forall k, k <> curCol -> load c' k = load c k /\ load s' k = load s k)
  /\ (forall i j, 0 <= i < numRows zm -> 0 <= j < numCols zm ->
        i <> curCol -> i <> curCol + 1 ->
        load (buffer z') (offset zm + i + j * stride zm)
        = load (buffer z) (offset zm + i + j * stride zm)).
Proof.
  intros Hfit (Hnr & Hnc & Hst & Hoff) Hrun. unfold blockColumn in Hrun.
  apply bind_Ok in Hrun as (R1 & _ & Hrun).
  apply bind_Ok in Hrun as (x0 & _ & Hrun).
  apply bind_Ok in Hrun as (x1 & _ & Hrun).
  destruct (computeGivensRotation x0 x1) as [[c0 s0] r].
  apply bind_Ok in Hrun as (c1 & Hc1 & Hrun).
  apply bind_Ok in Hrun as (s1 & Hs1 & Hrun).
  apply bind_Ok in Hrun as (R2 & _ & Hrun).
  apply bind_Ok in Hrun as (R3 & _ & Hrun).
  apply bind_Ok in Hrun as (px & Hpx & Hrun).
  apply bind_Ok in Hrun as (py & Hpy & Hrun).
  apply bind_Ok in Hrun as (zbuf & Hrot & Hrun).
  injection Hrun as <- <- <- <-. simpl.
  split; [auto|]. split.
  - intros k Hk. split; eapply load_store_other; eauto.
  - intros i j Hi Hj Hne Hne1.
    apply addr_inv in Hpx as [[Hkx _] ->].
    apply addr_inv in Hpy as [[Hky _] ->].
    apply (ROT_frame _ _ _ _ _ _ _ _ _ _ Hrot).
    intros n Hn. rewrite Hst, Hoff. rewrite Hnr in Hkx, Hky.
    rewrite Hnc in Hn. split; intros Heq.
    + destruct (index_inj zm i j curCol n Hfit) as [? _];
        [lia | lia | lia | lia | lia | contradiction].
    + destruct (index_inj zm i j (curCol + 1) n Hfit) as [? _];
        [lia | lia | lia | lia | lia | contradiction].
Qed.

(** X16.  How [updateColumnsGivensBlock] fails to work: the loop over the
    panel stops before the last column, so the rotation of column [endCol]
    is never computed, its entries of the rotation arrays stay as they
    were, and row [endCol+1] of [z] is never touched.  The value returned
    is the magnitude of the entry [z(endCol+1, 0)] as it was on entry, not
    the residual norm of the updated problem.  [y] is not written. *)
Theorem updateColumnsGivensBlock_last_column (Hm Rm ym zm : mat_type)
    (cosines sines : list Scalar) (startCol endCol : Z)
    (R' y' z' : mat_type) (cosines' sines' : list Scalar)
    (norm : magnitudeType) :
  fits zm = true ->
  updateColumnsGivensBlock Hm Rm ym zm cosines sines startCol endCol
  = Ok (R', y', z', cosines', sines', norm) ->
  load cosines' endCol = load cosines endCol
  /\ load sines' endCol = load sines endCol
  /\ y' = ym
  /\ exists last,
       elem zm (endCol + 1) 0 = Ok last
       /\ elem z' (endCol + 1) 0 = Ok last
       /\ norm = STS_magnitude last.
Proof.
  intros Hfit Hrun. unfold updateColumnsGivensBlock in Hrun.
  apply bind_Ok in Hrun as (R_view & _ & Hrun).
  apply bind_Ok in Hrun as (R1 & _ & Hrun).
  apply bind_Ok in Hrun as ([[[R2 z2] c2] s2] & Hloop & Hrun).
  apply bind_Ok in Hrun as (last & Hlast & Hrun).
  injection Hrun as <- <- <- <- <- <-.
  replace (endCol + 2 - 1) with (endCol + 1) in Hlast by lia.
  pose (layout := fun z1 : mat_type =>
          numRows z1 = numRows zm /\ numCols z1 = numCols zm
          /\ stride z1 = stride zm /\ offset z1 = offset zm).
  assert (Hshape : layout z2).
  { revert Hloop.
    apply (for_range_post
             (fun st : mat_type * mat_type * list Scalar * list Scalar =>
                layout (snd (fst (fst st)))));
      [unfold layout; simpl; auto|].
    intros k [[[Ra za] ca] sa] [[[Rb zb] cb] sb] Hpass Hz. simpl in *.
    apply (blockColumn_frame _ _ zm _ _ _ _ _ _ _ _ Hfit Hz Hpass). }
  destruct Hshape as (Hnr & Hnc & Hst & Hoff).
  assert (Hin : 0 <= endCol + 1 < numRows zm /\ 0 <= 0 < numCols zm).
  { unfold elem in Hlast. apply bind_Ok in Hlast as (p & Hp & _).
    apply addr_inv in Hp as [[? ?] _]. lia. }
  destruct Hin as [Hrow Hcol].
  assert (Hkept :
            load (buffer z2) (offset zm + (endCol + 1) + 0 * stride zm)
            = load (buffer zm) (offset zm + (endCol + 1) + 0 * stride zm)
            /\ load c2 endCol = load cosines endCol
            /\ load s2 endCol = load sines endCol).
  { assert (Hinv : layout z2
              /\ load (buffer z2) (offset zm + (endCol + 1) + 0 * stride zm)
                 = load (buffer zm)
                     (offset zm + (endCol + 1) + 0 * stride zm)
              /\ load c2 endCol = load cosines endCol
              /\ load s2 endCol = load sines endCol); [|tauto].
    revert Hloop.
    apply (for_range_post_in
             (fun st : mat_type * mat_type * list Scalar * list Scalar =>
                layout (snd (fst (fst st)))
                /\ load (buffer (snd (fst (fst st))))
                     (offset zm + (endCol + 1) + 0 * stride zm)
                   = load (buffer zm)
                       (offset zm + (endCol + 1) + 0 * stride zm)
                /\ load (snd (fst st)) endCol = load cosines endCol
                /\ load (snd st) endCol = load sines endCol));
      [unfold layout; simpl; auto|].
    intros k [[[Ra za] ca] sa] [[[Rb zb] cb] sb] Hk Hpass
      (Hz & Hza & Hca & Hsa).
    simpl in *.
    destruct (blockColumn_frame _ _ zm _ _ _ _ _ _ _ _ Hfit Hz Hpass)
      as (Hz' & Harrays & Hrows).
    split; [exact Hz'|]. split.
    - rewrite <- Hza. apply Hrows; lia.
    - destruct (Harrays endCol ltac:(lia)) as [-> ->]. auto. }
  destruct Hkept as (Hz2 & Hc2 & Hs2).
  split; [exact Hc2|]. split; [exact Hs2|]. split; [reflexivity|].
  exists last.
  rewrite (elem_load zm (endCol + 1) 0) by lia.
  rewrite (elem_load z2 (endCol + 1) 0) in Hlast |- * by lia.
  rewrite Hst, Hoff in Hlast |- *.
  split; [congruence|]. split; [assumption | reflexivity].
Qed.
End BlockProperties.

(** ** Random problems *)

Section RandomProperties.
Context {Scalar magnitudeType rng : Type}.
Context {STS : ScalarTraits Scalar magnitudeType}.
Context {arith : ScalarArith Scalar magnitudeType}.
Context {random : RandomSource Scalar magnitudeType rng}.

Local Abbreviation mat_type := (SerialDenseMatrix Scalar).

Lemma randomMatrix_shape (A A' : mat_type) (g g' : rng) :
  randomMatrix A g = Ok (A', g') -> same_shape A' A.
Proof.
  unfold randomMatrix. intros Hrun.
  apply bind_Ok in Hrun as ([buf g1] & Hloop & Hrun).
  injection Hrun as <- <-.
  assert (Hlen : length (fst (buf, g1)) = length (buffer A));
    [|repeat split; assumption].
  revert Hloop.
  apply (for_range_post
           (fun st : list Scalar * rng =>
              length (fst st) = length (buffer A))); [reflexivity|].
  intros j st st' Hpass Hst. revert Hpass.
  apply (for_range_post
           (fun st : list Scalar * rng =>
              length (fst st) = length (buffer A))); [assumption|].
  intros i [d gd] [d' gd'] Hstep Hd. simpl in *.
  destruct (STS_random gd) as [v g2].
  apply bind_Ok in Hstep as (d1 & Hd1 & Hstep). injection Hstep as <- <-.
  apply store_length in Hd1. congruence.
Qed.

Lemma randomMatrix_Ok (A : mat_type) (g : rng) :
  fits A = true -> exists A' g', randomMatrix A g = Ok (A', g').
Proof.
  intros Hfit. unfold randomMatrix.
  destruct (for_range_keeps
              (fun st : list Scalar * rng =>
                 length (fst st) = length (buffer A))
              0 (numCols A)
              (fun j st =>
                 for_range 0 (numRows A) (fun i '(buf, g) =>
                   let '(v, g) := STS_random g in
                   buf ← store buf (offset A + i + j * stride A) v;
                   Ok (buf, g)) st)
              (buffer A, g)) as ([buf g1] & Hloop & _); [reflexivity | |].
  - intros j st Hj Hst.
    apply (for_range_keeps
             (fun st : list Scalar * rng =>
                length (fst st) = length (buffer A))); [assumption|].
    intros i [d gd] Hi Hd. simpl in Hd.
    destruct (STS_random gd) as [v g2].
    rewrite store_Ok
      by (rewrite Hd; apply fits_index; [assumption | lia | lia]).
    eexists. split; [reflexivity|]. simpl. rewrite length_insert.
    assumption.
  - rewrite Hloop. simpl. eauto.
Qed.

(** The loop of [makeRandomProblem] that clears the entries below the
    subdiagonal. *)
Lemma zeroBelowSubdiagonal_spec (A A' : mat_type) :
  fits A = true ->
  for_range 0 (numCols A) (fun j Hc =>
    for_range (j + 2) (numRows Hc) (fun i Hc =>
      setElem Hc i j STS_zero) Hc) A = Ok A' ->
  same_shape A' A
  /\ forall i j, 0 <= j < numCols A -> j + 2 <= i < numRows A ->
       elem A' i j = Ok STS_zero.
Proof.
  intros Hfit Hrun.
  pose proof (proj1 (fits_spec A) Hfit) as (Hnr & Hnc & _).
  assert (Hshape : same_shape A' A).
  { revert Hrun.
    apply (for_range_post (fun Hc : mat_type => same_shape Hc A));
      [apply same_shape_refl|].
    intros j Hc Hc' Hpass HHc. revert Hpass.
    apply (for_range_post (fun Hc : mat_type => same_shape Hc A));
      [assumption|].
    intros i Hd Hd' Hstep HHd. apply setElem_shape in Hstep.
    eapply same_shape_trans; eassumption. }
  split; [assumption|]. intros i j Hj Hi.
  assert (Hend : same_shape A' A
                 /\ (j < numCols A -> elem A' i j = Ok STS_zero));
    [|apply Hend; lia].
  revert Hrun.
  apply (for_range_post_at
           (fun jj (Hc : mat_type) =>
              same_shape Hc A /\ (j < jj -> elem Hc i j = Ok STS_zero)));
    [lia | split; [apply same_shape_refl | lia] |].
  intros j0 Hc Hc' Hj0 Hpass [HHc Hdone].
  pose proof HHc as (Hcr & Hcc & Hcs & Hco & Hcl).
  destruct (Z.le_gt_cases (j0 + 2) (numRows Hc)) as [Hle|Hgt].
  - assert (Hrow : same_shape Hc' A
                   /\ ((j < j0 \/ (j = j0 /\ i < numRows Hc)) ->
                       elem Hc' i j = Ok STS_zero)).
    { revert Hpass.
      apply (for_range_post_at
               (fun ii (Hd : mat_type) =>
                  same_shape Hd A
                  /\ ((j < j0 \/ (j = j0 /\ i < ii)) ->
                      elem Hd i j = Ok STS_zero)));
        [assumption | split; [assumption | intros [?|[? ?]]; [auto | lia]] |].
      intros i0 Hd Hd' Hi0 Hstep [HHd Hprev].
      pose proof HHd as (Hdr & Hdc & Hds & Hdo & Hdl).
      split.
      { apply setElem_shape in Hstep.
        eapply same_shape_trans; eassumption. }
      intros Hcase.
      destruct (Z.eq_dec i i0) as [->|Hi_ne];
        [destruct (Z.eq_dec j j0) as [->|Hj_ne]|].
      - eapply elem_setElem_eq; eassumption.
      - rewrite (elem_setElem_ne Hd Hd' i0 j0 i0 j STS_zero Hstep).
        + apply Hprev. lia.
        + intros Heq.
          destruct (index_inj A i0 j0 i0 j Hfit) as [_ ?];
            [lia | lia | lia | lia | rewrite <- Hdo, <- Hds; exact Heq |].
          congruence.
        + rewrite Hdo, Hds.
          apply (fits_index A i0 j Hfit); lia.
      - rewrite (elem_setElem_ne Hd Hd' i0 j0 i j STS_zero Hstep).
        + apply Hprev. lia.
        + intros Heq.
          destruct (index_inj A i0 j0 i j Hfit) as [? _];
            [lia | lia | lia | lia | rewrite <- Hdo, <- Hds; exact Heq |].
          congruence.
        + rewrite Hdo, Hds.
          apply (fits_index A i j Hfit); lia. }
    destruct Hrow as [HHc' Hrow]. split; [assumption|].
    intros Hlt. apply Hrow. lia.
  - rewrite for_range_empty in Hpass by lia. injection Hpass as <-.
    split; [assumption|]. intros Hlt. apply Hdone. lia.
Qed.

Lemma zeroBelowSubdiagonal_Ok (A : mat_type) :
  fits A = true ->
  exists A',
    for_range 0 (numCols A) (fun j Hc =>
      for_range (j + 2) (numRows Hc) (fun i Hc =>
        setElem Hc i j STS_zero) Hc) A = Ok A'.
Proof.
  intros Hfit.
  destruct (for_range_keeps (fun Hc : mat_type => same_shape Hc A)
              0 (numCols A)
              (fun j Hc =>
                 for_range (j + 2) (numRows Hc) (fun i Hc =>
                   setElem Hc i j STS_zero) Hc) A)
    as (A' & Hloop & _); [apply same_shape_refl | | eauto].
  intros j Hc Hj HHc.
  pose proof HHc as (Hcr & Hcc & _).
  apply (for_range_keeps (fun Hd : mat_type => same_shape Hd A));
    [assumption|].
  intros i Hd Hi HHd.
  pose proof HHd as (Hdr & Hdc & _).
  destruct (setElem_Ok Hd i j STS_zero) as [Hd' HHd'];
    [eapply fits_same_shape; eassumption | lia | lia |].
  exists Hd'. split; [assumption|].
  apply setElem_shape in HHd'. eapply same_shape_trans; eassumption.
Qed.

Lemma drawNonzero_zero (numTrials : nat) (z_init : magnitudeType) (g : rng) :
  (forall g0, STM_eqb (fst (STM_random g0)) STM_zero = true) ->
  STM_eqb z_init STM_zero = true ->
  STM_eqb (fst (drawNonzero numTrials z_init g)) STM_zero = true.
Proof.
  intros Hbroken. revert z_init g.
  induction numTrials as [|more IH]; intros z_init g Hz; simpl.
  - assumption.
  - rewrite Hz. specialize (Hbroken g).
    destruct (STM_random g) as [v g1]. apply IH. assumption.
Qed.

(** The same loop leaves the entries on and above the first subdiagonal
    as they were. *)
Lemma zeroBelowSubdiagonal_frame (A A' : mat_type) (i j : Z) :
  fits A = true ->
  for_range 0 (numCols A) (fun j Hc =>
    for_range (j + 2) (numRows Hc) (fun i Hc =>
      setElem Hc i j STS_zero) Hc) A = Ok A' ->
  0 <= i < numRows A -> 0 <= j < numCols A -> i < j + 2 ->
  elem A' i j = elem A i j.
Proof.
  intros Hfit Hrun Hi Hj Hupper.
  assert (Hend : same_shape A' A /\ elem A' i j = elem A i j);
    [|apply Hend].
  revert Hrun.
  apply (for_range_post_in
           (fun Hc : mat_type =>
              same_shape Hc A /\ elem Hc i j = elem A i j));
    [split; [apply same_shape_refl | reflexivity]|].
  intros j0 Hc Hc' Hj0 Hpass [HHc Hkept].
  pose proof HHc as (Hcr & _).
  revert Hpass.
  apply (for_range_post_in
           (fun Hd : mat_type =>
              same_shape Hd A /\ elem Hd i j = elem A i j));
    [split; assumption|].
  intros i0 Hd Hd' Hi0 Hstep [HHd Hprev].
  pose proof HHd as (Hdr & Hdc & Hds & Hdo & Hdl).
  split.
  { apply setElem_shape in Hstep. eapply same_shape_trans; eassumption. }
  rewrite <- Hprev.
  apply (elem_setElem_ne Hd Hd' i0 j0 i j STS_zero Hstep).
  - intros Heq.
    destruct (index_inj A i0 j0 i j Hfit) as [? ?];
      [lia | lia | lia | lia | rewrite <- Hdo, <- Hds; exact Heq | lia].
  - rewrite Hdo, Hds. apply (fits_index A i j Hfit); lia.
Qed.

Lemma drawNonzero_done (numTrials : nat) (z_init : magnitudeType) (g : rng) :
  STM_eqb z_init STM_zero = false ->
  drawNonzero numTrials z_init g = (z_init, g).
Proof. intros Hz. destruct numTrials; simpl; [|rewrite Hz]; reflexivity. Qed.

(** When the search ends on a value that is not zero, this value is the
    first draw that is not zero, among the first [numTrials] draws. *)
Lemma drawNonzero_first (numTrials : nat) (z_init : magnitudeType) (g : rng) :
  STM_eqb z_init STM_zero = true ->
  STM_eqb (drawNonzero numTrials z_init g).1 STM_zero = false ->
  exists trial,
    (trial < numTrials)%nat
    /\ drawNonzero numTrials z_init g = nthDraw trial g
    /\ forall earlier, (earlier < trial)%nat ->
         STM_eqb (nthDraw earlier g).1 STM_zero = true.
Proof.
  revert z_init g.
  induction numTrials as [|more IH]; intros z_init g Hz Hfound.
  - simpl in Hfound. congruence.
  - simpl in Hfound |- *. rewrite Hz in Hfound |- *.
    destruct (STM_random g) as [v g1] eqn:Hdraw.
    destruct (STM_eqb v STM_zero) eqn:Hv.
    + destruct (IH v g1 Hv Hfound) as (trial & Hlt & Heq & Hearlier).
      exists (S trial). split; [lia|]. split.
      * simpl. rewrite Hdraw. exact Heq.
      * intros [|earlier] He; simpl; rewrite Hdraw; [exact Hv|].
        apply Hearlier. lia.
    + exists 0%nat. split; [lia|]. split.
      * simpl. rewrite Hdraw. apply drawNonzero_done, Hv.
      * intros earlier He. lia.
Qed.

(** X17.  What [makeRandomProblem] builds, for a magnitude type on which
    zero compares equal to itself.  [H] is the random matrix [H.random ()]
    gave with every entry below the first subdiagonal set to zero: it
    keeps its shape, is upper Hessenberg, and on and above the first
    subdiagonal holds what the generator drew.  The first entry of [z] is
    [z_init] or [- z_init], where [z_init] is the first draw of
    [STM::random ()] after the matrix that is not zero, one of the first
    1000; the generator is left where that draw left it; and the rest of
    [z] is as it was. *)
Theorem makeRandomProblem_spec (Hm zm H' z' : mat_type) (g g' : rng) :
  fits Hm = true ->
  fits zm = true ->
  STM_eqb STM_zero STM_zero = true ->
  makeRandomProblem Hm zm g = Ok (H', z', g') ->
  exists H1 g1 trial,
    randomMatrix Hm g = Ok (H1, g1)
    /\ same_shape H' Hm
    /\ (forall i j, 0 <= j < numCols Hm -> j + 2 <= i < numRows Hm ->
          elem H' i j = Ok STS_zero)
    /\ (forall i j, 0 <= j < numCols Hm -> 0 <= i < numRows Hm ->
          i < j + 2 -> elem H' i j = elem H1 i j)
    /\ (trial < 1000)%nat
    /\ (forall earlier, (earlier < trial)%nat ->
          STM_eqb (nthDraw earlier g1).1 STM_zero = true)
    /\ STM_eqb (nthDraw trial g1).1 STM_zero = false
    /\ g' = (nthDraw trial g1).2
    /\ elem z' 0 0
       = Ok (STS_promote
               (if STM_ltb (nthDraw trial g1).1 (STM_of_int 0)
                then STM_neg (nthDraw trial g1).1
                else (nthDraw trial g1).1))
    /\ (forall i j, 0 <= i < numRows zm -> 0 <= j < numCols zm ->
          (i <> 0 \/ j <> 0) -> elem z' i j = elem zm i j).
Proof.
  intros HfH Hfz Hrefl Hrun. unfold makeRandomProblem in Hrun.
  apply bind_Ok in Hrun as ([H1 g1] & Hrand & Hrun).
  apply bind_Ok in Hrun as (H2 & Hzero & Hrun).
  destruct (drawNonzero 1000 STM_zero g1) as [z_init g2] eqn:Hdraw.
  apply bind_Ok in Hrun as (u & Htest & Hrun).
  apply bind_Ok in Hrun as (z1 & Hset & Hrun).
  injection Hrun as <- <- <-.
  assert (Hnonzero : STM_eqb z_init STM_zero = false).
  { destruct (STM_eqb z_init STM_zero); [discriminate | reflexivity]. }
  destruct (drawNonzero_first 1000 STM_zero g1 Hrefl)
    as (trial & Hlt & Heq & Hearlier);
    [rewrite Hdraw; exact Hnonzero|].
  rewrite Hdraw in Heq.
  pose proof (randomMatrix_shape _ _ _ _ Hrand) as HH1.
  pose proof (fits_same_shape _ _ HH1 HfH) as HfH1.
  destruct (zeroBelowSubdiagonal_spec H1 H2 HfH1 Hzero) as [HH2 Hhess].
  pose proof HH1 as (Hr1 & Hc1 & _).
  exists H1, g1, trial.
  split; [assumption|].
  split; [eapply same_shape_trans; eassumption|]. split.
  { intros i j Hj Hi. apply Hhess; lia. }
  split.
  { intros i j Hj Hi Hupper.
    apply (zeroBelowSubdiagonal_frame H1 H2 i j HfH1 Hzero); lia. }
  split; [assumption|]. split; [assumption|].
  rewrite <- Heq. simpl.
  split; [assumption|]. split; [reflexivity|]. split.
  - eapply elem_setElem_eq; eassumption.
  - intros i j Hi Hj Hne.
    apply (elem_setElem_ne zm z1 0 0 i j _ Hset).
    + intros Heq'.
      destruct (index_inj zm 0 0 i j Hfz) as [? ?];
        [lia | lia | lia | lia | exact Heq' | lia].
    + apply (fits_index zm i j Hfz); lia.
Qed.

(** X18.  A generator that only draws zero makes [makeRandomProblem] throw
    [std::runtime_error]: the search for a first entry of [z] gives up
    after its 1000 trials instead of looping for ever. *)
Theorem makeRandomProblem_broken_generator (Hm zm : mat_type) (g : rng) :
  fits Hm = true ->
  STM_eqb STM_zero STM_zero = true ->
  (forall g0, STM_eqb (fst (STM_random g0)) STM_zero = true) ->
  makeRandomProblem Hm zm g = Throw runtime_error.
Proof.
  intros HfH Hrefl Hbroken. unfold makeRandomProblem.
  destruct (randomMatrix_Ok Hm g HfH) as (H1 & g1 & Hrand).
  rewrite (bind_Ok_l _ _ _ Hrand).
  pose proof (fits_same_shape _ _ (randomMatrix_shape _ _ _ _ Hrand) HfH)
    as HfH1.
  destruct (zeroBelowSubdiagonal_Ok H1 HfH1) as (H2 & Hzero).
  rewrite (bind_Ok_l _ _ _ Hzero).
  pose proof (drawNonzero_zero 1000 STM_zero g1 Hbroken Hrefl) as Hdraw.
  destruct (drawNonzero 1000 STM_zero g1) as [z_init g2].
  simpl in Hdraw. rewrite Hdraw. reflexivity.
Qed.
End RandomProperties.

(** ** The SVD solve and the first panel *)

Section FurtherSolverProperties.
Context {Scalar magnitudeType : Type}.
Context {STS : ScalarTraits Scalar magnitudeType}.
Context {arith : ScalarArith Scalar magnitudeType}.
Context {blas : BLAS Scalar}.
Context {lapack : LAPACK Scalar magnitudeType}.

Local Abbreviation mat_type := (SerialDenseMatrix Scalar).
Local Abbreviation problem_type := (ProjectedLeastSquaresProblem Scalar).

Lemma with_buffer_same (A : mat_type) : with_buffer A (buffer A) = A.
Proof. destruct A. reflexivity. Qed.

(** X19.  At robustness 2 the solver never solves: the call of [_GELSS]
    that follows the workspace query is given [LWORK = -1] as well, so it is
    a second workspace query.  With a [_GELSS] that, as LAPACK specifies for
    a workspace query, leaves the right-hand side and [RANK] (which the
    caller has set to [N]) as they are, a call that returns has left in [x]
    the copy of [b] it started from, and reports the rank [N] and no rank
    deficiency, whatever [R] is. *)
Theorem solveUpperTriangularSystem_svd_only_queries (x Rm b x' : mat_type)
    (rank : Z) (found : bool) :
  (forall n nrhs A aoff lda xbuf xoff ldx rcond,
     (GELSS n nrhs A aoff lda xbuf xoff ldx rcond (-1)).1.1.1 = xbuf
     /\ (GELSS n nrhs A aoff lda xbuf xoff ldx rcond (-1)).1.1.2 = n) ->
  solveUpperTriangularSystem x Rm b 2 = Ok (x', (rank, found)) ->
  (if numCols x =? numCols b then assign x b
   else assign x (View b (numRows b) (numCols x) 0 0)) = Ok x'
  /\ rank = numCols Rm /\ found = false.
Proof.
  intros Hquery Hrun. unfold solveUpperTriangularSystem in Hrun.
  do 6 (apply bind_Ok in Hrun as (? & _ & Hrun)).
  apply bind_Ok in Hrun as (xc & Hxc & Hrun).
  change (2 =? 0) with false in Hrun. change (2 =? 1) with false in Hrun.
  change (2 =? 2) with true in Hrun. cbv iota in Hrun.
  apply bind_Ok in Hrun as (R_copy & _ & Hrun).
  pose proof (Hquery (numCols Rm) (numCols x) (buffer R_copy) (offset R_copy)
                (stride Rm) (buffer xc) (offset xc) (stride x) STS_eps)
    as [Hx1 _].
  destruct (GELSS (numCols Rm) (numCols x) (buffer R_copy) (offset R_copy)
              (stride Rm) (buffer xc) (offset xc) (stride x) STS_eps (-1))
    as [[[xb1 rk1] lw1] info1].
  simpl in Hx1. subst xb1.
  apply bind_Ok in Hrun as (? & _ & Hrun).
  apply bind_Ok in Hrun as (? & _ & Hrun).
  pose proof (Hquery (numCols Rm) (numCols x) (buffer R_copy) (offset R_copy)
                (stride Rm) (buffer xc) (offset xc) (stride x) STS_eps)
    as [Hx2 Hrk2].
  destruct (GELSS (numCols Rm) (numCols x) (buffer R_copy) (offset R_copy)
              (stride Rm) (buffer xc) (offset xc) (stride x) STS_eps (-1))
    as [[[xb2 rk2] lw2] info2].
  simpl in Hx2, Hrk2. subst xb2 rk2.
  apply bind_Ok in Hrun as (? & _ & Hrun).
  injection Hrun as <- <- <-.
  rewrite with_buffer_same, Z.ltb_irrefl. auto.
Qed.

Lemma GEMM_length (m n k : Z) (alpha : Scalar) (A : operand Scalar)
    (aoff lda : Z) (B : operand Scalar) (boff ldb : Z) (beta : Scalar)
    (C C' : list Scalar) (coff ldc : Z) :
  GEMM m n k alpha A aoff lda B boff ldb beta C coff ldc = Ok C' ->
  length C' = length C.
Proof.
  unfold GEMM, zeroBlock.
  destruct (_ || _); [intros [= <-]; reflexivity|].
  assert (Hzero : forall j d d',
            for_range 0 m (fun i C0 => store C0 (coff + i + j * ldc) STS_zero)
              d = Ok d' ->
            length d = length C -> length d' = length C).
  { intros j d d' Hrun Hd. revert Hrun.
    apply (for_range_post (fun e => length e = length C)); [assumption|].
    intros i e e' Hst He. apply store_length in Hst. congruence. }
  assert (Hscale : forall j d d',
            for_range 0 m (fun i C0 =>
              cij ← load C0 (coff + i + j * ldc);
              store C0 (coff + i + j * ldc) (STS_mul cij beta)) d = Ok d' ->
            length d = length C -> length d' = length C).
  { intros j d d' Hrun Hd. revert Hrun.
    apply (for_range_post (fun e => length e = length C)); [assumption|].
    intros i e e' Hst He. apply bind_Ok in Hst as (c & _ & Hst).
    apply store_length in Hst. congruence. }
  destruct (STS_eqb alpha STS_zero).
  { destruct (STS_eqb beta STS_zero);
      (apply (for_range_post (fun d => length d = length C));
       [reflexivity|]); intros j d d' Hrun Hd; eauto. }
  apply (for_range_post (fun d => length d = length C)); [reflexivity|].
  intros j d d' Hrun Hd.
  apply bind_Ok in Hrun as (d1 & Hfirst & Hrun).
  assert (Hd1 : length d1 = length C).
  { destruct (STS_eqb beta STS_zero); [eauto|].
    destruct (STS_eqb beta STS_one); [congruence | eauto]. }
  revert Hrun.
  apply (for_range_post (fun d => length d = length C)); [assumption|].
  intros l e e' Hrun He.
  apply bind_Ok in Hrun as (blj & _ & Hrun). revert Hrun.
  apply (for_range_post (fun d => length d = length C)); [assumption|].
  intros i f f' Hst Hf.
  apply bind_Ok in Hst as (cij & _ & Hst).
  apply bind_Ok in Hst as (ail & _ & Hst).
  apply store_length in Hst. congruence.
Qed.

(** [_GEMM] writes nothing outside the [m] by [n] block of [C]. *)
Lemma GEMM_frame (m n k : Z) (alpha : Scalar) (A : operand Scalar)
    (aoff lda : Z) (B : operand Scalar) (boff ldb : Z) (beta : Scalar)
    (C C' : list Scalar) (coff ldc q : Z) :
  GEMM m n k alpha A aoff lda B boff ldb beta C coff ldc = Ok C' ->
  (forall i j, 0 <= i < m -> 0 <= j < n -> q <> coff + i + j * ldc) ->
  load C' q = load C q.
Proof.
  intros Hrun Hout. revert Hrun.
  assert (Hstore : forall i j d d' v, 0 <= i < m -> 0 <= j < n ->
            store d (coff + i + j * ldc) v = Ok d' ->
            load d q = load C q -> load d' q = load C q).
  { intros i j d d' v Hi Hj Hst Hd. rewrite <- Hd.
    eapply load_store_other; [eassumption|].
    intros Heq. apply (Hout i j Hi Hj). congruence. }
  unfold GEMM, zeroBlock.
  destruct (_ || _); [intros [= <-]; reflexivity|].
  assert (Hzero : forall j d d', 0 <= j < n ->
            for_range 0 m (fun i C0 => store C0 (coff + i + j * ldc) STS_zero)
              d = Ok d' ->
            load d q = load C q -> load d' q = load C q).
  { intros j d d' Hj Hrun Hd. revert Hrun.
    apply (for_range_post_in (fun e => load e q = load C q)); [assumption|].
    intros i e e' Hi Hst He. eapply Hstore; eassumption. }
  assert (Hscale : forall j d d', 0 <= j < n ->
            for_range 0 m (fun i C0 =>
              cij ← load C0 (coff + i + j * ldc);
              store C0 (coff + i + j * ldc) (STS_mul cij beta)) d = Ok d' ->
            load d q = load C q -> load d' q = load C q).
  { intros j d d' Hj Hrun Hd. revert Hrun.
    apply (for_range_post_in (fun e => load e q = load C q)); [assumption|].
    intros i e e' Hi Hst He. apply bind_Ok in Hst as (c & _ & Hst).
    eapply Hstore; eassumption. }
  destruct (STS_eqb alpha STS_zero).
  { destruct (STS_eqb beta STS_zero);
      (apply (for_range_post_in (fun d => load d q = load C q));
       [reflexivity|]); intros j d d' Hj Hrun Hd; eauto. }
  apply (for_range_post_in (fun d => load d q = load C q)); [reflexivity|].
  intros j d d' Hj Hrun Hd.
  apply bind_Ok in Hrun as (d1 & Hfirst & Hrun).
  assert (Hd1 : load d1 q = load C q).
  { destruct (STS_eqb beta STS_zero); [eauto|].
    destruct (STS_eqb beta STS_one); [congruence | eauto]. }
  revert Hrun.
  apply (for_range_post_in (fun d => load d q = load C q)); [assumption|].
  intros l e e' Hl Hrun He.
  apply bind_Ok in Hrun as (blj & _ & Hrun). revert Hrun.
  apply (for_range_post_in (fun d => load d q = load C q)); [assumption|].
  intros i f f' Hi Hst Hf.
  apply bind_Ok in Hst as (cij & _ & Hst).
  apply bind_Ok in Hst as (ail & _ & Hst).
  eapply Hstore; eassumption.
Qed.

Lemma TRSM_right_upper_length (m n : Z) (alpha : Scalar) (A : list Scalar)
    (aoff lda : Z) (B B' : list Scalar) (boff ldb : Z) :
  TRSM_right_upper m n alpha A aoff lda B boff ldb = Ok B' ->
  length B' = length B.
Proof.
  unfold TRSM_right_upper, zeroBlock.
  destruct (STS_eqb alpha STS_zero).
  { apply (for_range_post (fun d => length d = length B)); [reflexivity|].
    intros j d d' Hrun Hd. revert Hrun.
    apply (for_range_post (fun d => length d = length B)); [assumption|].
    intros i e e' Hpass He. apply store_length in Hpass. congruence. }
  apply (for_range_post (fun d => length d = length B)); [reflexivity|].
  intros j d d' Hrun Hd.
  apply bind_Ok in Hrun as (d1 & Hscale & Hrun).
  assert (Hd1 : length d1 = length B).
  { destruct (STS_eqb alpha STS_one); [congruence|]. revert Hscale.
    apply (for_range_post (fun d => length d = length B)); [assumption|].
    intros i e e' Hpass He. apply bind_Ok in Hpass as (v & _ & Hpass).
    apply store_length in Hpass. congruence. }
  apply bind_Ok in Hrun as (d2 & Hsub & Hrun).
  assert (Hd2 : length d2 = length B).
  { revert Hsub.
    apply (for_range_post (fun d => length d = length B)); [assumption|].
    intros k e e' Hpass He. apply bind_Ok in Hpass as (akj & _ & Hpass).
    destruct (STS_eqb akj STS_zero); [congruence|]. revert Hpass.
    apply (for_range_post (fun d => length d = length B)); [assumption|].
    intros i f f' Hstep Hf.
    apply bind_Ok in Hstep as (bij & _ & Hstep).
    apply bind_Ok in Hstep as (bik & _ & Hstep).
    apply store_length in Hstep. congruence. }
  apply bind_Ok in Hrun as (ajj & _ & Hrun). revert Hrun.
  apply (for_range_post (fun d => length d = length B)); [assumption|].
  intros i e e' Hpass He. apply bind_Ok in Hpass as (v & _ & Hpass).
  apply store_length in Hpass. congruence.
Qed.

(** X20.  The first panel: [caGmresUpdateUpperHessenberg (problem, R, B, 0,
    endCol)] changes nothing but the leading [endCol+2] by [endCol+1] block
    of [H].  When it returns, [R], [y], [z] and the rotation arrays of the
    problem are as they were, [H] has kept its shape, and every entry of
    [H] in a row from [endCol+2] on or in a column from [endCol+1] on is as
    it was. *)
Theorem caGmresUpdateUpperHessenberg_first_panel
    (problem problem' : problem_type) (Rm B : mat_type) (endCol : Z) :
  fits (H problem) = true ->
  endCol + 2 <= numRows (H problem) ->
  endCol + 1 <= numCols (H problem) ->
  caGmresUpdateUpperHessenberg problem Rm B 0 endCol = Ok problem' ->
  R problem' = R problem /\ y problem' = y problem
  /\ z problem' = z problem
  /\ theCosines problem' = theCosines problem
  /\ theSines problem' = theSines problem
  /\ same_shape (H problem') (H problem)
  /\ forall i j,
       0 <= i < numRows (H problem) -> 0 <= j < numCols (H problem) ->
       endCol + 2 <= i \/ endCol + 1 <= j ->
       elem (H problem') i j = elem (H problem) i j.
Proof.
  intros Hfit Hrows Hcols Hrun. unfold caGmresUpdateUpperHessenberg in Hrun.
  apply bind_Ok in Hrun as (H' & Himpl & Hrun). injection Hrun as <-.
  simpl. repeat (split; [reflexivity|]).
  unfold caGmresUpdateUpperHessenbergImpl in Himpl.
  apply bind_Ok in Himpl as (? & _ & Himpl).
  apply bind_Ok in Himpl as (? & Hend & Himpl).
  assert (Hle : 0 <= endCol).
  { destruct (Z.ltb_spec endCol 0); [discriminate | assumption]. }
  change (0 =? 0) with true in Himpl. cbv iota zeta in Himpl.
  replace (endCol - 0 + 1) with (endCol + 1) in Himpl by lia.
  apply bind_Ok in Himpl as (H1 & Hmult & Himpl).
  apply bind_Ok in Himpl as (H2 & Hsolve & Himpl).
  injection Himpl as <-.
  unfold matMatMult in Hmult.
  do 3 (apply bind_Ok in Hmult as (? & _ & Hmult)).
  apply bind_Ok in Hmult as (buf1 & Hgemm & Hmult). injection Hmult as <-.
  unfold rightUpperTriSolve in Hsolve.
  apply bind_Ok in Hsolve as (? & _ & Hsolve).
  apply bind_Ok in Hsolve as (buf2 & Htrsm & Hsolve). injection Hsolve as <-.
  simpl in *.
  pose proof (GEMM_length _ _ _ _ _ _ _ _ _ _ _ _ _ _ _ Hgemm) as Hlen1.
  pose proof (TRSM_right_upper_length _ _ _ _ _ _ _ _ _ _ Htrsm) as Hlen2.
  split; [repeat split; simpl; congruence|].
  intros i j Hi Hj Hout.
  rewrite (elem_load (with_buffer (H problem) buf2) i j) by (simpl; lia).
  rewrite (elem_load (H problem) i j) by lia. simpl.
  assert (Hother : forall i' j', 0 <= i' < endCol + 1 + 1 ->
            0 <= j' < endCol + 1 ->
            offset (H problem) + i + j * stride (H problem)
            <> offset (H problem) + 0 + 0 * stride (H problem) + i'
               + j' * stride (H problem)).
  { intros i' j' Hi' Hj' Heq.
    destruct (index_inj (H problem) i j i' j' Hfit) as [-> ->];
      [lia | lia | lia | lia | lia | lia]. }
  rewrite (TRSM_right_upper_frame _ _ _ _ _ _ _ _ _ _ _ Htrsm).
  - apply (GEMM_frame _ _ _ _ _ _ _ _ _ _ _ _ _ _ _ _ Hgemm).
    intros i' j' Hi' Hj'. apply Hother; lia.
  - pose proof (fits_index (H problem) i j Hfit Hi Hj). lia.
  - intros i' j' Hi' Hj'. apply Hother; lia.
Qed.
End FurtherSolverProperties.

(** ** The theorems at concrete inputs *)

(** C1 at the example problem: both columns in one panel. *)
Lemma updateColumns_panel_equivalence_witness :
  0 <= 1
  /\ updateColumns exampleProblem 0 1 = updateColumnEach exampleProblem 0 1%nat.
Proof.
  split; [lia|].
  apply (updateColumns_panel_equivalence exampleProblem 0 1). lia.
Defined.

(** C2 at the first column of the example problem. *)
Lemma updateColumn_zero_forcing_witness :
  validColumn exampleProblem 0 = true
  /\ exists problem' norm R_col x0 x1,
       updateColumn exampleProblem 0 = Ok (problem', norm)
       /\ elem (R problem') (0 + 1) 0 = Ok STS_zero
       /\ rotatedColumn (H exampleProblem) (R exampleProblem)
            (theCosines exampleProblem) (theSines exampleProblem) 0 = Ok R_col
       /\ elem R_col 0 0 = Ok x0
       /\ elem R_col (0 + 1) 0 = Ok x1
       /\ elem (R problem') 0 0 = Ok (computeGivensRotation x0 x1).2
       /\ (computeGivensRotation x0 x1).2 = (ROTG x0 x1).1.1.1.
Proof.
  split; [reflexivity|].
  apply (updateColumn_zero_forcing exampleProblem 0). reflexivity.
Defined.

(** C3 at the panel of both columns of the example problem. *)
Lemma updateColumns_residual_norm_witness :
  0 <= 0 <= 1
  /\ validColumn exampleProblem 1 = true
  /\ updateColumns exampleProblem 0 1 = Ok (exampleUpdated, 5%Q)
  /\ (exists problem' norm,
        updateColumn exampleProblem 1 = Ok (problem', norm)
        /\ rotatedResidual exampleProblem problem' 1 norm
        /\ ((forall x : Q,
               STM_isnaninf (STS_magnitude x) = false ->
               STM_leb STM_zero (STS_magnitude x) = true) ->
            STM_isnaninf norm = false -> STM_leb STM_zero norm = true))
  /\ (exists before problem' norm,
        beforeLastColumn exampleProblem 0 1 before
        /\ updateColumn before 1 = Ok (problem', norm)
        /\ updateColumns exampleProblem 0 1 = Ok (problem', norm)
        /\ rotatedResidual before problem' 1 norm
        /\ ((forall x : Q,
               STM_isnaninf (STS_magnitude x) = false ->
               STM_leb STM_zero (STS_magnitude x) = true) ->
            STM_isnaninf norm = false -> STM_leb STM_zero norm = true)).
Proof.
  split; [lia|]. split; [reflexivity|]. split; [reflexivity|].
  apply (updateColumns_residual_norm exampleProblem 0 1);
    [lia | reflexivity].
Defined.

(** C3, where a NaN comes in: after [reset (NaN)], which [reset] accepts,
    the update of the first column returns a NaN, which is not a
    non-negative real number. *)
Lemma updateColumn_norm_not_a_number :
  reset N_exampleProblem None = Ok N_nanProblem
  /\ validColumn N_nanProblem 0 = true
  /\ exists problem' norm,
       updateColumn N_nanProblem 0 = Ok (problem', norm)
       /\ STM_isnaninf norm = true
       /\ STM_leb STM_zero norm = false.
Proof.
  split; [reflexivity|]. split; [reflexivity|].
  eexists _, _. split; [reflexivity|]. split; reflexivity.
Qed.

(** C4 at the panel of both columns of the example problem. *)
Lemma updateColumn_frame_witness :
  0 <= 0 <= 1
  /\ validColumn exampleProblem 1 = true
  /\ (exists problem' norm,
        updateColumn exampleProblem 1 = Ok (problem', norm)
        /\ H problem' = H exampleProblem /\ y problem' = y exampleProblem)
  /\ (exists problem' norm,
        updateColumns exampleProblem 0 1 = Ok (problem', norm)
        /\ H problem' = H exampleProblem /\ y problem' = y exampleProblem).
Proof.
  split; [lia|]. split; [reflexivity|].
  apply (updateColumn_frame exampleProblem 0 1); [lia | reflexivity].
Defined.

(** C5 at the example problem: a negative [beta] is refused, and the call
    with [beta = 7] and four iterations grows the 3 by 2 matrices to 5 by 4
    and leaves nothing of what they held. *)
Lemma reallocateAndReset_spec_witness :
  (STM_ltb (-1)%Q STM_zero = true
   /\ reallocateAndReset exampleProblem (-1)%Q 4 = Throw invalid_argument)
  /\ (STM_ltb 7%Q STM_zero = false /\ 0 < 4
      /\ fits (H exampleProblem) = true /\ fits (R exampleProblem) = true
      /\ fits (y exampleProblem) = true /\ fits (z exampleProblem) = true
      /\ exists problem',
           reallocateAndReset exampleProblem 7%Q 4 = Ok problem'
           /\ elem (H problem') 0 0 = Ok STS_zero
           /\ elem (z problem') 0 0 = Ok 7%Q
           /\ 4 + 1 <= numRows (H problem')).
Proof.
  split.
  - split; [reflexivity|].
    apply (proj1 (reallocateAndReset_spec exampleProblem (-1)%Q 4)).
    left. reflexivity.
  - repeat (split; [reflexivity|]).
    destruct (proj2 (reallocateAndReset_spec (STS := Q_traits)
                       exampleProblem 7%Q 4)
                ltac:(reflexivity) ltac:(reflexivity) ltac:(reflexivity)
                ltac:(reflexivity) ltac:(reflexivity) ltac:(reflexivity))
      as (problem' & Hrun & HH & _ & _ & Hz & (Hzr & Hzc) & (HHr & HHc) & _).
    exists problem'. split; [exact Hrun|].
    split; [apply HH; lia|]. split; [apply (Hz 0 0); lia | exact HHr].
Defined.

(** C7 at a factor whose first diagonal entry is zero: the first column
    is counted, the rank is 1. *)
Lemma rank_aware_solve_spec_witness :
  (solveUpperTriangularSystem (newMatrix 2 1) firstColumnZeroR onesRhs 1
   = Ok (mkMatrix 2 1 2 0 [1; 1]%Q, (1, true))
   /\ exists x0 scales cnorm,
        assign (newMatrix 2 1) onesRhs = Ok x0
        /\ latrsTrace x0 firstColumnZeroR 2 (Z.to_nat (numCols x0)) 0
             (buffer x0, STM_one, replicate (Z.to_nat 2) STM_zero,
              false, false)
           = Ok (scales, cnorm)
        /\ 1 = 2 - Z.of_nat (length (List.filter
                                       (deficientColumn firstColumnZeroR cnorm)
                                       (seqZ 0 2)))
        /\ true = ((1 <? 2) || existsb (fun s => STM_eqb s STM_zero) scales)
        /\ (forall j, 0 <= j < 2 ->
              (deficientColumn firstColumnZeroR cnorm j = true
               <-> exists rjj,
                     elem firstColumnZeroR j j = Ok rjj
                     /\ STS_eqb rjj STS_zero = true
                     /\ (j = 0
                         \/ exists cj,
                              load cnorm j = Ok cj
                              /\ STM_eqb cj STM_zero = true)))
        /\ (numCols (newMatrix 2 1 : SerialDenseMatrix Q) <= 0 ->
            scales = [] /\ cnorm = replicate (Z.to_nat 2) STM_zero))
  /\ ((forall normin n A aoff lda xb xoff cn,
         (LATRS (Scalar := Q) normin n A aoff lda xb xoff cn).2 = 0)
      /\ fits (newMatrix (STS := Q_traits) 2 1) = true
      /\ fits firstColumnZeroR = true /\ fits onesRhs = true
      /\ 1 <= 1 /\ 2 <= 2 /\ 2 <= 2 /\ 2 <= 2 /\ 1 <= 2
      /\ exists x' detectedRank foundRankDeficiency,
           solveUpperTriangularSystem (newMatrix 2 1) firstColumnZeroR
             onesRhs 1
           = Ok (x', (detectedRank, foundRankDeficiency))).
Proof.
  split.
  - split; [reflexivity|].
    apply (proj1 (rank_aware_solve_spec (newMatrix 2 1) firstColumnZeroR
                    onesRhs)
             (mkMatrix 2 1 2 0 [1; 1]%Q) 1 true).
    reflexivity.
  - split; [exact Q_LATRS_info|]. repeat (split; [reflexivity || lia|]).
    apply (proj2 (rank_aware_solve_spec (newMatrix 2 1) firstColumnZeroR
                    onesRhs));
      [exact Q_LATRS_info | reflexivity .. | simpl; lia | simpl; lia
       | simpl; lia | simpl; lia | simpl; lia].
Defined.

(** C7, on the first column and on the norm.  On the factor with the
    rows (0 1), (0 3) the solver counts the first column and reports the
    rank 1, where the rule that exempts the first column gives 2.  And with no column in [x] there is no [_LATRS] call:
    on the factor with the rows (1 1), (0 0) the solver counts the second
    column, whose part above the diagonal has the 1-norm 1, and reports
    the rank 1, where the rule gives 2. *)
Lemma rank_first_column_counted :
  (exists x',
     solveUpperTriangularSystem (newMatrix 2 1) firstColumnZeroR onesRhs 1
     = Ok (x', (1, true)))
  /\ Q_claimedRank firstColumnZeroR = 2
  /\ (exists x',
        solveUpperTriangularSystem
          (mkMatrix 2 0 2 0 [] : SerialDenseMatrix Q) deficientR
          (mkMatrix 2 0 2 0 []) 1
        = Ok (x', (1, true)))
  /\ Q_claimedRank deficientR = 2.
Proof.
  split; [eexists; reflexivity|]. split; [reflexivity|].
  split; [eexists; reflexivity | reflexivity].
Qed.

(** C9 at a test of two columns, both updates tested: the errors are below
    the bound and the verdict is success. *)
Lemma testUpdateColumn_verdict_spec_witness :
  (forall a b : Q, STM_isnaninf a = false -> STM_isnaninf b = false ->
     STM_leb a b = negb (STM_ltb b a))
  /\ STM_isnaninf (STM_zero : Q) = false
  /\ 0 < 2 <= 46340
  /\ testUpdateColumn_verdict 2 true 3%Q (1 # 1000000000000000000)%Q 0%Q
     = true
  /\ solutionErrorBound 2 3%Q
     = STM_mul
         (STM_mul
            (STM_mul (STM_of_int 10)
               (STM_squareroot (STM_of_int ((2 + 1) * 2))))
            3%Q)
         STS_eps.
Proof.
  split; [exact Q_leb_ltb|]. split; [reflexivity|]. split; [lia|].
  destruct (testUpdateColumn_verdict_spec (STS := Q_traits) 2 true 3%Q
              (1 # 1000000000000000000)%Q 0%Q Q_leb_ltb
              ltac:(reflexivity))
    as [Hiff Hbound].
  split.
  - apply Hiff. repeat split; reflexivity.
  - apply Hbound. lia.
Defined.

(** C10 at the example problem after its two updates, and at a singular
    factor: robustness 0 solves and reports [(2, false)]. *)
Lemma solve_fast_policy_witness :
  (validSolve exampleUpdated 1 = true
   /\ exists problem', solve exampleUpdated 1 = Ok problem')
  /\ solveUpperTriangularSystem (newMatrix 2 1) singularR onesRhs 0
     = Ok (mkMatrix 2 1 2 0 [0; 0]%Q, (2, false))
  /\ 2 = numCols singularR /\ false = false
  /\ exists x0,
       assign (newMatrix 2 1) onesRhs = Ok x0
       /\ TRSM_left_upper (numCols singularR) 1 STS_one
            (buffer singularR) (offset singularR) (stride singularR)
            (buffer x0) (offset x0) 2
          = Ok [0; 0]%Q
       /\ same_shape (mkMatrix 2 1 2 0 [0; 0]%Q) (newMatrix 2 1).
Proof.
  split.
  - split; [reflexivity|].
    apply (proj1 (solve_fast_policy exampleUpdated 1)). reflexivity.
  - split; [reflexivity|].
    apply (proj2 (proj2 (solve_fast_policy exampleUpdated 1))
             (newMatrix 2 1) singularR onesRhs (mkMatrix 2 1 2 0 [0; 0]%Q)
             2 false).
    reflexivity.
Defined.

(** ** The further theorems at concrete inputs *)

(** X2 at the panel of both columns of the example problem. *)
Lemma updateColumns_rotation_arrays_witness :
  updateColumns exampleProblem 0 1 = Ok (exampleUpdated, 5%Q)
  /\ forall j, j < 0 \/ 1 < j ->
       load (theCosines exampleUpdated) j = load (theCosines exampleProblem) j
       /\ load (theSines exampleUpdated) j = load (theSines exampleProblem) j.
Proof.
  split; [reflexivity|].
  apply (updateColumns_rotation_arrays exampleProblem exampleUpdated 0 1 5%Q).
  reflexivity.
Defined.

(** X3 at the panel of both columns of the example problem. *)
Lemma updateColumns_R_frame_witness :
  0 <= 0 <= 1
  /\ validColumn exampleProblem 1 = true
  /\ updateColumns exampleProblem 0 1 = Ok (exampleUpdated, 5%Q)
  /\ forall i j,
       0 <= i < numRows (R exampleProblem) ->
       0 <= j < numCols (R exampleProblem) ->
       j < 0 \/ 1 < j \/ j + 2 <= i ->
       elem (R exampleUpdated) i j = elem (R exampleProblem) i j.
Proof.
  split; [lia|]. split; [reflexivity|]. split; [reflexivity|].
  apply (updateColumns_R_frame exampleProblem exampleUpdated 0 1 5%Q);
    [lia | reflexivity | reflexivity].
Defined.

(** X4 at the first column of the example problem. *)
Lemma updateColumn_rotates_z_witness :
  fits (z exampleProblem) = true
  /\ updateColumn exampleProblem 0 = Ok (exampleFirstColumn, 5%Q)
  /\ exists c s,
       load (theCosines exampleFirstColumn) 0 = Ok c
       /\ load (theSines exampleFirstColumn) 0 = Ok s
       /\ forall j, 0 <= j < numCols (z exampleProblem) ->
            (exists zk zk1,
               elem (z exampleProblem) 0 j = Ok zk
               /\ elem (z exampleProblem) (0 + 1) j = Ok zk1
               /\ elem (z exampleFirstColumn) 0 j = Ok (rot c s zk zk1).1
               /\ elem (z exampleFirstColumn) (0 + 1) j
                  = Ok (rot c s zk zk1).2)
            /\ forall i, 0 <= i < numRows (z exampleProblem) ->
                 i <> 0 -> i <> 0 + 1 ->
                 elem (z exampleFirstColumn) i j
                 = elem (z exampleProblem) i j.
Proof.
  split; [reflexivity|]. split; [reflexivity|].
  apply (updateColumn_rotates_z exampleProblem exampleFirstColumn 0 5%Q);
    reflexivity.
Defined.

(** X5 at the example problem and [beta = 7]. *)
Lemma reset_idempotent_witness :
  reset exampleProblem 7%Q = Ok exampleReset
  /\ reset exampleReset 7%Q = Ok exampleReset.
Proof.
  split; [reflexivity|].
  apply (reset_idempotent exampleProblem exampleReset 7%Q). reflexivity.
Defined.

(** X6 at a problem for two iterations, both columns in one panel. *)
Lemma newProblem_columns_witness :
  0 <= 0 <= 1 /\ 1 < 2
  /\ exists problem' norm problem'',
       updateColumns (newProblem 2 : ProjectedLeastSquaresProblem Q) 0 1
       = Ok (problem', norm)
       /\ solve problem' 1 = Ok problem''.
Proof.
  split; [lia|]. split; [lia|].
  apply (proj1 (newProblem_columns (STS := Q_traits) 2) 0 1); lia.
Defined.

(** X7 at the example problem, grown to four iterations: the rotation
    arrays keep their three entries. *)
Lemma reallocateAndReset_rotation_arrays_witness :
  exists problem',
    reallocateAndReset exampleProblem 7%Q 4 = Ok problem'
    /\ theCosines problem' = theCosines exampleProblem
    /\ theSines problem' = theSines exampleProblem
    /\ forall curCol out,
         Z.of_nat (length (theCosines exampleProblem)) <= curCol ->
         updateColumn problem' curCol <> Ok out.
Proof.
  eexists. split; [reflexivity|].
  apply (reallocateAndReset_rotation_arrays exampleProblem _ 7%Q 4).
  reflexivity.
Defined.

(** X9 at the updated example problem. *)
Lemma solve_frame_witness :
  validSolve exampleUpdated 1 = true
  /\ exists problem',
       solve exampleUpdated 1 = Ok problem'
       /\ H problem' = H exampleUpdated /\ R problem' = R exampleUpdated
       /\ z problem' = z exampleUpdated
       /\ theCosines problem' = theCosines exampleUpdated
       /\ theSines problem' = theSines exampleUpdated
       /\ same_shape (y problem') (y exampleUpdated)
       /\ forall i j, 1 + 1 <= i < numRows (y exampleUpdated) ->
            0 <= j < numCols (y exampleUpdated) ->
            elem (y problem') i j = elem (y exampleUpdated) i j.
Proof.
  split; [reflexivity|]. eexists. split; [reflexivity|].
  apply (solve_frame exampleUpdated _ 1); reflexivity.
Defined.

(** X10 at a 2 by 2 matrix, doubled. *)
Lemma matScale_entries_witness :
  fits exampleR = true
  /\ exists A',
       matScale exampleR 2%Q = Ok A'
       /\ same_shape A' exampleR
       /\ (forall i j, 0 <= i < numRows exampleR ->
             0 <= j < numCols exampleR ->
             exists a,
               elem exampleR i j = Ok a
               /\ elem A' i j = Ok (STS_mul a 2%Q))
       /\ (forall q,
             (forall i j, 0 <= i < numRows exampleR ->
                0 <= j < numCols exampleR ->
                q <> offset exampleR + i + j * stride exampleR) ->
             load (buffer A') q = load (buffer exampleR) q).
Proof.
  split; [reflexivity|].
  apply (matScale_entries exampleR 2%Q). reflexivity.
Defined.

(** X11 at two 2 by 2 matrices: the call returns, and what it returns is
    the sum. *)
Lemma matAdd_entries_witness :
  fits exampleR = true
  /\ (fits deficientR = true
      /\ numRows deficientR = numRows exampleR
      /\ numCols deficientR = numCols exampleR
      /\ exists A', matAdd exampleR deficientR = Ok A')
  /\ (matAdd exampleR deficientR = Ok (mkMatrix 2 2 2 0 [3; 0; 2; 2]%Q)
      /\ forall i j, 0 <= i < numRows exampleR ->
            0 <= j < numCols exampleR ->
            exists a b,
              elem exampleR i j = Ok a /\ elem deficientR i j = Ok b
              /\ elem (mkMatrix 2 2 2 0 [3; 0; 2; 2]%Q) i j
                 = Ok (STS_add a b)).
Proof.
  destruct (matAdd_entries exampleR deficientR) as [Hpartial Htotal];
    [reflexivity|].
  split; [reflexivity|]. split.
  - split; [reflexivity|]. split; [reflexivity|]. split; [reflexivity|].
    apply Htotal; reflexivity.
  - split; [reflexivity|]. apply Hpartial. reflexivity.
Defined.

(** X12 at the same two matrices: the call returns, and what it returns is
    the difference. *)
Lemma matSub_entries_witness :
  fits exampleR = true
  /\ (fits deficientR = true
      /\ numRows deficientR = numRows exampleR
      /\ numCols deficientR = numCols exampleR
      /\ exists A', matSub exampleR deficientR = Ok A')
  /\ (matSub exampleR deficientR = Ok (mkMatrix 2 2 2 0 [1; 0; 0; 2]%Q)
      /\ forall i j, 0 <= i < numRows exampleR ->
            0 <= j < numCols exampleR ->
            exists a b,
              elem exampleR i j = Ok a /\ elem deficientR i j = Ok b
              /\ elem (mkMatrix 2 2 2 0 [1; 0; 0; 2]%Q) i j
                 = Ok (STS_sub a b)).
Proof.
  destruct (matSub_entries exampleR deficientR) as [Hpartial Htotal];
    [reflexivity|].
  split; [reflexivity|]. split.
  - split; [reflexivity|]. split; [reflexivity|]. split; [reflexivity|].
    apply Htotal; reflexivity.
  - split; [reflexivity|]. apply Hpartial. reflexivity.
Defined.

(** X15 at a panel that starts at column 1 and stays inside its
    matrices: the steps before the last [matSub] return, and the call ends
    in the dimension error of that [matSub]. *)
Lemma caGmresUpdateUpperHessenberg_later_panels_witness :
  1 <> 0
  /\ 0 < 1 <= 1
  /\ exists H1 H_k_underline lastRow,
       caGmresLaterPanel (H (set_H exampleProblem laterPanelH)) laterPanelR
         laterPanelB 1 1 = Ok (H1, H_k_underline, lastRow)
       /\ numRows lastRow = 1 /\ numCols lastRow = 1
       /\ numRows (View H_k_underline 1 (1 + 1) 0 0) = 1
       /\ numCols (View H_k_underline 1 (1 + 1) 0 0) = 1 + 1
       /\ matSub (View H_k_underline 1 (1 + 1) 0 0) lastRow
          = Throw invalid_argument
       /\ caGmresUpdateUpperHessenbergImpl
            (H (set_H exampleProblem laterPanelH)) laterPanelR laterPanelB
            1 1 = Throw invalid_argument
       /\ caGmresUpdateUpperHessenberg (set_H exampleProblem laterPanelH)
            laterPanelR laterPanelB 1 1 = Throw invalid_argument.
Proof.
  split; [lia|]. split; [lia|].
  destruct (caGmresUpdateUpperHessenberg_later_panels
              (set_H exampleProblem laterPanelH) laterPanelR laterPanelB 1 1)
    as [_ Hlater]; [lia|].
  destruct (Hlater ltac:(lia)) as [_ Hreach].
  do 3 eexists. split; [reflexivity|].
  eapply Hreach. reflexivity.
Defined.

(** X16 at the panel of both columns of the example problem: the value
    returned is the magnitude of [z(2,0)] as it was, which is zero. *)
Lemma updateColumnsGivensBlock_last_column_witness :
  fits (z exampleProblem) = true
  /\ exists R' y' z' cosines' sines' norm,
       updateColumnsGivensBlock (H exampleProblem) (R exampleProblem)
         (y exampleProblem) (z exampleProblem) (theCosines exampleProblem)
         (theSines exampleProblem) 0 1
       = Ok (R', y', z', cosines', sines', norm)
       /\ load cosines' 1 = load (theCosines exampleProblem) 1
       /\ load sines' 1 = load (theSines exampleProblem) 1
       /\ y' = y exampleProblem
       /\ exists last,
            elem (z exampleProblem) (1 + 1) 0 = Ok last
            /\ elem z' (1 + 1) 0 = Ok last
            /\ norm = STS_magnitude last.
Proof.
  split; [reflexivity|]. do 6 eexists. split; [reflexivity|].
  eapply (updateColumnsGivensBlock_last_column
           (H exampleProblem) (R exampleProblem) (y exampleProblem)
           (z exampleProblem) (theCosines exampleProblem)
           (theSines exampleProblem) 0 1);
    reflexivity.
Defined.

(** X17 at a 4 by 3 problem and the counting generator started at -12:
    the matrix takes the draws -12 .. -1, the next draw is 0, and the one
    after it, 1, becomes [z(0,0)]. *)
Lemma makeRandomProblem_spec_witness :
  fits (newMatrix 4 3 : SerialDenseMatrix Q) = true
  /\ fits (newMatrix 4 1 : SerialDenseMatrix Q) = true
  /\ STM_eqb (STM_zero : Q) STM_zero = true
  /\ exists H' z',
       makeRandomProblem (newMatrix 4 3) (newMatrix 4 1) (-12)
       = Ok (H', z', 2)
       /\ elem z' 0 0 = Ok 1%Q
       /\ exists H1 g1 trial,
            randomMatrix (newMatrix 4 3) (-12) = Ok (H1, g1)
            /\ same_shape H' (newMatrix 4 3)
            /\ (forall i j, 0 <= j < 3 -> j + 2 <= i < 4 ->
                  elem H' i j = Ok STS_zero)
            /\ (forall i j, 0 <= j < 3 -> 0 <= i < 4 -> i < j + 2 ->
                  elem H' i j = elem H1 i j)
            /\ (trial < 1000)%nat
            /\ (forall earlier, (earlier < trial)%nat ->
                  STM_eqb (nthDraw earlier g1).1 STM_zero = true)
            /\ STM_eqb (nthDraw trial g1).1 STM_zero = false
            /\ 2 = (nthDraw trial g1).2
            /\ elem z' 0 0
               = Ok (STS_promote
                       (if STM_ltb (nthDraw trial g1).1 (STM_of_int 0)
                        then STM_neg (nthDraw trial g1).1
                        else (nthDraw trial g1).1))
            /\ (forall i j, 0 <= i < 4 -> 0 <= j < 1 ->
                  (i <> 0 \/ j <> 0) ->
                  elem z' i j = elem (newMatrix 4 1) i j).
Proof.
  split; [reflexivity|]. split; [reflexivity|]. split; [reflexivity|].
  do 2 eexists. split; [reflexivity|]. split; [reflexivity|].
  apply (makeRandomProblem_spec (newMatrix 4 3) (newMatrix 4 1) _ _ (-12) 2);
    reflexivity.
Defined.

(** X18 at a 4 by 3 problem and the generator that only draws zero. *)
Lemma makeRandomProblem_broken_generator_witness :
  fits (newMatrix 4 3 : SerialDenseMatrix Q) = true
  /\ STM_eqb (STM_zero : Q) STM_zero = true
  /\ (forall g0 : unit,
        STM_eqb (fst (STM_random (RandomSource := Q_broken) g0)) STM_zero
        = true)
  /\ makeRandomProblem (random := Q_broken) (newMatrix 4 3) (newMatrix 4 1) tt
     = Throw runtime_error.
Proof.
  split; [reflexivity|]. split; [reflexivity|].
  split; [intros g0; reflexivity|].
  apply (makeRandomProblem_broken_generator (random := Q_broken)
           (newMatrix 4 3) (newMatrix 4 1) tt);
    [reflexivity | reflexivity | intros g0; reflexivity].
Defined.

(** X19 at a singular 2 by 2 factor: the SVD solve gives back the
    right-hand side and reports full rank. *)
Lemma solveUpperTriangularSystem_svd_only_queries_witness :
  (forall n nrhs A aoff lda xbuf xoff ldx rcond,
     (GELSS (LAPACK := Q_lapack) n nrhs A aoff lda xbuf xoff ldx rcond
        (-1)).1.1.1 = xbuf
     /\ (GELSS (LAPACK := Q_lapack) n nrhs A aoff lda xbuf xoff ldx rcond
           (-1)).1.1.2 = n)
  /\ exists x',
       solveUpperTriangularSystem (newMatrix 2 1) singularR onesRhs 2
       = Ok (x', (2, false))
       /\ (if numCols (newMatrix 2 1 : SerialDenseMatrix Q) =? numCols onesRhs
           then assign (newMatrix 2 1) onesRhs
           else assign (newMatrix 2 1)
                  (View onesRhs (numRows onesRhs)
                     (numCols (newMatrix 2 1 : SerialDenseMatrix Q)) 0 0))
          = Ok x'
       /\ 2 = numCols singularR /\ false = false.
Proof.
  split; [intros; split; reflexivity|]. eexists. split; [reflexivity|].
  apply (solveUpperTriangularSystem_svd_only_queries
           (newMatrix 2 1) singularR onesRhs _ 2 false);
    [intros; split; reflexivity | reflexivity].
Defined.

(** X20 at the example problem, for the panel of its first column. *)
Lemma caGmresUpdateUpperHessenberg_first_panel_witness :
  fits (H exampleProblem) = true
  /\ 0 + 2 <= numRows (H exampleProblem)
  /\ 0 + 1 <= numCols (H exampleProblem)
  /\ exists problem',
       caGmresUpdateUpperHessenberg exampleProblem exampleR onesRhs 0 0
       = Ok problem'
       /\ R problem' = R exampleProblem /\ y problem' = y exampleProblem
       /\ z problem' = z exampleProblem
       /\ theCosines problem' = theCosines exampleProblem
       /\ theSines problem' = theSines exampleProblem
       /\ same_shape (H problem') (H exampleProblem)
       /\ forall i j,
            0 <= i < numRows (H exampleProblem) ->
            0 <= j < numCols (H exampleProblem) ->
            0 + 2 <= i \/ 0 + 1 <= j ->
            elem (H problem') i j = elem (H exampleProblem) i j.
Proof.
  split; [reflexivity|]. split; [simpl; lia|]. split; [simpl; lia|].
  eexists. split; [reflexivity|].
  apply (caGmresUpdateUpperHessenberg_first_panel exampleProblem _
           exampleR onesRhs 0);
    [reflexivity | simpl; lia | simpl; lia | reflexivity].
Defined.
